(** * Reactive notebook core: analyzer, graph builder, executor adapter,
      reactor and notebook text format

    A shallow embedding of [Backend/parser.py], [Backend/dependency.py],
    [Backend/executor.py] and [Backend/reactor.py].

    Conventions of the embedding.
    - A Python [str] is a [string]; its characters are 8-bit code points.
    - A Python [set] of strings is a [gset string]; where the code iterates
      over a set the embedding iterates over [elements], one fixed order
      (Python leaves the order of a set unspecified).
    - A Python [dict] that is only looked up and updated is a [gmap]; the
      dependency graph, which the code also iterates, is an association list
      in insertion order ([dict]).
    - Mutable objects shared by reference ([CellState]) live in the store
      [cell_states]; a returned list of states is the list of their keys.
    - Code outside the repository ([ast.parse], [exec], value rendering) is
      an interface ([AstParser], [Interp]).
    - Loops and recursions without a structural argument take fuel; running
      out of fuel is the error [OutOfFuel], and the facts below show it does
      not happen in [detect_cycle], [get_downstream_cells] and
      [topological_sort]. *)

From Stdlib Require Import Ascii String.
From stdpp Require Import gmap strings list fin_maps sets pretty.

Set Warnings "-register-all".

(** ** Errors a call can end with *)

Inductive exn :=
| KeyError (k : string)
| OutOfFuel.

Inductive res (A : Type) :=
| Ok (a : A)
| Raise (e : exn).
Arguments Ok {A} a.
Arguments Raise {A} e.

#[global] Instance res_ret : MRet res := fun _ a => Ok a.
#[global] Instance res_bind : MBind res := fun _ _ k m =>
  match m with
  | Ok a => k a
  | Raise e => Raise e
  end.

(** ** Python built-ins used by the code *)

Module Py.

(** [str.isspace] on one character (code points below 256). *)
Definition isspace (c : ascii) : bool :=
  match nat_of_ascii c with
  | 9 | 10 | 11 | 12 | 13 | 28 | 29 | 30 | 31 | 32 | 133 | 160 => true
  | _ => false
  end.

(** Truth value of a [str]: the empty string is false. *)
Definition truthy (s : string) : bool :=
  match s with
  | EmptyString => false
  | String _ _ => true
  end.

(** Truth value of an [Optional[str]]. *)
Definition truthy_opt (o : option string) : bool :=
  match o with
  | Some s => truthy s
  | None => false
  end.

(** [s.lstrip()]: drop the leading white space. *)
Fixpoint lstrip (l : list ascii) : list ascii :=
  match l with
  | [] => []
  | c :: l' => if isspace c then lstrip l' else l
  end.

(** [s.rstrip()]: drop the trailing white space. *)
Fixpoint rstrip (l : list ascii) : list ascii :=
  match l with
  | [] => []
  | c :: l' =>
      match rstrip l' with
      | [] => if isspace c then [] else [c]
      | r => c :: r
      end
  end.

(** [s.strip()] *)
Definition strip_chars (l : list ascii) : list ascii := rstrip (lstrip l).
Definition strip (s : string) : string :=
  string_of_list_ascii (strip_chars (list_ascii_of_string s)).

(** [s.split(sep)] for a one-character separator: never empty. *)
Fixpoint split_chars (sep : ascii) (l : list ascii) : list (list ascii) :=
  match l with
  | [] => [[]]
  | c :: l' =>
      if decide (c = sep) then [] :: split_chars sep l'
      else match split_chars sep l' with
           | [] => [[c]]
           | w :: ws => (c :: w) :: ws
           end
  end.

(** [sep.join(parts)] *)
Fixpoint join_chars (sep : list ascii) (parts : list (list ascii)) : list ascii :=
  match parts with
  | [] => []
  | [p] => p
  | p :: ps => p ++ sep ++ join_chars sep ps
  end.

Definition join (sep : string) (parts : list string) : string :=
  string_of_list_ascii
    (join_chars (list_ascii_of_string sep) (list_ascii_of_string <$> parts)).

(** [s.split(sep, 1)] when [sep in s]: the text before and after the
    first separator; [None] when the separator does not occur. *)
Fixpoint split_once (sep : ascii) (l : list ascii) : option (list ascii * list ascii) :=
  match l with
  | [] => None
  | c :: l' =>
      if decide (c = sep) then Some ([], l')
      else match split_once sep l' with
           | Some (a, b) => Some (c :: a, b)
           | None => None
           end
  end.

End Py.

(** ** parser.py: cells *)

Record Cell := mkCell {
  id : string;
  code : string;
  cell_type : string;          (* "python" or "sql" *)
  as_var : option string;      (* variable name for SQL results *)
}.

(** [find_cell_by_id] *)
Fixpoint find_cell_by_id (cells : list Cell) (cell_id : string) : option Cell :=
  match cells with
  | [] => None
  | cell :: rest =>
      if decide (id cell = cell_id) then Some cell else find_cell_by_id rest cell_id
  end.

(** [remove_cell_by_id]: whether a cell was removed, and the list as the
    call leaves it *)
Fixpoint remove_cell_by_id (cells : list Cell) (cell_id : string) : bool * list Cell :=
  match cells with
  | [] => (false, [])
  | cell :: rest =>
      if decide (id cell = cell_id) then (true, rest)
      else let '(found, rest) := remove_cell_by_id rest cell_id in (found, cell :: rest)
  end.

(** [uuid.uuid4().hex[:8]]: the identifier the [n]-th call returns. *)
Class IdSource := generate_cell_id : nat -> string.

(** the characters of a [str] *)
Abbreviation chars := list_ascii_of_string.
Abbreviation str := string_of_list_ascii.

Fixpoint strip_prefix (p l : list ascii) : option (list ascii) :=
  match p, l with
  | [], _ => Some l
  | a :: p', b :: l' => if decide (a = b) then strip_prefix p' l' else None
  | _ :: _, [] => None
  end.

(** the longest prefix without the character [stop] *)
Fixpoint take_until (stop : ascii) (l : list ascii) : list ascii :=
  match l with
  | [] => []
  | c :: l' => if decide (c = stop) then [] else c :: take_until stop l'
  end.

(** [CELL_MARKER_PATTERN.match(line)], the pattern being
    [^# %%\s*\[([^\]]+)\]\s*$]: the text of group 1 on a match. *)
Definition match_marker (line : list ascii) : option (list ascii) :=
  match strip_prefix (chars "# %%") line with
  | None => None
  | Some rest =>
      match Py.lstrip rest with
      | "["%char :: rest =>
          let content := take_until "]"%char rest in
          match content, drop (length content) rest with
          | _ :: _, "]"%char :: tail =>
              if forallb Py.isspace tail then Some content else None
          | _, _ => None
          end
      | _ => None
      end
  end.

(** [parse_marker] *)
Definition parse_marker (marker_content : list ascii) : gmap string string :=
  fold_left (fun result part =>
    let part := Py.strip_chars part in
    match Py.split_once ":"%char part with
    | Some (key, value) =>
        <[str (Py.strip_chars key) := str (Py.strip_chars value)]> result
    | None => result
    end) (Py.split_chars ","%char marker_content) ∅.

Record parse_state := mkParse {
  ps_cells : list Cell;
  ps_current_cell : option Cell;
  ps_current_code_lines : list (list ascii);
  ps_calls : nat;                (* calls made to [generate_cell_id] *)
}.

(** [current_cell.code = '\n'.join(current_code_lines).strip();
     cells.append(current_cell)] *)
Definition close_cell (st : parse_state) : list Cell :=
  match ps_current_cell st with
  | Some cell =>
      ps_cells st ++
      [mkCell (id cell)
         (str (Py.strip_chars (Py.join_chars ["010"%char] (ps_current_code_lines st))))
         (cell_type cell) (as_var cell)]
  | None => ps_cells st
  end.

(** one turn of the [for line in lines] loop of [parse_notebook] *)
Definition parse_line `{IdSource} (st : parse_state) (line : list ascii) : parse_state :=
  match match_marker line with
  | Some content =>
      let marker_data := parse_marker content in
      let fresh := generate_cell_id (ps_calls st) in
      let cell := mkCell (default fresh (marker_data !! "id")) ""
                         (default "python" (marker_data !! "type"))
                         (marker_data !! "as") in
      mkParse (close_cell st) (Some cell) [] (S (ps_calls st))
  | None =>
      match ps_current_cell st with
      | Some _ =>
          mkParse (ps_cells st) (ps_current_cell st)
                  (ps_current_code_lines st ++ [line]) (ps_calls st)
      | None => st
      end
  end.

(** [parse_notebook] *)
Definition parse_notebook `{IdSource} (content : string) : list Cell :=
  let lines := Py.split_chars "010"%char (chars content) in
  close_cell (fold_left parse_line lines (mkParse [] None [] 0)).

(** [serialize_cell] *)
Definition serialize_cell (cell : Cell) : string :=
  let parts :=
    ["id: " +:+ id cell]
    ++ (if decide (cell_type cell ≠ "python") then ["type: " +:+ cell_type cell] else [])
    ++ (match as_var cell with
        | Some v => if Py.truthy v then ["as: " +:+ v] else []
        | None => []
        end) in
  let marker := "# %% [" +:+ Py.join ", " parts +:+ "]" in
  marker +:+ String "010" (code cell).

(** [serialize_notebook] *)
Definition serialize_notebook (cells : list Cell) : string :=
  match cells with
  | [] => ""
  | _ => Py.join (String "010" (String "010" "")) (serialize_cell <$> cells)
         +:+ String "010" ""
  end.

(** ** dependency.py *)

(** *** The part of Python's [ast] the visitor distinguishes *)

Inductive expr_context := Load | Store | Del.

Record alias := mkAlias {
  alias_name : string;
  alias_asname : option string;
}.

(** A node class that [VariableVisitor] has no method for is [Node]: its
    child nodes in field order, which is how [generic_visit] walks it. *)
Inductive ast :=
| Name (name_id : string) (ctx : expr_context)
| Tuple (elts : list ast)
| List_ (elts : list ast)
| AugAssign (target value : ast)
| FunctionDef (name : string) (defaults : list ast)
    (kw_defaults : list (option ast)) (body : list ast)
| AsyncFunctionDef (name : string) (defaults : list ast)
    (kw_defaults : list (option ast)) (body : list ast)
| ClassDef (name : string) (bases : list ast) (body : list ast)
| Import (names : list alias)
| ImportFrom (names : list alias)
| For (target iter : ast) (body orelse : list ast)
| comprehension (target iter : ast) (ifs : list ast)
| Node (children : list ast).

(** [ast.parse]: [None] stands for [SyntaxError]. *)
Class AstParser := ast_parse : string -> option ast.

Record CellAnalysis := mkCellAnalysis {
  cell_id : string;
  reads : gset string;
  writes : gset string;
}.

Record VariableVisitor := mkVisitor {
  v_reads : gset string;
  v_writes : gset string;
  v_required_reads : gset string;
  v_local_scope : gset string;
}.

Definition VariableVisitor_init : VariableVisitor := mkVisitor ∅ ∅ ∅ ∅.

(** [self.writes.add(n); self._local_scope.add(n)] *)
Definition add_write (n : string) (self : VariableVisitor) : VariableVisitor :=
  mkVisitor (v_reads self) ({[n]} ∪ v_writes self)
            (v_required_reads self) ({[n]} ∪ v_local_scope self).

Definition add_read (n : string) (self : VariableVisitor) : VariableVisitor :=
  mkVisitor ({[n]} ∪ v_reads self) (v_writes self)
            (v_required_reads self) (v_local_scope self).

Definition add_required_read (n : string) (self : VariableVisitor) : VariableVisitor :=
  mkVisitor (v_reads self) (v_writes self)
            ({[n]} ∪ v_required_reads self) (v_local_scope self).

(** [_visit_target] *)
Fixpoint _visit_target (target : ast) (self : VariableVisitor) : VariableVisitor :=
  match target with
  | Name n _ => add_write n self
  | Tuple elts | List_ elts =>
      fold_left (fun s elt => _visit_target elt s) elts self
  | _ => self
  end.

(** [alias.name.split('.')[0]] *)
Fixpoint first_segment (s : string) : string :=
  match s with
  | EmptyString => EmptyString
  | String c s' => if decide (c = "."%char) then EmptyString else String c (first_segment s')
  end.

Definition visit_Import (names : list alias) (self : VariableVisitor) : VariableVisitor :=
  fold_left (fun s a =>
    let name := match alias_asname a with
                | Some n => if Py.truthy n then n else first_segment (alias_name a)
                | None => first_segment (alias_name a)
                end in
    add_write name s) names self.

Definition visit_ImportFrom (names : list alias) (self : VariableVisitor) : VariableVisitor :=
  fold_left (fun s a =>
    let name := match alias_asname a with
                | Some n => if Py.truthy n then n else alias_name a
                | None => alias_name a
                end in
    if decide (name = "*") then s else add_write name s) names self.

(** [NodeVisitor.visit], dispatching on the node class. *)
Fixpoint visit (node : ast) (self : VariableVisitor) {struct node} : VariableVisitor :=
  match node with
  | Name n ctx =>
      (* the only child of a Name is its context, which holds nothing *)
      match ctx with
      | Load => if decide (n ∈ v_local_scope self) then self else add_read n self
      | Store => add_write n self
      | Del => self
      end
  | AugAssign target value =>
      let self :=
        match target with
        | Name n _ =>
            let self :=
              if decide (n ∈ v_local_scope self) then self
              else add_required_read n (add_read n self) in
            add_write n self
        | _ => self
        end in
      visit value self
  | FunctionDef name defaults kw_defaults _
  | AsyncFunctionDef name defaults kw_defaults _ =>
      let self := add_write name self in
      let self := fold_left (fun s d => visit d s) defaults self in
      fold_left (fun s d => match d with Some d => visit d s | None => s end)
                kw_defaults self
  | ClassDef name bases _ =>
      let self := add_write name self in
      fold_left (fun s b => visit b s) bases self
  | Import names => visit_Import names self
  | ImportFrom names => visit_ImportFrom names self
  | For target iter body orelse =>
      let self := _visit_target target self in
      let self := visit iter self in
      let self := fold_left (fun s stmt => visit stmt s) body self in
      fold_left (fun s stmt => visit stmt s) orelse self
  | comprehension target iter ifs =>
      let self := _visit_target target self in
      let self := visit iter self in
      fold_left (fun s c => visit c s) ifs self
  | Tuple children | List_ children | Node children =>
      fold_left (fun s c => visit c s) children self
  end.

Definition common_builtins : gset string :=
  list_to_set [
    "print"; "len"; "range"; "str"; "int"; "float"; "list"; "dict"; "set";
    "tuple"; "bool"; "type"; "isinstance"; "hasattr"; "getattr"; "setattr";
    "open"; "file"; "input"; "output"; "sum"; "min"; "max"; "abs"; "round";
    "sorted"; "reversed"; "enumerate"; "zip"; "map"; "filter"; "any"; "all";
    "None"; "True"; "False"; "Exception"; "ValueError"; "TypeError"; "KeyError";
    "__name__"; "__file__"; "__doc__" ].

(** [analyze_python_code]; the local [builtins] of the source is computed
    and never used. *)
Definition analyze_python_code `{AstParser} (code : string) : gset string * gset string :=
  match ast_parse code with
  | None => (∅, ∅)
  | Some tree =>
      let visitor := visit tree VariableVisitor_init in
      ((v_reads visitor ∖ common_builtins ∖ v_writes visitor) ∪ v_required_reads visitor,
       v_writes visitor)
  end.

(** [analyze_cell] *)
Definition analyze_cell `{AstParser} (cell : Cell) : CellAnalysis :=
  if decide (cell_type cell = "sql") then
    let writes :=
      match as_var cell with
      | Some v => if Py.truthy v then {[v]} else {["_sql_" +:+ id cell]}
      | None => {["_sql_" +:+ id cell]}
      end in
    mkCellAnalysis (id cell) ∅ writes
  else
    let '(reads, writes) := analyze_python_code (code cell) in
    mkCellAnalysis (id cell) reads writes.

(** *** Dictionaries that are iterated: insertion order is kept *)

Abbreviation dict V := (list (string * V)).

Fixpoint dict_get {V} (d : dict V) (k : string) : option V :=
  match d with
  | [] => None
  | (k', v) :: d' => if decide (k' = k) then Some v else dict_get d' k
  end.

(** [d[k] = v]: an existing key keeps its place, a new key goes last. *)
Fixpoint dict_set {V} (k : string) (v : V) (d : dict V) : dict V :=
  match d with
  | [] => [(k, v)]
  | (k', v') :: d' =>
      if decide (k' = k) then (k, v) :: d' else (k', v') :: dict_set k v d'
  end.

(** a loop whose body may raise *)
Fixpoint fold_res {A B} (f : A -> B -> res A) (l : list B) (a : A) : res A :=
  match l with
  | [] => Ok a
  | b :: l' => a' ← f a b; fold_res f l' a'
  end.

#[global] Instance CellAnalysis_inhabited : Inhabited CellAnalysis :=
  populate (mkCellAnalysis "" ∅ ∅).

(** [analyses = {cell.id: analyze_cell(cell) for cell in cells}] *)
Definition analyses_of `{AstParser} (cells : list Cell) : gmap string CellAnalysis :=
  fold_left (fun m cell => <[id cell := analyze_cell cell]> m) cells ∅.

(** the map from a variable to the last cell that writes it *)
Definition var_to_cell_of (analyses : gmap string CellAnalysis) (cells : list Cell)
    : gmap string string :=
  fold_left (fun m cell =>
    let analysis := analyses !!! id cell in
    fold_left (fun m var => <[var := id cell]> m) (elements (writes analysis)) m)
    cells ∅.

Definition dependencies_of (var_to_cell : gmap string string)
    (analysis : CellAnalysis) (cid : string) : gset string :=
  fold_left (fun deps var =>
    match var_to_cell !! var with
    | Some upstream_cell =>
        if decide (upstream_cell ≠ cid) then {[upstream_cell]} ∪ deps else deps
    | None => deps
    end) (elements (reads analysis)) ∅.

(** [build_dependency_graph] *)
Definition build_dependency_graph `{AstParser} (cells : list Cell) : dict (gset string) :=
  let analyses := analyses_of cells in
  let var_to_cell := var_to_cell_of analyses cells in
  fold_left (fun graph cell =>
    let analysis := analyses !!! id cell in
    dict_set (id cell) (dependencies_of var_to_cell analysis (id cell)) graph)
    cells [].

(** the forward map of [get_downstream_cells]: producer to consumers *)
Definition invert_graph (graph : dict (gset string)) : gmap string (gset string) :=
  let downstream : gmap string (gset string) :=
    fold_left (fun m kv => <[kv.1 := ∅]> m) graph ∅ in
  fold_left (fun m kv =>
    fold_left (fun m dep =>
      match m !! dep with
      | Some s => <[dep := {[kv.1]} ∪ s]> m
      | None => m
      end) (elements kv.2) m) graph downstream.

(** the [while queue] loop of [get_downstream_cells] *)
Fixpoint bfs (fuel : nat) (downstream : gmap string (gset string))
    (result : gset string) (queue : list string) : res (gset string) :=
  match queue with
  | [] => Ok result
  | current :: queue =>
      match fuel with
      | 0 => Raise OutOfFuel
      | S fuel =>
          if decide (current ∈ result) then bfs fuel downstream result queue
          else bfs fuel downstream ({[current]} ∪ result)
                 (queue ++ elements (default ∅ (downstream !! current)))
      end
  end.

(** [get_downstream_cells] *)
Definition get_downstream_cells (graph : dict (gset string)) (cell_id : string)
    : res (gset string) :=
  let downstream := invert_graph graph in
  let n := size downstream in
  bfs (S n * S n) downstream ∅ (elements (default ∅ (downstream !! cell_id))).

Record topo_state := mkTopo {
  ts_result : list string;
  ts_visited : gset string;
  ts_temp_visited : gset string;
}.

(** the inner [visit] of [topological_sort] *)
Fixpoint topo_visit (fuel : nat) (subgraph : gmap string (gset string))
    (st : topo_state) (node : string) : res topo_state :=
  if decide (node ∈ ts_temp_visited st) then Ok st
  else if decide (node ∈ ts_visited st) then Ok st
  else
    match fuel with
    | 0 => Raise OutOfFuel
    | S fuel =>
        let st := mkTopo (ts_result st) (ts_visited st) ({[node]} ∪ ts_temp_visited st) in
        st ← fold_res (topo_visit fuel subgraph)
               (elements (default ∅ (subgraph !! node))) st;
        Ok (mkTopo (ts_result st ++ [node]) ({[node]} ∪ ts_visited st)
                   (ts_temp_visited st ∖ {[node]}))
    end.

Definition subgraph_of (graph : dict (gset string)) (cell_ids : gset string)
    : gmap string (gset string) :=
  fold_left (fun m kv =>
    if decide (kv.1 ∈ cell_ids) then <[kv.1 := kv.2 ∩ cell_ids]> m else m) graph ∅.

(** [topological_sort] *)
Definition topological_sort (graph : dict (gset string)) (cell_ids : gset string)
    : res (list string) :=
  let subgraph := subgraph_of graph cell_ids in
  st ← fold_res (fun st cell_id =>
          if decide (cell_id ∈ ts_visited st) then Ok st
          else topo_visit (S (size cell_ids)) subgraph st cell_id)
        (elements cell_ids) (mkTopo [] ∅ ∅);
  Ok (ts_result st).

Inductive color_t := WHITE | GRAY | BLACK.

Record dfs_state := mkDfs {
  color : gmap string color_t;
  parent : gmap string (option string);
}.

(** the [while parent[current] and parent[current] != neighbor] loop *)
Fixpoint walk_parents (fuel : nat) (parent : gmap string (option string))
    (neighbor current : string) (cycle : list string) : res (list string) :=
  match parent !! current with
  | None => Raise (KeyError current)
  | Some None => Ok cycle
  | Some (Some p) =>
      if Py.truthy p && bool_decide (p ≠ neighbor) then
        match fuel with
        | 0 => Raise OutOfFuel
        | S fuel => walk_parents fuel parent neighbor p (cycle ++ [p])
        end
      else Ok cycle
  end.

(** the [for neighbor in graph.get(node, set())] loop of [dfs]; [rec] is
    the recursive call *)
Fixpoint dfs_neighbors (rec : string -> dfs_state -> res (option (list string) * dfs_state))
    (walk_fuel : nat) (node : string) (neighbors : list string) (st : dfs_state)
    : res (option (list string) * dfs_state) :=
  match neighbors with
  | [] => Ok (None, mkDfs (<[node := BLACK]> (color st)) (parent st))
  | neighbor :: rest =>
      match color st !! neighbor with
      | None => dfs_neighbors rec walk_fuel node rest st
      | Some GRAY =>
          cycle ← walk_parents walk_fuel (parent st) neighbor node [neighbor; node];
          Ok (Some cycle, st)
      | Some WHITE =>
          let st := mkDfs (color st) (<[neighbor := Some node]> (parent st)) in
          '(result, st) ← rec neighbor st;
          match result with
          | Some (_ :: _) => Ok (result, st)
          | _ => dfs_neighbors rec walk_fuel node rest st
          end
      | Some BLACK => dfs_neighbors rec walk_fuel node rest st
      end
  end.

(** the inner [dfs] of [detect_cycle] *)
Fixpoint dfs (fuel : nat) (graph : dict (gset string)) (node : string) (st : dfs_state)
    : res (option (list string) * dfs_state) :=
  match fuel with
  | 0 => Raise OutOfFuel
  | S fuel =>
      let st := mkDfs (<[node := GRAY]> (color st)) (parent st) in
      dfs_neighbors (dfs fuel graph) (length graph) node
        (elements (default ∅ (dict_get graph node))) st
  end.

(** the [for node in graph] loop of [detect_cycle] *)
Fixpoint detect_cycle_from (graph : dict (gset string)) (nodes : list string)
    (st : dfs_state) : res (option (list string)) :=
  match nodes with
  | [] => Ok None
  | node :: rest =>
      match color st !! node with
      | None => Raise (KeyError node)
      | Some WHITE =>
          '(result, st) ← dfs (S (length graph)) graph node st;
          match result with
          | Some (_ :: _) => Ok result
          | _ => detect_cycle_from graph rest st
          end
      | Some _ => detect_cycle_from graph rest st
      end
  end.

(** [detect_cycle] *)
Definition detect_cycle (graph : dict (gset string)) : res (option (list string)) :=
  let color := fold_left (fun m kv => <[kv.1 := WHITE]> m) graph ∅ in
  let parent := fold_left (fun m kv => <[kv.1 := None]> m) graph ∅ in
  detect_cycle_from graph graph.*1 (mkDfs color parent).

(** [get_execution_order] *)
Definition get_execution_order `{AstParser} (cells : list Cell) (changed_cell_id : string)
    : res (list string * option (list string)) :=
  let graph := build_dependency_graph cells in
  cycle ← detect_cycle graph;
  match cycle with
  | Some (_ :: _) => Ok ([], cycle)
  | _ =>
      downstream ← get_downstream_cells graph changed_cell_id;
      let to_execute := downstream ∪ {[changed_cell_id]} in
      order ← topological_sort graph to_execute;
      Ok (order, None)
  end.

(** ** executor.py *)

Record ExecutionResult := mkResult {
  er_cell_id : string;
  success : bool;
  er_stdout : string;
  result : option string;
  result_type : string;
  er_error : option string;
  er_error_traceback : option string;
}.

(** What one [exec(code, namespace)] under the redirected streams does:
    the namespace it leaves, the text it printed, and the exception it
    ended with, as [(str(e), traceback.format_exc())]. *)
Record exec_outcome (value : Type) := mkOutcome {
  ns_after : gmap string value;
  printed : string;
  raised : option (string * string);
}.
Arguments mkOutcome {value}.
Arguments ns_after {value}.
Arguments printed {value}.
Arguments raised {value}.

(** What [Executor._render_result] ends with: the rendered text and its
    type, or, when [repr] and [str] of the value both raise, the exception
    it lets through, as [(str(e), traceback.format_exc())]. *)
Inductive render_outcome :=
| Rendered (text kind : string)
| RenderRaised (msg error_tb : string).

(** The Python runtime under the executor. *)
Class Interp := {
  value : Type;
  py_exec : string -> gmap string value -> exec_outcome value;
  render_result : value -> render_outcome;
  builtins_module : value;
}.

Definition setup_code : string :=
  String "010" ("import pandas as pd" +:+ String "010" ("import numpy as np" +:+ String "010" "")).

(** [Executor._setup_namespace]: an [ImportError] is swallowed *)
Definition _setup_namespace `{Interp} (namespace : gmap string value) : gmap string value :=
  ns_after (py_exec setup_code namespace).

(** [Executor.reset_namespace] *)
Definition reset_namespace `{Interp} (namespace : gmap string value) : gmap string value :=
  _setup_namespace (<["__builtins__" := builtins_module]> ∅).

(** [Executor._execute_python_cell] *)
Definition _execute_python_cell `{Interp} (cell : Cell) (namespace : gmap string value)
    : ExecutionResult * gmap string value :=
  let code := Py.strip (code cell) in
  if negb (Py.truthy code) then
    (mkResult (id cell) true "" None "text" None None, namespace)
  else
    let o := py_exec code namespace in
    match raised o with
    | None =>
        let namespace := ns_after o in
        match namespace !! "_result" with
        | Some raw_result =>
            (* [namespace.pop] comes first: the name is gone also when the
               rendering raises, which the [except] branch then reports *)
            match render_result raw_result with
            | Rendered result result_type =>
                (mkResult (id cell) true (printed o) (Some result) result_type None None,
                 delete "_result" namespace)
            | RenderRaised msg error_tb =>
                (mkResult (id cell) false (printed o) None "error" (Some msg)
                          (Some error_tb),
                 delete "_result" namespace)
            end
        | None =>
            (mkResult (id cell) true (printed o) None "text" None None, namespace)
        end
    | Some (msg, error_tb) =>
        (mkResult (id cell) false (printed o) None "error" (Some msg) (Some error_tb),
         ns_after o)
    end.

(** [Executor.execute_cell] *)
Definition execute_cell `{Interp} (cell : Cell) (namespace : gmap string value)
    : ExecutionResult * gmap string value :=
  if decide (cell_type cell = "sql") then
    (mkResult (id cell) false "" None "text"
       (Some "SQL cells must be executed through the database module") None,
     namespace)
  else _execute_python_cell cell namespace.

(** ** reactor.py *)

Inductive CellStatus := IDLE | RUNNING | SUCCESS | ERROR | BLOCKED.

Record CellState := mkState {
  cs_cell_id : string;
  status : CellStatus;
  output : option string;
  output_type : string;
  stdout : string;
  error : option string;
  error_traceback : option string;
  blocked_by : option string;
}.

(** [CellState(cell_id=...)] *)
Definition CellState_new (cid : string) : CellState :=
  mkState cid IDLE None "text" "" None None None.

(** The reactor: its cell list, the store of its [CellState] objects, the
    namespace of its executor, and the calls it made to the executor or to
    the SQL executor (a log the source does not keep). The status callback
    only observes and is left out. *)
Record Reactor `{Interp} := mkReactor {
  cells : list Cell;
  cell_states : gmap string CellState;
  namespace : gmap string value;
  dispatched : list string;
}.

(** the callback for SQL cells *)
Abbreviation sql_executor_t :=
  (Cell -> gmap string value -> ExecutionResult * gmap string value).

(** [Reactor()] *)
Definition Reactor_new `{Interp} : Reactor :=
  mkReactor _ [] ∅ (_setup_namespace (<["__builtins__" := builtins_module]> ∅)) [].

(** [Reactor.set_cells] *)
Definition set_cells `{Interp} (new_cells : list Cell) (r : Reactor) : Reactor :=
  let states :=
    fold_left (fun m cell =>
      match m !! id cell with
      | Some _ => m
      | None => <[id cell := CellState_new (id cell)]> m
      end) new_cells (cell_states r) in
  let cell_ids : gset string := list_to_set (id <$> new_cells) in
  let to_remove := filter (fun cid => cid ∉ cell_ids) (map_to_list states).*1 in
  mkReactor _ new_cells (fold_left (fun m cid => delete cid m) to_remove states)
            (namespace r) (dispatched r).

(** [Reactor.clear_cell_state] *)
Definition clear_cell_state `{Interp} (cid : string) (r : Reactor) : Reactor :=
  mkReactor _ (cells r) (delete cid (cell_states r)) (namespace r) (dispatched r).

(** [Reactor._update_status]: the keyword arguments are the function [upd] *)
Definition _update_status (cid : string) (upd : CellState -> CellState)
    (states : gmap string CellState) : gmap string CellState :=
  match states !! cid with
  | Some state => <[cid := upd state]> states
  | None => states
  end.

Definition circular_message (cycle : list string) : string :=
  "Circular dependency detected: " +:+ Py.join " -> " cycle.

Definition upd_cycle (cycle : list string) (s : CellState) : CellState :=
  mkState (cs_cell_id s) ERROR (output s) (output_type s) (stdout s)
          (Some (circular_message cycle)) (error_traceback s) (blocked_by s).

Definition upd_blocked (blocking_cell : string) (s : CellState) : CellState :=
  mkState (cs_cell_id s) BLOCKED (output s) (output_type s) (stdout s)
          (Some ("Blocked by failed cell: " +:+ blocking_cell)) (error_traceback s)
          (Some blocking_cell).

Definition upd_running (s : CellState) : CellState :=
  mkState (cs_cell_id s) RUNNING (output s) (output_type s) (stdout s)
          (error s) (error_traceback s) None.

Definition upd_success (e : ExecutionResult) (s : CellState) : CellState :=
  mkState (cs_cell_id s) SUCCESS (result e) (result_type e) (er_stdout e)
          None None None.

Definition upd_error (e : ExecutionResult) (s : CellState) : CellState :=
  mkState (cs_cell_id s) ERROR None (output_type s) (er_stdout e)
          (er_error e) (er_error_traceback e) None.

(** [results.append(self.cell_states[cid])] *)
Definition append_state (states : gmap string CellState) (results : list string)
    (cid : string) : res (list string) :=
  match states !! cid with
  | Some _ => Ok (results ++ [cid])
  | None => Raise (KeyError cid)
  end.

Record run_state `{Interp} := mkRun {
  rs_states : gmap string CellState;
  rs_namespace : gmap string value;
  rs_dispatched : list string;
  rs_failed_cells : gset string;
  rs_results : list string;
}.

(** one turn of the [for cid in order] loop of [run_cell] *)
Definition run_step `{Interp} (cells : list Cell) (graph : dict (gset string))
    (sql_executor : option sql_executor_t) (st : run_state) (cid : string)
    : res run_state :=
  match find_cell_by_id cells cid with
  | None => Ok st
  | Some cell =>
      let upstream_deps := default ∅ (dict_get graph cid) in
      let blocking_cell :=
        List.find (fun dep => bool_decide (dep ∈ rs_failed_cells st))
                  (elements upstream_deps) in
      match blocking_cell with
      | Some (String _ _ as blocking_cell) =>
          let states := _update_status cid (upd_blocked blocking_cell) (rs_states st) in
          results ← append_state states (rs_results st) cid;
          Ok (mkRun _ states (rs_namespace st) (rs_dispatched st)
                    ({[cid]} ∪ rs_failed_cells st) results)
      | _ =>
          let states := _update_status cid upd_running (rs_states st) in
          let '(exec_result, ns, log) :=
            if decide (cell_type cell = "sql") then
              match sql_executor with
              | Some sql_executor =>
                  let '(e, ns) := sql_executor cell (rs_namespace st) in
                  (e, ns, rs_dispatched st ++ [cid])
              | None =>
                  (mkResult cid false "" None "text"
                     (Some "No database connection configured") None,
                   rs_namespace st, rs_dispatched st)
              end
            else
              let '(e, ns) := execute_cell cell (rs_namespace st) in
              (e, ns, rs_dispatched st ++ [cid]) in
          let '(states, failed) :=
            if success exec_result then
              (_update_status cid (upd_success exec_result) states, rs_failed_cells st)
            else
              (_update_status cid (upd_error exec_result) states,
               {[cid]} ∪ rs_failed_cells st) in
          results ← append_state states (rs_results st) cid;
          Ok (mkRun _ states ns log failed results)
      end
  end.

(** [Reactor.run_cell]: the states returned, as keys of the store, and the
    reactor afterwards *)
Definition run_cell `{Interp} `{AstParser} (cell_id : string)
    (sql_executor : option sql_executor_t) (r : Reactor)
    : res (list string * Reactor) :=
  '(order, cycle) ← get_execution_order (cells r) cell_id;
  match cycle with
  | Some ((_ :: _) as cycle) =>
      let states :=
        fold_left (fun m cid => _update_status cid (upd_cycle cycle) m)
                  cycle (cell_states r) in
      results ← fold_res (append_state states) cycle [];
      Ok (results, mkReactor _ (cells r) states (namespace r) (dispatched r))
  | _ =>
      let graph := build_dependency_graph (cells r) in
      st ← fold_res (run_step (cells r) graph sql_executor) order
             (mkRun _ (cell_states r) (namespace r) (dispatched r) ∅ []);
      Ok (rs_results st,
          mkReactor _ (cells r) (rs_states st) (rs_namespace st) (rs_dispatched st))
  end.

(** the [for r in results] loop of [run_all_cells] *)
Definition collect_results (results : list string)
    (acc : list string * gset string) : list string * gset string :=
  fold_left (fun (acc : list string * gset string) cid =>
    if decide (cid ∈ acc.2) then acc else (acc.1 ++ [cid], {[cid]} ∪ acc.2))
    results acc.

(** one turn of the [for root_id in root_cells] loop of [run_all_cells] *)
Definition run_all_step `{Interp} `{AstParser} (sql_executor : option sql_executor_t)
    (acc : list string * gset string * Reactor) (root_id : string)
    : res (list string * gset string * Reactor) :=
  if decide (root_id ∈ acc.1.2) then Ok acc
  else
    '(results, r) ← run_cell root_id sql_executor acc.2;
    Ok (collect_results results acc.1, r).

(** [Reactor.run_all_cells] *)
Definition run_all_cells `{Interp} `{AstParser} (sql_executor : option sql_executor_t)
    (r : Reactor) : res (list string * Reactor) :=
  match cells r with
  | [] => Ok ([], r)
  | first :: _ =>
      let graph := build_dependency_graph (cells r) in
      let root_cells :=
        filter (fun cid => default ∅ (dict_get graph cid) = ∅) (id <$> cells r) in
      let root_cells := match root_cells with [] => [id first] | _ => root_cells end in
      acc ← fold_res (run_all_step sql_executor) root_cells ([], ∅, r);
      Ok (acc.1.1, acc.2)
  end.

Definition upd_reset (s : CellState) : CellState :=
  mkState (cs_cell_id s) IDLE None (output_type s) "" None None None.

(** [Reactor.reset] *)
Definition reset `{Interp} (r : Reactor) : Reactor :=
  mkReactor _ (cells r) (upd_reset <$> cell_states r)
            (reset_namespace (namespace r)) (dispatched r).

(** ** The read filter as the specification words it *)

(** The built-in exclusion set, as enumerated. *)
Definition exclusion_set_spec : list string := [
  "print"; "len"; "range"; "str"; "int"; "float"; "list"; "dict"; "set";
  "tuple"; "bool"; "type"; "isinstance"; "hasattr"; "getattr"; "setattr";
  "open"; "file"; "input"; "output"; "sum"; "min"; "max"; "abs"; "round";
  "sorted"; "reversed"; "enumerate"; "zip"; "map"; "filter"; "any"; "all";
  "None"; "True"; "False"; "Exception"; "ValueError"; "TypeError"; "KeyError";
  "__name__"; "__file__"; "__doc__" ].

(** [final_reads = (collected_reads − exclusion_set − collected_writes)
    ∪ required_reads], as a predicate on names. *)
Definition final_reads_spec (collected : VariableVisitor) (x : string) : Prop :=
  (x ∈ v_reads collected ∧ ¬ In x exclusion_set_spec ∧ x ∉ v_writes collected)
  ∨ x ∈ v_required_reads collected.

(** What the visitor has collected once the source of a code cell is
    walked; nothing when the source does not parse. *)
Definition collected `{AstParser} (code : string) : VariableVisitor :=
  match ast_parse code with
  | Some tree => visit tree VariableVisitor_init
  | None => VariableVisitor_init
  end.

(** ** Notions the statements use *)

(** cell [a] depends on cell [b]: [b] is in the upstream set of [a] *)
Definition depends_on (graph : dict (gset string)) (a b : string) : Prop :=
  ∃ deps, dict_get graph a = Some deps ∧ b ∈ deps.

(** [x] lies on a dependency cycle *)
Definition on_cycle (graph : dict (gset string)) (x : string) : Prop :=
  tc (depends_on graph) x x.

Definition has_cycle (graph : dict (gset string)) : Prop :=
  ∃ x, on_cycle graph x.

(** no cell is in its own upstream set *)
Definition no_self_dependency (graph : dict (gset string)) : Prop :=
  ∀ k deps, dict_get graph k = Some deps → k ∉ deps.

(** the keys of a dictionary are pairwise distinct *)
Definition is_dict {V} (d : dict V) : Prop := NoDup d.*1.

(** each cell of the list is depended on by the next *)
Fixpoint linked (graph : dict (gset string)) (l : list string) : Prop :=
  match l with
  | [] => True
  | a :: rest =>
      match rest with
      | [] => True
      | b :: _ => depends_on graph b a
      end ∧ linked graph rest
  end.

(** a list of cells closing on itself: linked, and its first cell depends
    on its last *)
Definition closed_path (graph : dict (gset string)) (l : list string) : Prop :=
  linked graph l ∧
  ∃ first final, head l = Some first ∧ last l = Some final ∧
                 depends_on graph first final.

(** What [detect_cycle] promises of a list it returns: it is not empty, its
    members are cells of the graph, and the graph has a cycle; in a graph
    without self-dependency each member lies on a cycle, and when moreover
    no cell has the empty identifier the list is a closed path. *)
Definition witnesses_cycle (graph : dict (gset string)) (cycle : list string) : Prop :=
  cycle ≠ [] ∧
  (∀ x, x ∈ cycle → x ∈ graph.*1) ∧
  has_cycle graph ∧
  (no_self_dependency graph → ∀ x, x ∈ cycle → on_cycle graph x) ∧
  (no_self_dependency graph → "" ∉ graph.*1 → closed_path graph cycle).

(** *** The invariant of the depth-first search of [detect_cycle] *)

Section dfs_notions.
Variable graph : dict (gset string).

(** the stack of grey nodes, innermost first: each has the next as its
    recorded parent, which depends on it; the outermost has none *)
Fixpoint chain (par : gmap string (option string)) (stk : list string) : Prop :=
  match stk with
  | [] => True
  | a :: rest =>
      par !! a = Some (head rest) ∧
      match rest with
      | [] => True
      | b :: _ => depends_on graph b a
      end ∧ chain par rest
  end.

Record dfs_inv (stk : list string) (st : dfs_state) : Prop := {
  inv_color_dom : ∀ k, is_Some (color st !! k) ↔ k ∈ graph.*1;
  inv_gray : ∀ k, color st !! k = Some GRAY ↔ k ∈ stk;
  inv_nodup : NoDup stk;
  inv_chain : chain (parent st) stk;
  inv_white : ∀ k, color st !! k = Some WHITE → parent st !! k = Some None;
  inv_black : ∀ b, color st !! b = Some BLACK →
    (∀ v, depends_on graph b v → color st !! v = Some BLACK ∨ color st !! v = None)
    ∧ ¬ on_cycle graph b;
}.

(** the state in which [dfs node] is entered from the frame of [stk]:
    the invariant held before the parent of [node] was recorded *)
Definition dfs_entry (stk : list string) (node : string) (st : dfs_state) : Prop :=
  ∃ st0, dfs_inv stk st0 ∧
         color st0 !! node = Some WHITE ∧
         color st = color st0 ∧
         parent st = <[node := head stk]> (parent st0) ∧
         match stk with
         | [] => True
         | p :: _ => depends_on graph p node
         end.

(** what [dfs node] returns to the frame of [stk] *)
Definition dfs_post (stk : list string) (node : string) (st : dfs_state)
    (out : res (option (list string) * dfs_state)) : Prop :=
  match out with
  | Raise _ => False
  | Ok (None, st') =>
      dfs_inv stk st' ∧ color st' !! node = Some BLACK ∧
      (∀ k, k ≠ node → color st !! k ≠ Some WHITE → color st' !! k = color st !! k)
  | Ok (Some c, _) => witnesses_cycle graph c
  end.
End dfs_notions.

Arguments inv_color_dom {graph stk st} _.
Arguments inv_gray {graph stk st} _.
Arguments inv_nodup {graph stk st} _.
Arguments inv_chain {graph stk st} _.
Arguments inv_white {graph stk st} _.
Arguments inv_black {graph stk st} _.

(** Every cell of the list has a state in the store. *)
Definition states_cover `{Interp} (r : Reactor) : Prop :=
  ∀ cell, cell ∈ cells r → is_Some (cell_states r !! id cell).

(** the reactor states that calls of [set_cells], [run_cell],
    [run_all_cells] and [reset] lead to from a new reactor *)
Inductive reachable `{Interp} `{AstParser} : Reactor → Prop :=
| reach_new : reachable Reactor_new
| reach_set_cells new_cells r :
    reachable r → reachable (set_cells new_cells r)
| reach_run_cell cell_id sql_executor r results r' :
    reachable r → run_cell cell_id sql_executor r = Ok (results, r') → reachable r'
| reach_run_all sql_executor r results r' :
    reachable r → run_all_cells sql_executor r = Ok (results, r') → reachable r'
| reach_reset r :
    reachable r → reachable (reset r).

(** the cells and the identifiers that have a state are the same *)
Definition same_cells_and_keys `{Interp} (r r' : Reactor) : Prop :=
  cells r' = cells r ∧ ∀ k, is_Some (cell_states r' !! k) ↔ is_Some (cell_states r !! k).

(** a blocked state names its blocker *)
Definition blocked_has_blocker (s : CellState) : Prop :=
  status s = BLOCKED → ∃ b, blocked_by s = Some b ∧ Py.truthy b = true.

(** *** Notebook text *)

(** a text that does not begin with white space *)
Definition no_lead (l : list ascii) : Prop :=
  match l with
  | [] => True
  | c :: _ => Py.isspace c = false
  end.

(** a text that [strip] leaves as it is *)
Definition stripped (l : list ascii) : Prop := Py.lstrip l = l ∧ Py.rstrip l = l.

Definition is_hex_digit (c : ascii) : bool :=
  match c with
  | "0" | "1" | "2" | "3" | "4" | "5" | "6" | "7" | "8" | "9"
  | "a" | "b" | "c" | "d" | "e" | "f" => true
  | _ => false
  end%char.

(** eight hexadecimal characters *)
Definition is_hex8 (s : string) : Prop :=
  length (chars s) = 8 ∧ forallb is_hex_digit (chars s) = true.

(** a character that can stand inside a field of a marker line *)
Definition field_char (x : ascii) : Prop :=
  x ≠ ","%char ∧ x ≠ "]"%char ∧ x ≠ "010"%char.

(** a value that a marker line can carry: stripped, and free of the
    characters that end a field, the marker or the line *)
Definition field_ok (s : string) : Prop :=
  stripped (chars s) ∧ ∀ x, x ∈ chars s → field_char x.

(** what every parsed cell satisfies *)
Definition cell_fields_ok (c : Cell) : Prop :=
  field_ok (id c) ∧ field_ok (cell_type c) ∧
  (∀ v, as_var c = Some v → field_ok v) ∧
  stripped (chars (code c)).

(** the two conditions under which a cell survives serialization: its
    output name is not the empty string, and no line of its source is a
    cell marker *)
Definition survives_serialization (c : Cell) : Prop :=
  as_var c ≠ Some "" ∧
  ∀ line, line ∈ Py.split_chars "010"%char (chars (code c)) → match_marker line = None.

(** the two conditions can be decided *)
#[global] Instance survives_serialization_dec (c : Cell) :
  Decision (survives_serialization c).
Proof.
  refine (cast_if (decide (as_var c ≠ Some "" ∧
            Forall (fun line => match_marker line = None)
                   (Py.split_chars "010"%char (chars (code c))))));
    unfold survives_serialization; rewrite Forall_forall in *; done.
Defined.

(** the fields [serialize_cell] writes into the marker, in order *)
Definition marker_fields (c : Cell) : list (string * string) :=
  [("id", id c)]
  ++ (if decide (cell_type c ≠ "python") then [("type", cell_type c)] else [])
  ++ (match as_var c with
      | Some v => if Py.truthy v then [("as", v)] else []
      | None => []
      end).

(** one [key: value] part of a marker *)
Definition part_chars (kv : string * string) : list ascii :=
  chars kv.1 ++ ":"%char :: " "%char :: chars kv.2.

Definition content_chars (c : Cell) : list ascii :=
  Py.join_chars [","%char; " "%char] (part_chars <$> marker_fields c).

Definition marker_chars (c : Cell) : list ascii :=
  chars "# %% [" ++ content_chars c ++ ["]"%char].

(** a key of a marker: not empty, stripped, without a colon *)
Definition key_ok (k : string) : Prop :=
  chars k ≠ [] ∧ stripped (chars k) ∧ (":"%char ∉ chars k) ∧
  ∀ x, x ∈ chars k → field_char x.

(** the lines the serializer writes for one cell: the marker, the lines of
    the source, and the empty line before the next marker or the end *)
Definition cell_lines (c : Cell) : list (list ascii) :=
  marker_chars c :: Py.split_chars "010"%char (chars (code c)) ++ [[]].

(** the cells closed so far are well formed, and so are the fields of the
    cell being read *)
Definition parse_inv (st : parse_state) : Prop :=
  Forall cell_fields_ok (ps_cells st) ∧
  ∀ c, ps_current_cell st = Some c →
    field_ok (id c) ∧ field_ok (cell_type c) ∧ (∀ v, as_var c = Some v → field_ok v).

(** ** What a caller observes of a run *)

(** the identifiers of the states a run returned *)
Definition returned `{Interp} (out : res (list string * Reactor)) : option (list string) :=
  match out with
  | Ok (results, _) => Some results
  | Raise _ => None
  end.

(** the reactor a run left *)
Definition reactor_after `{Interp} (out : res (list string * Reactor)) : option Reactor :=
  match out with
  | Ok (_, r) => Some r
  | Raise _ => None
  end.

(** the state of a cell in the reactor a run left *)
Definition state_after `{Interp} (out : res (list string * Reactor)) (cid : string)
    : option CellState :=
  r ← reactor_after out; cell_states r !! cid.

(** ** Notions for the facts about the rest of the code *)

(** *** The analyzer *)











(** [w] is the last cell of the list that writes [var] *)
Definition last_writer `{AstParser} (cells : list Cell) (var : string) (w : Cell) : Prop :=
  ∃ pre post, cells = pre ++ w :: post ∧ var ∈ writes (analyze_cell w) ∧
              ∀ c, c ∈ post → var ∉ writes (analyze_cell c).

(** an edge of the subgraph that [topological_sort] walks *)
Definition sub_dep (sg : gmap string (gset string)) (a b : string) : Prop :=
  ∃ deps, sg !! a = Some deps ∧ b ∈ deps.

(** *** The invariant of the walk of [topological_sort] *)

Section topo_notions.
Variable sg : gmap string (gset string).
Variable ids : gset string.

(** the result lists the visited cells once each; a cell stands after each
    of its dependencies, those that lie on a cycle with it apart *)
Record topo_inv (st : topo_state) : Prop := {
  ti_nodup : NoDup (ts_result st);
  ti_visited : ∀ x, x ∈ ts_result st ↔ x ∈ ts_visited st;
  ti_ids : ts_visited st ⊆ ids;
  ti_temp : ts_temp_visited st ⊆ ids;
  ti_disj : ts_visited st ## ts_temp_visited st;
  ti_order : ∀ l1 x l2 d, ts_result st = l1 ++ x :: l2 → sub_dep sg x d →
    d ∈ l1 ∨ tc (sub_dep sg) d x;
}.

(** what [visit(node)] leaves *)
Definition topo_post (st : topo_state) (node : string) (out : res topo_state) : Prop :=
  match out with
  | Raise _ => False
  | Ok st' =>
      topo_inv st' ∧ ts_temp_visited st' = ts_temp_visited st ∧
      ts_visited st ⊆ ts_visited st' ∧
      (node ∈ ts_visited st' ∨ node ∈ ts_temp_visited st)
  end.
End topo_notions.

Arguments ti_nodup {sg ids st} _.
Arguments ti_visited {sg ids st} _.
Arguments ti_ids {sg ids st} _.
Arguments ti_temp {sg ids st} _.
Arguments ti_disj {sg ids st} _.
Arguments ti_order {sg ids st} _.

(** *** The run loop *)

(** a state a run has finished with *)
Definition finished (s : CellState) : Prop :=
  status s = SUCCESS ∨ status s = ERROR ∨ status s = BLOCKED.

(** the result that the loop of [run_cell] gets for a cell it does not
    block, and the namespace afterwards: from the SQL executor, from the
    executor, or the failure for a query cell without a connection *)
Definition exec_result_of `{Interp} (sql_executor : option sql_executor_t) (cell : Cell)
    (ns : gmap string value) : ExecutionResult * gmap string value :=
  if decide (cell_type cell = "sql") then
    match sql_executor with
    | Some sql_executor => sql_executor cell ns
    | None =>
        (mkResult (id cell) false "" None "text"
           (Some "No database connection configured") None, ns)
    end
  else execute_cell cell ns.

(** whether a cell that is not blocked is handed to an executor: all but
    a query cell without an SQL executor *)
Definition handed_over `{Interp} (sql_executor : option sql_executor_t) (cell : Cell)
    : bool :=
  if decide (cell_type cell = "sql") then
    match sql_executor with Some _ => true | None => false end
  else true.

(** the state of a cell after it was run with the result [e] *)
Definition state_of_result (e : ExecutionResult) (s : CellState) : CellState :=
  if success e then upd_success e (upd_running s) else upd_error e (upd_running s).

(** what the loop of [run_cell] has established once the cells of [done]
    are processed *)
Record run_inv `{Interp} `{AstParser} (r : Reactor)
    (sql_executor : option sql_executor_t) (done : list string)
    (st : run_state) : Prop := {
  ri_results : rs_results st = done;
  ri_other : ∀ k, k ∉ done → rs_states st !! k = cell_states r !! k;
  ri_failed : ∀ k, k ∈ rs_failed_cells st → k ∈ done;
  ri_done : ∀ k, k ∈ done →
    ∃ s, rs_states st !! k = Some s ∧ finished s ∧
         (k ∈ rs_failed_cells st ↔ status s ≠ SUCCESS) ∧
         (status s = BLOCKED →
          ∃ b, blocked_by s = Some b ∧ b ≠ "" ∧
               depends_on (build_dependency_graph (cells r)) k b ∧
               b ∈ rs_failed_cells st) ∧
         ("" ∉ rs_failed_cells st →
          (∃ b, depends_on (build_dependency_graph (cells r)) k b ∧
                b ∈ rs_failed_cells st) →
          status s = BLOCKED);
  ri_log : ∃ l, rs_dispatched st = dispatched r ++ l ∧ sublist l done ∧
    (∀ k s cell, k ∈ done → rs_states st !! k = Some s →
       find_cell_by_id (cells r) k = Some cell →
       (k ∈ l ↔ status s ≠ BLOCKED ∧ handed_over sql_executor cell = true)) ∧
    (l = [] → rs_namespace st = namespace r);
}.

(** what the fields of a state say together: no state is left running; an
    idle state is cleared; a successful state carries no error; a blocked
    state names its blocker, in [blocked_by] and in its message *)
Definition state_consistent (s : CellState) : Prop :=
  status s ≠ RUNNING ∧
  (status s = IDLE →
   output s = None ∧ stdout s = "" ∧ error s = None ∧ error_traceback s = None ∧
   blocked_by s = None) ∧
  (status s = SUCCESS →
   error s = None ∧ error_traceback s = None ∧ blocked_by s = None) ∧
  (status s = BLOCKED →
   ∃ b, b ≠ "" ∧ blocked_by s = Some b ∧
        error s = Some ("Blocked by failed cell: " +:+ b)).

(** *** Deciding the conditions on a cell *)

(** whether a value can stand in a marker can be decided *)
#[global] Instance field_ok_dec (s : string) : Decision (field_ok s).
Proof.
  refine (cast_if (decide (stripped (chars s) ∧
                           Forall (fun x => field_char x) (chars s))));
    unfold field_ok; rewrite Forall_forall in *; done.
Defined.

#[global] Instance cell_fields_ok_dec (c : Cell) : Decision (cell_fields_ok c).
Proof.
  refine (cast_if (decide (field_ok (id c) ∧ field_ok (cell_type c) ∧
                           Forall field_ok (option_list (as_var c)) ∧
                           stripped (chars (code c)))));
    unfold cell_fields_ok; destruct (as_var c); simpl in *;
    rewrite ?Forall_singleton in *; intuition (simplify_eq; eauto).
Defined.

(** ** Sample runtimes for the worked examples *)

Module Sample.

(** [x = <constant>] as [ast.parse] returns it *)
Definition assign_const (x : string) : ast :=
  Node [Node [Name x Store; Node []]].

(** [x = y] *)
Definition assign_name (x y : string) : ast :=
  Node [Node [Name x Store; Name y Load]].

(** [ast.parse] on the sources of the examples *)
Definition parse : AstParser := fun code =>
  if decide (code = "counter = 0") then Some (assign_const "counter")
  else if decide (code = "counter += 1") then
    Some (Node [AugAssign (Name "counter" Store) (Node [])])
  else if decide (code = "x = 1") then Some (assign_const "x")
  else if decide (code = "y = 2") then Some (assign_const "y")
  else if decide (code = "z = x + y") then
    Some (Node [Node [Name "z" Store; Node [Name "x" Load; Node []; Name "y" Load]]])
  else if decide (code = "x = y") then Some (assign_name "x" "y")
  else if decide (code = "y = x") then Some (assign_name "y" "x")
  else None.

Definition name_error (n : string) : option (string * string) :=
  Some ("name '" +:+ n +:+ "' is not defined", "Traceback (most recent call last)").

(** [exec] on the sources of the examples, over natural numbers; any
    other source runs to its end and binds nothing *)
Definition exec (code : string) (ns : gmap string nat) : exec_outcome nat :=
  if decide (code = "counter = 0") then mkOutcome (<["counter" := 0]> ns) "" None
  else if decide (code = "counter += 1") then
    match ns !! "counter" with
    | Some c => mkOutcome (<["counter" := S c]> ns) "" None
    | None => mkOutcome ns "" (name_error "counter")
    end
  else if decide (code = "x = 1") then mkOutcome (<["x" := 1]> ns) "" None
  else if decide (code = "y = 2") then mkOutcome (<["y" := 2]> ns) "" None
  else if decide (code = "z = x + y") then
    match ns !! "x", ns !! "y" with
    | Some x, Some y => mkOutcome (<["z" := x + y]> ns) "" None
    | None, _ => mkOutcome ns "" (name_error "x")
    | _, None => mkOutcome ns "" (name_error "y")
    end
  else if decide (code = "x = y") then
    match ns !! "y" with
    | Some y => mkOutcome (<["x" := y]> ns) "" None
    | None => mkOutcome ns "" (name_error "y")
    end
  else if decide (code = "y = x") then
    match ns !! "x" with
    | Some x => mkOutcome (<["y" := x]> ns) "" None
    | None => mkOutcome ns "" (name_error "x")
    end
  else if decide (code = "_result = 1; raise ValueError('late')") then
    mkOutcome (<["_result" := 1]> ns) "" (Some ("late", "Traceback (most recent call last)"))
  else mkOutcome ns "" None.

Definition interp : Interp := {|
  value := nat;
  py_exec := exec;
  render_result := fun v => Rendered (pretty v) "text";
  builtins_module := 0;
|}.

Definition chain_graph : dict (gset string) :=
  [("c1", ∅); ("c2", {["c1"]}); ("c3", {["c2"]})].

Definition cs_counter : list Cell :=
  [mkCell "c1" "counter = 0" "python" None; mkCell "c2" "counter += 1" "python" None].

Definition cs_sum : list Cell :=
  [mkCell "c1" "x = 1" "python" None; mkCell "c2" "y = 2" "python" None;
   mkCell "c3" "z = x + y" "python" None].

Definition cs_cycle : list Cell :=
  [mkCell "c1" "x = y" "python" None; mkCell "c2" "y = x" "python" None].

Definition cs_sql : list Cell :=
  [mkCell "c1" "SELECT 1" "sql" (Some "x"); mkCell "c2" "y = x" "python" None].

Definition ids : IdSource := fun _ => "00000000".

(** a source line that [strip] turns into a marker *)
Definition nb_indented_marker : string :=
  "# %% [id: a]" +:+ String "010" "  # %% [id: b]".

(** a marker with an empty output name *)
Definition nb_empty_as : string :=
  "# %% [id: a, as:]" +:+ String "010" "x".

(** the notebook of [test_serialize_roundtrip] *)
Definition nb_two_cells : string :=
  "# %% [id: cell1]" +:+ String "010" ("x = 10" +:+ String "010" (String "010"
    ("# %% [id: cell2, type: sql, as: df]" +:+ String "010" "SELECT * FROM users"))).

End Sample.

(** a notebook in three steps *)

Module Pipeline.

(** [c1] is a query bound to [y]; [c2: x = y] reads it; [c3: z = x + y]
    reads both *)
Definition cs : list Cell :=
  [mkCell "c1" "SELECT 1" "sql" (Some "y"); mkCell "c2" "x = y" "python" None;
   mkCell "c3" "z = x + y" "python" None].

End Pipeline.

(** a runtime with a value that does not render *)

Module Unprintable.

(** [None] is an object whose [__repr__] raises, and so its [str] *)
Definition exec (code : string) (ns : gmap string (option nat))
    : exec_outcome (option nat) :=
  if decide (code = "_result = Bad()") then mkOutcome (<["_result" := None]> ns) "" None
  else if decide (code = "_result = 7") then mkOutcome (<["_result" := Some 7]> ns) "" None
  else mkOutcome ns "" None.

Definition interp : Interp := {|
  value := option nat;
  py_exec := exec;
  render_result := fun v =>
    match v with
    | Some n => Rendered (pretty n) "text"
    | None => RenderRaised "no repr" "Traceback (most recent call last)"
    end;
  builtins_module := Some 0;
|}.

End Unprintable.

(** a notebook with a cycle through a cell whose marker gives it the empty
    identifier *)

Module EmptyId.

(** [ast.parse] on the sources of its cells *)
Definition parse : AstParser := fun code =>
  if decide (code = "x = z") then Some (Sample.assign_name "x" "z")
  else if decide (code = "z = y") then Some (Sample.assign_name "z" "y")
  else if decide (code = "y = x") then Some (Sample.assign_name "y" "x")
  else None.

Definition nb : string :=
  "# %% [id: a]" +:+ String "010" ("x = z" +:+ String "010"
    ("# %% [id:]" +:+ String "010" ("z = y" +:+ String "010"
       ("# %% [id: b]" +:+ String "010" "y = x")))).

Definition cs : list Cell :=
  [mkCell "a" "x = z" "python" None; mkCell "" "z = y" "python" None;
   mkCell "b" "y = x" "python" None].

(** [a] reads what the cell without identifier writes, which reads what
    [b] writes, which reads what [a] writes *)
Definition graph : dict (gset string) :=
  [("a", {[""]}); ("", {["b"]}); ("b", {["a"]})].

End EmptyId.

(** * Facts *)

(** ** Analyzer *)

Section analyzer_facts.
Context `{AstParser}.

Lemma common_builtins_spec (x : string) :
  x ∈ common_builtins ↔ In x exclusion_set_spec.
Proof.
  unfold common_builtins, exclusion_set_spec.
  rewrite elem_of_list_to_set. apply list_elem_of_In.
Qed.

Lemma analyze_python_code_collected (code : string) :
  analyze_python_code code =
    ((v_reads (collected code) ∖ common_builtins ∖ v_writes (collected code))
       ∪ v_required_reads (collected code),
     v_writes (collected code)).
Proof.
  unfold analyze_python_code, collected.
  destruct (ast_parse code); [done|].
  simpl. f_equal. all: set_solver.
Qed.

(** C7. For every code cell the read set the analyzer returns is
    (collected reads − the enumerated built-in exclusion set − collected
    writes) ∪ required reads. *)
Theorem analyze_cell_reads_formula (cell : Cell) :
  cell_type cell ≠ "sql" →
  ∀ x, x ∈ reads (analyze_cell cell) ↔ final_reads_spec (collected (code cell)) x.
Proof.
  intros Hty x. unfold analyze_cell.
  destruct (decide (cell_type cell = "sql")); [done|].
  rewrite analyze_python_code_collected. simpl.
  unfold final_reads_spec. rewrite <- common_builtins_spec.
  rewrite elem_of_union, !elem_of_difference.
  generalize (x ∈ common_builtins). intros P. tauto.
Qed.

(** C5, as the code has it. For every SQL cell the analyzer returns no
    reads; its writes are the configured output name alone, or, when none is
    configured (absent or empty), the one name [_sql_<id>]. *)
Theorem analyze_cell_sql (cell : Cell) :
  cell_type cell = "sql" →
  reads (analyze_cell cell) = ∅ ∧
  (Py.truthy_opt (as_var cell) = false →
   writes (analyze_cell cell) = {["_sql_" +:+ id cell]}) ∧
  (∀ v, as_var cell = Some v → Py.truthy v = true →
   writes (analyze_cell cell) = {[v]}).
Proof.
  intros Hty. unfold analyze_cell. rewrite decide_True by done.
  split; [done|]. simpl. split.
  - destruct (as_var cell) as [v|]; simpl; [|done]. by intros ->.
  - intros v -> Hv. by rewrite Hv.
Qed.

End analyzer_facts.

Lemma analyze_cell_reads_formula_witness :
  "python" ≠ "sql" ∧
  ∀ x, x ∈ reads (@analyze_cell Sample.parse (mkCell "c2" "counter += 1" "python" None))
       ↔ final_reads_spec (@collected Sample.parse "counter += 1") x.
Proof.
  split; [done|].
  apply (@analyze_cell_reads_formula Sample.parse (mkCell "c2" "counter += 1" "python" None)).
  done.
Defined.

Lemma analyze_cell_sql_witness :
  reads (@analyze_cell Sample.parse (mkCell "q1" "SELECT 1" "sql" None)) = ∅ ∧
  (Py.truthy_opt None = false →
   writes (@analyze_cell Sample.parse (mkCell "q1" "SELECT 1" "sql" None))
     = {["_sql_" +:+ "q1"]}) ∧
  (∀ v, None = Some v → Py.truthy v = true →
   writes (@analyze_cell Sample.parse (mkCell "q1" "SELECT 1" "sql" None)) = {[v]}).
Proof.
  apply (@analyze_cell_sql Sample.parse (mkCell "q1" "SELECT 1" "sql" None)).
  reflexivity.
Defined.

(** C5 as stated fails: with no output name the write set of the SQL cell
    [sql1] is not [{_query_sql1}]. *)
Lemma analyze_cell_sql_not_query :
  writes (@analyze_cell Sample.parse (mkCell "sql1" "SELECT 1" "sql" None))
    ≠ {["_query_sql1"]}.
Proof.
  intros Heq.
  assert (bool_decide ("_query_sql1" ∈ ({["_query_sql1"]} : gset string)) = true) as Hin
    by (vm_compute; reflexivity).
  rewrite <- Heq in Hin. vm_compute in Hin. discriminate.
Qed.

(** ** Executor *)

Section executor_facts.
Context `{Interp}.

(** C10. When the code of a code cell binds [_result] and then raises,
    [execute_cell] reports failure and the namespace it leaves still
    binds [_result] to that value: the namespace handed to the next cell. *)
Theorem execute_cell_keeps_result_on_error
    (cell : Cell) (ns : gmap string value) (v : value) (msg tb : string) :
  cell_type cell ≠ "sql" →
  Py.truthy (Py.strip (code cell)) = true →
  raised (py_exec (Py.strip (code cell)) ns) = Some (msg, tb) →
  ns_after (py_exec (Py.strip (code cell)) ns) !! "_result" = Some v →
  success (execute_cell cell ns).1 = false ∧
  er_error (execute_cell cell ns).1 = Some msg ∧
  (execute_cell cell ns).2 = ns_after (py_exec (Py.strip (code cell)) ns) ∧
  (execute_cell cell ns).2 !! "_result" = Some v.
Proof.
  intros Hty Hcode Hraise Hres. unfold execute_cell, _execute_python_cell.
  rewrite decide_False by done. rewrite Hcode, Hraise. simpl. done.
Qed.

(** On the success path the sentinel is removed. *)
Lemma execute_cell_pops_result_on_success (cell : Cell) (ns : gmap string value) :
  cell_type cell ≠ "sql" →
  raised (py_exec (Py.strip (code cell)) ns) = None →
  Py.truthy (Py.strip (code cell)) = true →
  (execute_cell cell ns).2 !! "_result" = None.
Proof.
  intros Hty Hraise Hcode. unfold execute_cell, _execute_python_cell.
  rewrite decide_False by done. rewrite Hcode, Hraise. simpl.
  destruct (ns_after _ !! "_result") as [raw|] eqn:E.
  - destruct (render_result raw); simpl; apply lookup_delete_eq.
  - done.
Qed.

End executor_facts.

Lemma execute_cell_keeps_result_on_error_witness :
  let cell := mkCell "c1" "_result = 1; raise ValueError('late')" "python" None in
  success (@execute_cell Sample.interp cell ∅).1 = false ∧
  (@execute_cell Sample.interp cell ∅).2 !! "_result" = Some 1.
Proof.
  intros cell.
  destruct (@execute_cell_keeps_result_on_error Sample.interp cell ∅ 1 "late"
              "Traceback (most recent call last)")
    as (Hs & _ & _ & Hr).
  - done.
  - vm_compute. reflexivity.
  - vm_compute. reflexivity.
  - vm_compute. reflexivity.
  - split; [exact Hs | exact Hr].
Defined.

(** ** Dictionaries *)

Section dict_facts.
Context {V : Type}.
Implicit Types (d : dict V) (k : string) (v : V).

Lemma dict_get_None d k : dict_get d k = None ↔ k ∉ d.*1.
Proof.
  induction d as [|[k' v'] d IH]; simpl.
  - split; [intros _; apply not_elem_of_nil | done].
  - rewrite not_elem_of_cons. destruct (decide (k' = k)) as [->|Hne].
    + split; [done | intros [? _]; done].
    + rewrite IH. split; [intros; split; [congruence | done] | intros [_ ?]; done].
Qed.

Lemma dict_get_is_Some d k : is_Some (dict_get d k) ↔ k ∈ d.*1.
Proof.
  destruct (dict_get d k) eqn:E.
  - split; [intros _ | by eauto].
    destruct (decide (k ∈ d.*1)) as [|Hn]; [done|].
    apply dict_get_None in Hn. congruence.
  - split; [by intros [? ?] | intros Hin]. by apply dict_get_None in E.
Qed.

Lemma dict_get_Some_elem d k v : dict_get d k = Some v → (k, v) ∈ d.
Proof.
  induction d as [|[k' v'] d IH]; simpl; [done|].
  destruct (decide (k' = k)) as [->|Hne].
  - intros [= ->]. apply list_elem_of_here.
  - intros. apply list_elem_of_further. auto.
Qed.

Lemma dict_get_elem d k v : is_dict d → (k, v) ∈ d → dict_get d k = Some v.
Proof.
  unfold is_dict. induction d as [|[k' v'] d IH]; simpl.
  - intros _ Hin. by apply elem_of_nil in Hin.
  - rewrite NoDup_cons. intros [Hk Hnd] Hin.
    apply elem_of_cons in Hin as [[= -> ->]|Hin].
    + by rewrite decide_True.
    + rewrite decide_False; [auto|].
      intros ->. apply Hk. apply list_elem_of_fmap. by exists (k, v).
Qed.
End dict_facts.

(** ** Cycle detection *)

Section detect_cycle_facts.
Variable g : dict (gset string).

Lemma depends_on_key a b : depends_on g a b → a ∈ g.*1.
Proof. intros (deps & Hg & _). apply dict_get_is_Some. eauto. Qed.

Lemma on_cycle_key x : on_cycle g x → x ∈ g.*1.
Proof.
  unfold on_cycle. intros Htc. inversion Htc; subst; eauto using depends_on_key.
Qed.

Lemma rtc_from_non_key x y : x ∉ g.*1 → rtc (depends_on g) x y → x = y.
Proof.
  intros Hx Hr. destruct Hr as [|x y z Hd _]; [done|].
  by apply depends_on_key in Hd.
Qed.

Lemma chain_reach par a rest nb :
  chain g par (a :: rest) → nb ∈ a :: rest → rtc (depends_on g) nb a.
Proof.
  revert a. induction rest as [|b rest IH]; intros a Hch Hin.
  - apply list_elem_of_singleton in Hin as ->. apply rtc_refl.
  - apply elem_of_cons in Hin as [->|Hin]; [apply rtc_refl|].
    destruct Hch as (_ & Hdep & Hch).
    eapply rtc_r; [apply IH; eauto | done].
Qed.

Lemma chain_insert_other par stk k v :
  k ∉ stk → chain g par stk → chain g (<[k := v]> par) stk.
Proof.
  induction stk as [|a rest IH]; [done|].
  rewrite not_elem_of_cons. intros [Hka Hk] (Hhd & Hdep & Htl).
  split; [by rewrite lookup_insert_ne|]. split; [done | auto].
Qed.

Lemma walk_parents_spec par nb rest :
  ∀ cur acc fuel,
    chain g par (cur :: rest) → length rest ≤ fuel →
    ∃ seg, walk_parents fuel par nb cur acc = Ok (acc ++ seg) ∧
           (∀ x, x ∈ seg → x ∈ rest) ∧
           (nb ∈ rest → ∀ x, x ∈ seg →
              rtc (depends_on g) nb x ∧ rtc (depends_on g) x cur).
Proof.
  induction rest as [|p rest IH]; intros cur acc fuel Hch Hlen.
  - destruct Hch as (Hp & _ & _). simpl in Hp. exists [].
    destruct fuel; simpl; rewrite Hp, app_nil_r;
      (split; [done|]); split; intros; exfalso; eapply not_elem_of_nil; eauto.
  - destruct Hch as (Hp & Hdep & Hch). simpl in Hp, Hlen.
    destruct fuel as [|fuel]; [lia|]. simpl. rewrite Hp.
    destruct (Py.truthy p && bool_decide (p ≠ nb)) eqn:Hgo.
    + destruct (IH p (acc ++ [p]) fuel Hch ltac:(lia)) as (seg & Hw & Hsub & Hcyc).
      exists (p :: seg). rewrite Hw, <- app_assoc. split; [done|]. split.
      * intros x [->|Hx]%elem_of_cons; [apply list_elem_of_here|].
        apply list_elem_of_further. auto.
      * intros Hnb x Hx.
        apply andb_true_iff in Hgo as [_ Hne%bool_decide_eq_true].
        apply elem_of_cons in Hnb as [->|Hnb]; [done|].
        apply elem_of_cons in Hx as [->|Hx].
        -- split; [|by apply rtc_once].
           eapply chain_reach; [done|]. by apply list_elem_of_further.
        -- destruct (Hcyc Hnb x Hx) as [H1 H2].
           split; [done|]. eapply rtc_r; done.
    + exists []. rewrite app_nil_r. split; [done|].
      split; intros; exfalso; eapply not_elem_of_nil; eauto.
Qed.

(** with no empty identifier on the stack the walk stops at the grey
    neighbour, and what it collected leads from the node up to it *)
Lemma walk_parents_exact par nb rest :
  ∀ cur acc fuel,
    chain g par (cur :: rest) → length rest ≤ fuel →
    nb ∈ rest → "" ∉ rest →
    ∃ seg, walk_parents fuel par nb cur acc = Ok (acc ++ seg) ∧
           linked g (cur :: seg) ∧
           depends_on g nb (default cur (last seg)).
Proof.
  induction rest as [|p rest IH]; intros cur acc fuel Hch Hlen Hnb Hne.
  - by apply elem_of_nil in Hnb.
  - destruct Hch as (Hp & Hdep & Hch). simpl in Hp, Hlen.
    destruct fuel as [|fuel]; [lia|]. simpl. rewrite Hp.
    apply not_elem_of_cons in Hne as [Hpe Hne].
    assert (Py.truthy p = true) as -> by (destruct p; done). simpl.
    destruct (decide (p = nb)) as [->|Hpn].
    + rewrite bool_decide_eq_false_2 by (intros ?; done).
      exists []. rewrite app_nil_r. simpl. done.
    + rewrite bool_decide_eq_true_2 by done.
      apply elem_of_cons in Hnb as [->|Hnb]; [done|].
      destruct (IH p (acc ++ [p]) fuel Hch ltac:(lia) Hnb Hne) as (seg & Hw & Hl & Hd).
      exists (p :: seg). rewrite Hw, <- app_assoc. split; [done|].
      split; [by split|].
      rewrite last_cons. by destruct (last seg).
Qed.

Lemma stack_length stk st : dfs_inv g stk st → length stk ≤ length g.
Proof.
  intros Hinv. rewrite <- (length_fmap fst g).
  apply submseteq_length, NoDup_submseteq; [apply Hinv|].
  intros x Hx. apply (inv_color_dom Hinv). apply (inv_gray Hinv) in Hx.
  rewrite Hx. eauto.
Qed.

Lemma black_reach stk st b w :
  dfs_inv g stk st → color st !! b = Some BLACK → rtc (depends_on g) b w →
  color st !! w = Some BLACK ∨ color st !! w = None.
Proof.
  intros Hinv Hb Hr. induction Hr as [|x y z Hd Hr IH]; [by left|].
  destruct (inv_black Hinv x Hb) as [Hcl _].
  destruct (Hcl y Hd) as [Hy|Hy]; [auto|].
  assert (y ∉ g.*1) as Hnk.
  { intros Hk. apply (inv_color_dom Hinv) in Hk. rewrite Hy in Hk. by destruct Hk. }
  apply rtc_from_non_key in Hr as <-; auto.
Qed.

(** a grey neighbour closes a cycle *)
Lemma back_edge_cycle stk st node nb fuel :
  dfs_inv g (node :: stk) st → depends_on g node nb →
  color st !! nb = Some GRAY → length g ≤ fuel →
  ∃ c, walk_parents fuel (parent st) nb node [nb; node] = Ok c ∧ witnesses_cycle g c.
Proof.
  intros Hinv Hdep Hgray Hfuel.
  pose proof (stack_length _ _ Hinv) as Hlen. simpl in Hlen.
  destruct (walk_parents_spec (parent st) nb stk node [nb; node] fuel)
    as (seg & Hw & Hsub & Hcyc); [apply Hinv | lia |].
  exists ([nb; node] ++ seg). split; [done|].
  apply (inv_gray Hinv) in Hgray as Hnb.
  assert (rtc (depends_on g) nb node) as Hreach
    by (eapply chain_reach; [apply Hinv | done]).
  assert (on_cycle g node) as Hcn by (eapply tc_rtc_r; [by apply tc_once | done]).
  assert (∀ x, x ∈ node :: stk → x ∈ g.*1) as Hkeys.
  { intros x Hx. apply (inv_color_dom Hinv). apply (inv_gray Hinv) in Hx.
    rewrite Hx. eauto. }
  assert (no_self_dependency g → nb ∈ stk) as Hnbs.
  { intros Hirr. apply elem_of_cons in Hnb as [->|]; [|done].
    destruct Hdep as (deps & Hg & Hin). by apply Hirr in Hg. }
  split; [done|]. split; [|split; [by exists node|split]].
  - intros x Hx. apply Hkeys.
    apply elem_of_app in Hx as [Hx|Hx].
    + apply elem_of_cons in Hx as [->|Hx]; [done|].
      apply list_elem_of_singleton in Hx as ->. apply list_elem_of_here.
    + apply list_elem_of_further. auto.
  - intros Hirr x Hx.
    apply elem_of_app in Hx as [Hx|Hx].
    + apply elem_of_cons in Hx as [->|Hx].
      * eapply tc_rtc_l; [done | by apply tc_once].
      * by apply list_elem_of_singleton in Hx as ->.
    + destruct (Hcyc (Hnbs Hirr) x Hx) as [H1 H2].
      eapply tc_rtc_l; [exact H2|]. eapply tc_rtc_r; [by apply tc_once | done].
  - intros Hirr Hempty.
    destruct (walk_parents_exact (parent st) nb stk node [nb; node] fuel)
      as (seg' & Hw' & Hl & Hd); [apply Hinv | lia | by apply Hnbs | |].
    { intros Hin. apply Hempty, Hkeys. by apply list_elem_of_further. }
    rewrite Hw in Hw'. injection Hw' as <-.
    split; [by split|]. exists nb, (default node (last seg)).
    split; [done|]. split; [|done].
    simpl. rewrite !last_cons. by destruct (last seg).
Qed.

Lemma insert_is_Some {A} (m : gmap string A) k k' (a : A) :
  is_Some (m !! k) → is_Some (<[k := a]> m !! k') ↔ is_Some (m !! k').
Proof.
  intros Hk. destruct (decide (k = k')) as [<-|Hne].
  - rewrite lookup_insert_eq. split; eauto.
  - by rewrite lookup_insert_ne.
Qed.

(** the frame of [node] turns it grey *)
Lemma dfs_inv_enter stk node st :
  dfs_entry g stk node st →
  dfs_inv g (node :: stk) (mkDfs (<[node := GRAY]> (color st)) (parent st)).
Proof.
  intros (st0 & Hinv & Hw & Hc & Hp & Hdep).
  assert (node ∉ stk) as Hns.
  { intros Hin. apply (inv_gray Hinv) in Hin. congruence. }
  split; simpl.
  - intros k. rewrite Hc, insert_is_Some by (rewrite Hw; eauto). apply Hinv.
  - intros k. rewrite elem_of_cons. destruct (decide (node = k)) as [<-|Hne].
    + rewrite lookup_insert_eq. split; [by left | done].
    + rewrite lookup_insert_ne, Hc, (inv_gray Hinv) by done.
      split; [by right | intros [?|?]; congruence].
  - apply NoDup_cons. split; [done | apply Hinv].
  - rewrite Hp. split; [by rewrite lookup_insert_eq|]. split; [by destruct stk|].
    apply chain_insert_other; [done | apply Hinv].
  - intros k. destruct (decide (node = k)) as [<-|Hne].
    + by rewrite lookup_insert_eq.
    + rewrite lookup_insert_ne, Hc, Hp, lookup_insert_ne by done. apply Hinv.
  - intros b. destruct (decide (node = b)) as [<-|Hne].
    + by rewrite lookup_insert_eq.
    + rewrite lookup_insert_ne, Hc by done. intros Hb.
      destruct (inv_black Hinv b Hb) as [Hcl Hnc]. split; [|done].
      intros v Hv. destruct (Hcl v Hv) as [Hv'|Hv'];
        (rewrite lookup_insert_ne; [by auto | intros <-; congruence]).
Qed.

(** the frame of [node] ends: every neighbour is black or no cell *)
Lemma dfs_inv_leave stk node st :
  dfs_inv g (node :: stk) st →
  (∀ v, depends_on g node v → color st !! v = Some BLACK ∨ color st !! v = None) →
  dfs_inv g stk (mkDfs (<[node := BLACK]> (color st)) (parent st)).
Proof.
  intros Hinv Hdeps.
  assert (color st !! node = Some GRAY) as Hg
    by (apply (inv_gray Hinv), list_elem_of_here).
  pose proof (inv_nodup Hinv) as [Hns Hnd]%NoDup_cons.
  assert (∀ v, color st !! v = Some BLACK ∨ color st !! v = None →
               <[node := BLACK]> (color st) !! v = Some BLACK ∨
               <[node := BLACK]> (color st) !! v = None) as Hkeep.
  { intros v Hv. rewrite lookup_insert_ne; [done|]. intros <-.
    destruct Hv; congruence. }
  split; simpl.
  - intros k. rewrite insert_is_Some by (rewrite Hg; eauto). apply Hinv.
  - intros k. destruct (decide (node = k)) as [<-|Hne].
    + rewrite lookup_insert_eq. split; [done | by intros ?].
    + rewrite lookup_insert_ne, (inv_gray Hinv), elem_of_cons by done.
      split; [intros [?|?]; [congruence | done] | by right].
  - done.
  - apply (inv_chain Hinv).
  - intros k. destruct (decide (node = k)) as [<-|Hne].
    + by rewrite lookup_insert_eq.
    + rewrite lookup_insert_ne by done. apply Hinv.
  - intros b. destruct (decide (node = b)) as [<-|Hne].
    + intros _. split; [intros v Hv; apply Hkeep; auto|].
      intros Hcyc.
      assert (∃ v, depends_on g node v ∧ rtc (depends_on g) v node) as (v & Hv & Hr).
      { unfold on_cycle in Hcyc. inversion Hcyc; subst.
        - eexists; split; [done | apply rtc_refl].
        - eexists; split; [done | by apply tc_rtc]. }
      destruct (Hdeps v Hv) as [Hb|Hn].
      * destruct (black_reach _ _ _ _ Hinv Hb Hr); congruence.
      * assert (v ∉ g.*1) as Hnk.
        { intros Hk. apply (inv_color_dom Hinv) in Hk. rewrite Hn in Hk.
          by destruct Hk. }
        apply rtc_from_non_key in Hr as ->; [congruence | done].
    + rewrite lookup_insert_ne by done. intros Hb.
      destruct (inv_black Hinv b Hb) as [Hcl Hnc]. split; [|done].
      intros v Hv. apply Hkeep; auto.
Qed.

Lemma dfs_neighbors_spec rec walk_fuel node stk :
  length g ≤ walk_fuel →
  (∀ n st, dfs_entry g (node :: stk) n st → dfs_post g (node :: stk) n st (rec n st)) →
  ∀ neighbors st,
    dfs_inv g (node :: stk) st →
    (∀ v, v ∈ neighbors → depends_on g node v) →
    (∀ v, depends_on g node v →
       v ∈ neighbors ∨ color st !! v = Some BLACK ∨ color st !! v = None) →
    dfs_post g stk node st (dfs_neighbors rec walk_fuel node neighbors st).
Proof.
  intros Hwf Hrec neighbors.
  induction neighbors as [|nb rest IH]; intros st Hinv Hsub Hall.
  - simpl. split; [|split].
    + apply dfs_inv_leave; [done|]. intros v Hv.
      destruct (Hall v Hv) as [Hin|?]; [|done]. by apply elem_of_nil in Hin.
    + apply lookup_insert_eq.
    + intros k Hk _. by apply lookup_insert_ne.
  - assert (∀ st', (∀ k, color st !! k = Some BLACK ∨ color st !! k = None →
                         color st' !! k = color st !! k) →
                   (color st' !! nb = Some BLACK ∨ color st' !! nb = None) →
                   ∀ v, depends_on g node v →
                     v ∈ rest ∨ color st' !! v = Some BLACK ∨ color st' !! v = None)
      as Hnext.
    { intros st' Hsame Hnb v Hv. destruct (Hall v Hv) as [Hin|Hc].
      - apply elem_of_cons in Hin as [->|Hin]; [by right | by left].
      - right. by rewrite Hsame. }
    assert (∀ v, v ∈ rest → depends_on g node v) as Hsub'
      by (intros v Hv; apply Hsub; by apply list_elem_of_further).
    simpl. destruct (color st !! nb) as [[]|] eqn:Hnb.
    + (* white: recurse *)
      set (st1 := mkDfs (color st) (<[nb := Some node]> (parent st))).
      assert (dfs_entry g (node :: stk) nb st1) as Hentry.
      { exists st. split; [done|]. split; [done|]. split; [done|]. split; [done|].
        apply Hsub, list_elem_of_here. }
      specialize (Hrec nb st1 Hentry). unfold dfs_post in Hrec.
      destruct (rec nb st1) as [[[c|] st2]|e]; simpl; [| |done].
      * destruct Hrec as (Hne & ?). destruct c as [|x c]; [done|]. simpl.
        by split.
      * destruct Hrec as (Hinv2 & Hb2 & Hsame2). simpl in Hsame2.
        assert (∀ k, color st !! k ≠ Some WHITE → color st2 !! k = color st !! k)
          as Hsame.
        { intros k Hk. apply Hsame2; [|done]. intros ->. congruence. }
        assert (∀ v, depends_on g node v →
                  v ∈ rest ∨ color st2 !! v = Some BLACK ∨ color st2 !! v = None)
          as Hall2.
        { apply Hnext; [|by left]. intros k Hk. apply Hsame.
          destruct Hk; congruence. }
        specialize (IH st2 Hinv2 Hsub' Hall2).
        unfold dfs_post in IH |- *.
        destruct (dfs_neighbors rec walk_fuel node rest st2) as [[[c|] st3]|e];
          [exact IH | | exact IH].
        destruct IH as (Hinv3 & Hb3 & Hsame3).
        split; [done|]. split; [done|].
        intros k Hkn Hkw. rewrite Hsame3; [by apply Hsame | done |].
        by rewrite Hsame.
    + (* grey: a cycle *)
      destruct (back_edge_cycle stk st node nb walk_fuel Hinv) as (c & Hw & Hc);
        [apply Hsub, list_elem_of_here | done | done |].
      rewrite Hw. simpl. done.
    + apply IH; [done | done |]. apply Hnext; [done | by left].
    + apply IH; [done | done |]. apply Hnext; [done | by right].
Qed.

Lemma dfs_spec fuel :
  ∀ stk node st,
    dfs_entry g stk node st → length g < fuel + length stk →
    dfs_post g stk node st (dfs fuel g node st).
Proof.
  induction fuel as [|fuel IH]; intros stk node st Hentry Hfuel.
  - destruct Hentry as (st0 & Hinv & _). apply stack_length in Hinv. simpl in Hfuel. lia.
  - simpl. pose proof (dfs_inv_enter _ _ _ Hentry) as Hinv.
    set (st1 := mkDfs (<[node := GRAY]> (color st)) (parent st)) in *.
    assert (dfs_post g stk node st1
              (dfs_neighbors (dfs fuel g) (length g) node
                 (elements (default ∅ (dict_get g node))) st1)) as Hpost.
    { apply dfs_neighbors_spec; [done | | done | |].
      - intros n st' Hn. apply IH; [done|]. simpl. lia.
      - intros v Hv. apply elem_of_elements in Hv.
        destruct (dict_get g node) as [deps|] eqn:Hg; simpl in Hv.
        + by exists deps.
        + by apply not_elem_of_empty in Hv.
      - intros v (deps & Hg & Hv). left. rewrite Hg. simpl.
        by apply elem_of_elements. }
    unfold dfs_post in Hpost |- *.
    destruct (dfs_neighbors _ _ _ _ _) as [[[c|] st2]|e]; [done | | done].
    destruct Hpost as (Hinv2 & Hb & Hsame). split; [done|]. split; [done|].
    intros k Hk Hw. rewrite Hsame; simpl; rewrite ?lookup_insert_ne; done.
Qed.

#[local] Arguments dfs : simpl never.

Lemma detect_cycle_from_spec nodes :
  ∀ st,
    dfs_inv g [] st →
    (∀ n, n ∈ nodes → n ∈ g.*1) →
    (∀ k, k ∈ g.*1 → k ∈ nodes ∨ color st !! k = Some BLACK) →
    match detect_cycle_from g nodes st with
    | Raise _ => False
    | Ok None => ¬ has_cycle g
    | Ok (Some c) => witnesses_cycle g c
    end.
Proof.
  induction nodes as [|node rest IH]; intros st Hinv Hsub Hall.
  - simpl. intros (x & Hx).
    destruct (Hall x (on_cycle_key _ Hx)) as [Hin|Hb]; [by apply elem_of_nil in Hin|].
    by apply (inv_black Hinv) in Hb as [_ ?].
  - assert (∀ n, n ∈ rest → n ∈ g.*1) as Hsub'
      by (intros n Hn; apply Hsub; by apply list_elem_of_further).
    assert (∀ st', (∀ k, color st !! k = Some BLACK → color st' !! k = Some BLACK) →
                   color st' !! node = Some BLACK →
                   ∀ k, k ∈ g.*1 → k ∈ rest ∨ color st' !! k = Some BLACK) as Hnext.
    { intros st' Hsame Hn k Hk. destruct (Hall k Hk) as [Hin|Hb]; [|by auto].
      apply elem_of_cons in Hin as [->|Hin]; auto. }
    simpl. destruct (color st !! node) as [[]|] eqn:Hc.
    + assert (dfs_entry g [] node st) as Hentry.
      { exists st. split; [done|]. split; [done|]. split; [done|]. split; [|done].
        simpl. symmetry. apply insert_id. by apply (inv_white Hinv). }
      pose proof (dfs_spec (S (length g)) [] node st Hentry ltac:(simpl; lia)) as Hpost.
      unfold dfs_post in Hpost.
      destruct (dfs (S (length g)) g node st) as [[[c|] st2]|e]; simpl; [| |done].
      * destruct Hpost as (Hne & ?).
        destruct c as [|x c]; [done|]. by split.
      * destruct Hpost as (Hinv2 & Hb & Hsame).
        apply IH; [done | done |]. apply Hnext; [|done].
        intros k Hk. rewrite Hsame; [done | intros ->; congruence | congruence].
    + apply (inv_gray Hinv) in Hc. by apply elem_of_nil in Hc.
    + apply IH; [done | done |]. by apply Hnext.
    + assert (is_Some (color st !! node)) as [? ?]; [|congruence].
      apply (inv_color_dom Hinv), Hsub, list_elem_of_here.
Qed.

Lemma fold_insert_keys_lookup {A} (c : A) (l : dict (gset string)) (m : gmap string A) k :
  fold_left (fun m kv => <[kv.1 := c]> m) l m !! k =
    if decide (k ∈ l.*1) then Some c else m !! k.
Proof.
  revert m. induction l as [|[k' v] l IH]; intros m; simpl.
  - done.
  - rewrite IH. destruct (decide (k ∈ l.*1)) as [Hin|Hnin].
    + rewrite decide_True; [done | by apply list_elem_of_further].
    + destruct (decide (k' = k)) as [->|Hne].
      * rewrite lookup_insert_eq, decide_True; [done | apply list_elem_of_here].
      * rewrite lookup_insert_ne, decide_False; [done | | done].
        rewrite not_elem_of_cons. split; [congruence | done].
Qed.

(** [detect_cycle] ends without an error; it returns nothing exactly when
    the graph has no cycle, and otherwise a list that witnesses one. *)
Lemma detect_cycle_spec :
  match detect_cycle g with
  | Raise _ => False
  | Ok None => ¬ has_cycle g
  | Ok (Some c) => witnesses_cycle g c
  end.
Proof.
  unfold detect_cycle. apply detect_cycle_from_spec; [|done|].
  - split; simpl.
    + intros k. rewrite fold_insert_keys_lookup. case_decide; [by eauto|].
      rewrite lookup_empty. split; [by intros [? ?] | done].
    + intros k. rewrite fold_insert_keys_lookup. case_decide.
      * split; [done | by intros ?%elem_of_nil].
      * rewrite lookup_empty. split; [done | by intros ?%elem_of_nil].
    + apply NoDup_nil_2.
    + done.
    + intros k. rewrite !fold_insert_keys_lookup. case_decide; [done|].
      by rewrite lookup_empty.
    + intros b. rewrite fold_insert_keys_lookup. case_decide; [done|].
      by rewrite lookup_empty.
  - auto.
Qed.

Lemma detect_cycle_complete :
  has_cycle g → ∃ c, detect_cycle g = Ok (Some c) ∧ witnesses_cycle g c.
Proof.
  intros Hcyc. pose proof detect_cycle_spec as Hspec.
  destruct (detect_cycle g) as [[c|]|]; [by eauto | done | done].
Qed.

Lemma detect_cycle_sound : ¬ has_cycle g → detect_cycle g = Ok None.
Proof.
  intros Hcyc. pose proof detect_cycle_spec as Hspec.
  destruct (detect_cycle g) as [[c|]|]; [|done|done].
  destruct Hspec as (_ & _ & ? & _). done.
Qed.
End detect_cycle_facts.

(** ** The graph builder *)

Section dict_set_facts.
Context {V : Type}.
Implicit Types (d : dict V) (k : string) (v : V).

Lemma dict_get_set d k v k' :
  dict_get (dict_set k v d) k' = if decide (k = k') then Some v else dict_get d k'.
Proof.
  induction d as [|[k0 v0] d IH]; simpl.
  - destruct (decide (k = k')); done.
  - destruct (decide (k0 = k)) as [->|Hne]; simpl.
    + destruct (decide (k = k')); done.
    + destruct (decide (k0 = k')) as [->|Hne'].
      * by rewrite decide_False by congruence.
      * done.
Qed.

Lemma dict_set_keys d k v k' : k' ∈ (dict_set k v d).*1 ↔ k' = k ∨ k' ∈ d.*1.
Proof.
  rewrite <- !dict_get_is_Some, dict_get_set.
  destruct (decide (k = k')) as [->|Hne].
  - split; [by left | by eauto].
  - split; [by right | intros [->|?]; done].
Qed.

Lemma dict_set_is_dict d k v : is_dict d → is_dict (dict_set k v d).
Proof.
  unfold is_dict. induction d as [|[k0 v0] d IH]; simpl.
  - intros _. apply NoDup_singleton.
  - rewrite NoDup_cons. intros [Hk Hnd].
    destruct (decide (k0 = k)) as [->|Hne]; simpl.
    + by apply NoDup_cons.
    + apply NoDup_cons. split; [|auto].
      rewrite dict_set_keys. intros [?|?]; done.
Qed.
End dict_set_facts.

Section build_facts.
Context {parser : AstParser}.

Lemma dependencies_of_not_self v2c a cid : cid ∉ dependencies_of v2c a cid.
Proof.
  unfold dependencies_of.
  assert (∀ l (acc : gset string), cid ∉ acc →
    cid ∉ fold_left (fun deps var =>
      match v2c !! var with
      | Some upstream_cell =>
          if decide (upstream_cell ≠ cid) then {[upstream_cell]} ∪ deps else deps
      | None => deps
      end) l acc) as Hfold.
  { induction l as [|x l IH]; intros acc Hacc; simpl; [done|].
    apply IH. destruct (v2c !! x) as [u|]; [|done].
    destruct (decide (u ≠ cid)); [|done].
    rewrite elem_of_union, elem_of_singleton. intros [?|?]; done. }
  apply Hfold, not_elem_of_empty.
Qed.

Lemma build_graph_fold_spec (F : Cell → gset string) (cells : list Cell) :
  ∀ acc,
    (is_dict acc →
     is_dict (fold_left (fun graph cell => dict_set (id cell) (F cell) graph) cells acc)) ∧
    (∀ k, k ∈ (fold_left (fun graph cell => dict_set (id cell) (F cell) graph)
                 cells acc).*1 ↔ k ∈ acc.*1 ∨ k ∈ id <$> cells) ∧
    (∀ k deps,
       dict_get (fold_left (fun graph cell => dict_set (id cell) (F cell) graph)
                   cells acc) k = Some deps →
       (∃ c, id c = k ∧ deps = F c) ∨ dict_get acc k = Some deps).
Proof.
  induction cells as [|c cells IH]; intros acc; simpl.
  - split; [done|]. split; [|by auto].
    intros k. split; [by left | intros [?|?%elem_of_nil]; done].
  - destruct (IH (dict_set (id c) (F c) acc)) as (Hd & Hk & Hg).
    split; [|split].
    + intros Hacc. by apply Hd, dict_set_is_dict.
    + intros k. rewrite Hk, dict_set_keys, elem_of_cons. tauto.
    + intros k deps Hget. destruct (Hg k deps Hget) as [?|Hset]; [by left|].
      rewrite dict_get_set in Hset. case_decide; [|by right].
      left. exists c. split; [done | congruence].
Qed.

Lemma build_dependency_graph_keys (cells : list Cell) k :
  k ∈ (build_dependency_graph cells).*1 ↔ k ∈ id <$> cells.
Proof.
  unfold build_dependency_graph.
  edestruct (build_graph_fold_spec) as (_ & Hk & _).
  rewrite Hk. split; [intros [?%elem_of_nil|?]; done | by right].
Qed.

Lemma build_dependency_graph_is_dict (cells : list Cell) :
  is_dict (build_dependency_graph cells).
Proof.
  unfold build_dependency_graph.
  edestruct (build_graph_fold_spec) as (Hd & _ & _).
  apply Hd. apply NoDup_nil_2.
Qed.

(** A cell's upstream set never holds the cell itself. *)
Lemma build_dependency_graph_no_self (cells : list Cell) :
  no_self_dependency (build_dependency_graph cells).
Proof.
  unfold build_dependency_graph.
  edestruct (build_graph_fold_spec) as (_ & _ & Hg).
  intros k deps Hget. destruct (Hg k deps Hget) as [(c & <- & ->)|?]; [|done].
  apply dependencies_of_not_self.
Qed.

Lemma find_cell_by_id_None (cells : list Cell) cid :
  cid ∉ id <$> cells → find_cell_by_id cells cid = None.
Proof.
  induction cells as [|c cells IH]; simpl; [done|].
  rewrite not_elem_of_cons. intros [Hne Hnin].
  rewrite decide_False by done. auto.
Qed.
End build_facts.

(** ** Downstream closure *)

Section downstream_facts.
Variable g : dict (gset string).

Lemma invert_inner_spec (cid : string) (l : list string) :
  ∀ (m : gmap string (gset string)),
    let m' := fold_left (fun m dep =>
                match m !! dep with
                | Some s => <[dep := {[cid]} ∪ s]> m
                | None => m
                end) l m in
    (∀ k, is_Some (m' !! k) ↔ is_Some (m !! k)) ∧
    (∀ a b, b ∈ default ∅ (m' !! a) → b ∈ default ∅ (m !! a) ∨ (b = cid ∧ a ∈ l)).
Proof.
  induction l as [|dep l IH]; intros m; simpl.
  - split; [done | by auto].
  - destruct (m !! dep) as [s|] eqn:Hdep.
    + destruct (IH (<[dep := {[cid]} ∪ s]> m)) as [Hdom Hmem]. split.
      * intros k. rewrite Hdom. destruct (decide (dep = k)) as [<-|Hne].
        -- rewrite lookup_insert_eq, Hdep. split; eauto.
        -- by rewrite lookup_insert_ne.
      * intros a b Hb. destruct (Hmem a b Hb) as [Hin|[-> Hin]].
        -- destruct (decide (dep = a)) as [<-|Hne].
           ++ rewrite lookup_insert_eq in Hin. simpl in Hin. rewrite Hdep. simpl.
              apply elem_of_union in Hin as [->%elem_of_singleton|?]; [|by left].
              right. split; [done | apply list_elem_of_here].
           ++ rewrite lookup_insert_ne in Hin by done. by left.
        -- right. split; [done | by apply list_elem_of_further].
    + destruct (IH m) as [Hdom Hmem]. split; [done|].
      intros a b Hb. destruct (Hmem a b Hb) as [?|[-> ?]]; [by left|].
      right. split; [done | by apply list_elem_of_further].
Qed.

Lemma invert_outer_spec (entries : dict (gset string)) :
  ∀ (m : gmap string (gset string)),
    let m' := fold_left (fun m kv =>
                fold_left (fun m dep =>
                  match m !! dep with
                  | Some s => <[dep := {[kv.1]} ∪ s]> m
                  | None => m
                  end) (elements kv.2) m) entries m in
    (∀ k, is_Some (m' !! k) ↔ is_Some (m !! k)) ∧
    (∀ a b, b ∈ default ∅ (m' !! a) →
       b ∈ default ∅ (m !! a) ∨ ∃ deps, (b, deps) ∈ entries ∧ a ∈ deps).
Proof.
  induction entries as [|[cid deps] entries IH]; intros m; simpl.
  - split; [done | by auto].
  - destruct (invert_inner_spec cid (elements deps) m) as [Hdom1 Hmem1].
    simpl in Hdom1, Hmem1.
    match goal with |- context [fold_left _ entries ?m1] =>
      destruct (IH m1) as [Hdom2 Hmem2] end.
    simpl in Hdom2, Hmem2. split.
    + intros k. by rewrite Hdom2, Hdom1.
    + intros a b Hb. destruct (Hmem2 a b Hb) as [Hin|(deps' & Hin & Ha)].
      * destruct (Hmem1 a b Hin) as [?|[-> Ha]]; [by left|].
        right. exists deps. split; [apply list_elem_of_here | by apply elem_of_elements].
      * right. exists deps'. split; [by apply list_elem_of_further | done].
Qed.

Lemma invert_graph_dom k : is_Some (invert_graph g !! k) ↔ k ∈ g.*1.
Proof.
  unfold invert_graph.
  match goal with |- context [fold_left _ g (fold_left ?f g ∅)] =>
    destruct (invert_outer_spec g (fold_left f g ∅)) as [Hdom _] end.
  simpl in Hdom. rewrite Hdom, fold_insert_keys_lookup.
  case_decide; [split; eauto|]. rewrite lookup_empty. split; [by intros [? ?] | done].
Qed.

(** The forward map sends a producer to cells that depend on it. *)
Lemma invert_graph_consumer a b :
  is_dict g → b ∈ default ∅ (invert_graph g !! a) → depends_on g b a.
Proof.
  intros Hd. unfold invert_graph.
  match goal with |- context [fold_left _ g (fold_left ?f g ∅)] =>
    destruct (invert_outer_spec g (fold_left f g ∅)) as [_ Hmem] end.
  simpl in Hmem. intros Hb. destruct (Hmem a b Hb) as [Hin|(deps & Hin & Ha)].
  - rewrite fold_insert_keys_lookup in Hin. case_decide; simpl in Hin.
    + by apply not_elem_of_empty in Hin.
    + rewrite lookup_empty in Hin. by apply not_elem_of_empty in Hin.
  - exists deps. split; [by apply dict_get_elem | done].
Qed.

Lemma bfs_spec (dm : gmap string (gset string)) (P : string → Prop) :
  (∀ k s, dm !! k = Some s → s ⊆ dom dm) →
  (∀ a b, P a → b ∈ default ∅ (dm !! a) → P b) →
  ∀ fuel result queue,
    (∀ x, x ∈ queue → x ∈ dom dm) →
    size (dom dm ∖ result) * S (size dm) + length queue ≤ fuel →
    (∀ x, x ∈ result → P x) → (∀ x, x ∈ queue → P x) →
    ∃ s, bfs fuel dm result queue = Ok s ∧ ∀ x, x ∈ s → P x.
Proof.
  intros Hclosed Hstep. induction fuel as [|fuel IH]; intros result queue Hq Hfuel Hr HPq.
  - destruct queue; [by exists result | simpl in Hfuel; lia].
  - destruct queue as [|current queue]; [by exists result|]. simpl.
    assert (∀ x, x ∈ queue → x ∈ dom dm) as Hq'
      by (intros; apply Hq; by apply list_elem_of_further).
    assert (∀ x, x ∈ queue → P x) as HPq'
      by (intros; apply HPq; by apply list_elem_of_further).
    simpl in Hfuel. destruct (decide (current ∈ result)) as [Hin|Hnin].
    + apply IH; [done | lia | done | done].
    + assert (current ∈ dom dm) as Hcur by apply Hq, list_elem_of_here.
      assert (P current) as HPc by apply HPq, list_elem_of_here.
      set (cons := default ∅ (dm !! current)).
      assert (cons ⊆ dom dm) as Hcons.
      { unfold cons. destruct (dm !! current) as [s|] eqn:E; simpl; [by eapply Hclosed|].
        apply empty_subseteq. }
      assert (size (dom dm ∖ ({[current]} ∪ result)) < size (dom dm ∖ result)) as Hlt.
      { apply subset_size. split.
        - intros x. rewrite !elem_of_difference, elem_of_union. tauto.
        - intros Hsub. specialize (Hsub current).
          rewrite !elem_of_difference, elem_of_union, elem_of_singleton in Hsub.
          tauto. }
      assert (length (elements cons) ≤ size dm) as Hlen.
      { rewrite <- size_dom. apply (subseteq_size cons (dom dm) Hcons). }
      apply IH.
      * intros x [Hx|Hx]%elem_of_app; [auto|]. apply Hcons. by apply elem_of_elements.
      * rewrite length_app. nia.
      * intros x [->%elem_of_singleton|Hx]%elem_of_union; auto.
      * intros x [Hx|Hx]%elem_of_app; [auto|].
        apply (Hstep current); [done | by apply elem_of_elements].
Qed.

(** [get_downstream_cells] ends, and every cell it returns depends on the
    source through one or more edges. *)
Lemma get_downstream_cells_spec (cell_id : string) :
  is_dict g →
  ∃ s, get_downstream_cells g cell_id = Ok s ∧
       ∀ x, x ∈ s → tc (depends_on g) x cell_id.
Proof.
  intros Hd. unfold get_downstream_cells.
  set (dm := invert_graph g).
  assert (∀ k s, dm !! k = Some s → s ⊆ dom dm) as Hclosed.
  { intros k s Hk b Hb. apply elem_of_dom, invert_graph_dom.
    eapply depends_on_key, (invert_graph_consumer k b Hd).
    fold dm. by rewrite Hk. }
  apply (bfs_spec dm (fun x => tc (depends_on g) x cell_id) Hclosed).
  - intros a b Ha Hb. eapply tc_l; [|done]. by apply invert_graph_consumer.
  - intros x Hx%elem_of_elements. destruct (dm !! cell_id) as [s|] eqn:E; simpl in Hx.
    + by eapply Hclosed.
    + by apply not_elem_of_empty in Hx.
  - assert (length (elements (default ∅ (dm !! cell_id))) ≤ size dm) as Hlen.
    { rewrite <- size_dom. apply (subseteq_size (default ∅ (dm !! cell_id)) (dom dm)).
      destruct (dm !! cell_id) as [s|] eqn:E; simpl; [by eapply Hclosed|].
      apply empty_subseteq. }
    assert (size (dom dm ∖ ∅) ≤ size dm) as Hsz.
    { rewrite <- size_dom. apply subseteq_size. intros x. rewrite elem_of_difference. tauto. }
    nia.
  - intros x Hx. by apply not_elem_of_empty in Hx.
  - intros x Hx%elem_of_elements. apply tc_once. by apply invert_graph_consumer.
Qed.

Lemma get_downstream_cells_unknown (cell_id : string) :
  cell_id ∉ g.*1 → get_downstream_cells g cell_id = Ok ∅.
Proof.
  intros Hk. unfold get_downstream_cells.
  destruct (invert_graph g !! cell_id) eqn:E.
  - exfalso. apply Hk, invert_graph_dom. eauto.
  - simpl. by rewrite elements_empty.
Qed.
End downstream_facts.

(** ** Topological order of a cell that is not in the graph *)

Lemma subgraph_of_key (g : dict (gset string)) (cell_ids : gset string) k :
  is_Some (subgraph_of g cell_ids !! k) → k ∈ g.*1.
Proof.
  unfold subgraph_of.
  assert (∀ l (m : gmap string (gset string)),
    is_Some (fold_left (fun m kv =>
       if decide (kv.1 ∈ cell_ids) then <[kv.1 := kv.2 ∩ cell_ids]> m else m) l m !! k) →
    is_Some (m !! k) ∨ k ∈ l.*1) as Hfold.
  { induction l as [|[k' v] l IH]; intros m; simpl; [by auto|].
    intros [Hm|Hin]%IH; [|right; by apply list_elem_of_further].
    case_decide; [|by left].
    destruct (decide (k' = k)) as [->|Hne]; [right; apply list_elem_of_here|].
    rewrite lookup_insert_ne in Hm by done. by left. }
  intros [Hm|?]%Hfold; [|done]. rewrite lookup_empty in Hm. by destruct Hm.
Qed.

Lemma topological_sort_unknown (g : dict (gset string)) (cell_id : string) :
  cell_id ∉ g.*1 → topological_sort g {[cell_id]} = Ok [cell_id].
Proof.
  intros Hk. unfold topological_sort. rewrite elements_singleton, size_singleton.
  assert (subgraph_of g {[cell_id]} !! cell_id = None) as Hsub.
  { destruct (subgraph_of g {[cell_id]} !! cell_id) eqn:E; [|done].
    exfalso. eapply Hk, subgraph_of_key. eauto. }
  simpl. rewrite !decide_False by apply not_elem_of_empty.
  rewrite Hsub. simpl. rewrite elements_empty. reflexivity.
Qed.

(** ** The reactor *)

Lemma str_app (l1 l2 : list ascii) : str (l1 ++ l2) = str l1 +:+ str l2.
Proof. induction l1 as [|c l1 IH]; simpl; [done|]. by rewrite IH. Qed.

(** [sep.join(parts)] is the parts in a row with [sep] between them *)
Lemma join_concat (sep : string) (parts : list string) :
  Py.join sep parts = String.concat sep parts.
Proof.
  unfold Py.join. induction parts as [|p parts IH]; [done|].
  destruct parts as [|q parts].
  - simpl. apply string_of_list_ascii_of_string.
  - change (str (chars p ++ chars sep ++
                 Py.join_chars (chars sep) (chars <$> q :: parts))
            = p +:+ sep +:+ String.concat sep (q :: parts)).
    by rewrite !str_app, IH, !string_of_list_ascii_of_string.
Qed.

Lemma circular_message_text (cycle : list string) :
  circular_message cycle =
  "Circular dependency detected: " +:+ String.concat " -> " cycle.
Proof. unfold circular_message. by rewrite join_concat. Qed.

Section reactor_facts.
Context {interp : Interp} {parser : AstParser}.

Lemma fold_append_state (states : gmap string CellState) (l : list string) :
  (∀ x, x ∈ l → is_Some (states !! x)) →
  ∀ acc, fold_res (append_state states) l acc = Ok (acc ++ l).
Proof.
  induction l as [|x l IH]; intros Hl acc; simpl.
  - by rewrite app_nil_r.
  - destruct (Hl x) as [s Hs]; [apply list_elem_of_here|].
    assert (append_state states acc x = Ok (acc ++ [x])) as ->
      by (unfold append_state; by rewrite Hs).
    simpl.
    rewrite IH, <- app_assoc; [done|].
    intros; apply Hl; by apply list_elem_of_further.
Qed.

Lemma update_status_dom cid upd (states : gmap string CellState) k :
  is_Some (_update_status cid upd states !! k) ↔ is_Some (states !! k).
Proof.
  unfold _update_status. destruct (states !! cid) eqn:E; [|done].
  apply insert_is_Some. eauto.
Qed.

(** the states after the [for cid in cycle] loop of [run_cell] *)
Lemma fold_update_cycle (cycle l : list string) :
  ∀ (states : gmap string CellState),
    let states' := fold_left (fun m cid => _update_status cid (upd_cycle cycle) m)
                             l states in
    (∀ k, is_Some (states' !! k) ↔ is_Some (states !! k)) ∧
    (∀ k, k ∉ l → states' !! k = states !! k) ∧
    (∀ k s, states !! k = Some s →
       status s = ERROR ∧ error s = Some (circular_message cycle) →
       ∃ s', states' !! k = Some s' ∧
             status s' = ERROR ∧ error s' = Some (circular_message cycle)) ∧
    (∀ k, k ∈ l → is_Some (states !! k) →
       ∃ s', states' !! k = Some s' ∧
             status s' = ERROR ∧ error s' = Some (circular_message cycle)).
Proof.
  induction l as [|cid l IH]; intros states; simpl.
  - split; [done|]. split; [done|]. split; [by eauto|].
    intros k Hk. by apply elem_of_nil in Hk.
  - destruct (IH (_update_status cid (upd_cycle cycle) states))
      as (Hdom & Hout & Hkeep & Hin).
    assert (∀ k s, states !! k = Some s →
              status s = ERROR ∧ error s = Some (circular_message cycle) →
              ∃ s1, _update_status cid (upd_cycle cycle) states !! k = Some s1 ∧
                    status s1 = ERROR ∧ error s1 = Some (circular_message cycle))
      as Hstep.
    { intros k s Hs Hq. unfold _update_status.
      destruct (states !! cid) as [s0|] eqn:E; [|by eauto].
      destruct (decide (cid = k)) as [->|Hne].
      - rewrite lookup_insert_eq. eauto.
      - rewrite lookup_insert_ne by done. eauto. }
    split; [|split; [|split]].
    + intros k. by rewrite Hdom, update_status_dom.
    + intros k [Hne Hk]%not_elem_of_cons. rewrite Hout by done.
      unfold _update_status. destruct (states !! cid); [|done].
      by rewrite lookup_insert_ne.
    + intros k s Hs Hq. destruct (Hstep k s Hs Hq) as (s1 & Hs1 & Hq1). eauto.
    + intros k Hk [s Hs]. apply elem_of_cons in Hk as [->|Hk].
      * eapply Hkeep.
        -- unfold _update_status. rewrite Hs. apply lookup_insert_eq.
        -- done.
      * apply Hin; [done|]. apply update_status_dom. eauto.
Qed.

Lemma run_cell_cycle_eq cell_id sql_executor (r : Reactor) cycle :
  detect_cycle (build_dependency_graph (cells r)) = Ok (Some cycle) →
  cycle ≠ [] →
  run_cell cell_id sql_executor r =
    (results ← fold_res
       (append_state (fold_left (fun m cid => _update_status cid (upd_cycle cycle) m)
                                cycle (cell_states r))) cycle [];
     Ok (results,
         mkReactor _ (cells r)
           (fold_left (fun m cid => _update_status cid (upd_cycle cycle) m)
                      cycle (cell_states r))
           (namespace r) (dispatched r))).
Proof.
  intros Hdet Hne. unfold run_cell, get_execution_order. rewrite Hdet.
  destruct cycle; [done | reflexivity].
Qed.

(** C6, where no cell has the empty identifier. When the dependency graph
    of such a cell list has a cycle, [detect_cycle] returns a witness of it:
    a non-empty list of cells of the list, each lying on a dependency cycle,
    that closes on itself. [run_cell], for whatever cell, then returns the
    states of that list and nothing else, each in status error with the
    message [Circular dependency detected: ] followed by the identifiers of
    the list, [ -> ] between them; no cell is handed to an executor, and the
    namespace and the other states stay as they were. *)
Theorem run_cell_on_cycle (cell_id : string) (sql_executor : option sql_executor_t)
    (r : Reactor) :
  states_cover r →
  "" ∉ id <$> cells r →
  has_cycle (build_dependency_graph (cells r)) →
  ∃ cycle r',
    detect_cycle (build_dependency_graph (cells r)) = Ok (Some cycle) ∧
    cycle ≠ [] ∧
    (∀ cid, cid ∈ cycle →
       cid ∈ id <$> cells r ∧ on_cycle (build_dependency_graph (cells r)) cid) ∧
    closed_path (build_dependency_graph (cells r)) cycle ∧
    run_cell cell_id sql_executor r = Ok (cycle, r') ∧
    cells r' = cells r ∧ namespace r' = namespace r ∧ dispatched r' = dispatched r ∧
    (∀ cid, cid ∈ cycle →
       ∃ s, cell_states r' !! cid = Some s ∧ status s = ERROR ∧
            error s = Some ("Circular dependency detected: "
                            +:+ String.concat " -> " cycle)) ∧
    (∀ cid, cid ∉ cycle → cell_states r' !! cid = cell_states r !! cid).
Proof.
  intros Hcover Hempty Hcyc.
  destruct (detect_cycle_complete _ Hcyc) as (cycle & Hdet & Hwit).
  destruct Hwit as (Hne & Hkeys & _ & Hon & Hpath).
  pose proof (build_dependency_graph_no_self (cells r)) as Hirr.
  destruct (fold_update_cycle cycle cycle (cell_states r)) as (Hdom & Hout & _ & Hin).
  simpl in Hdom, Hout, Hin.
  setoid_rewrite circular_message_text in Hin.
  set (states' := fold_left (fun m cid => _update_status cid (upd_cycle cycle) m)
                            cycle (cell_states r)) in *.
  assert (∀ cid, cid ∈ cycle → cid ∈ id <$> cells r) as Hids.
  { intros cid Hc. by apply build_dependency_graph_keys, Hkeys. }
  assert (∀ cid, cid ∈ cycle → is_Some (cell_states r !! cid)) as Hstates.
  { intros cid Hc. apply Hids, list_elem_of_fmap in Hc as (cell & -> & Hcell).
    by apply Hcover. }
  exists cycle, (mkReactor _ (cells r) states' (namespace r) (dispatched r)).
  split; [done|]. split; [done|]. split; [by auto|]. split.
  { apply Hpath; [done|]. by rewrite build_dependency_graph_keys. }
  split; [|by auto 10].
  rewrite (run_cell_cycle_eq _ _ _ _ Hdet Hne). fold states'.
  rewrite fold_append_state; [done|].
  intros x Hx. apply Hdom. auto.
Qed.

(** C8, as the code has it. When the dependency graph of the cell list
    has no cycle and the identifier is not in the list, [run_cell] returns
    the empty list and leaves the reactor as it was. *)
Theorem run_cell_unknown_id (cell_id : string) (sql_executor : option sql_executor_t)
    (r : Reactor) :
  ¬ has_cycle (build_dependency_graph (cells r)) →
  cell_id ∉ id <$> cells r →
  run_cell cell_id sql_executor r = Ok ([], r).
Proof.
  intros Hacyc Hid.
  assert (cell_id ∉ (build_dependency_graph (cells r)).*1) as Hk
    by by rewrite build_dependency_graph_keys.
  unfold run_cell, get_execution_order.
  rewrite (detect_cycle_sound _ Hacyc). simpl.
  rewrite (get_downstream_cells_unknown _ _ Hk). simpl.
  rewrite (left_id_L ∅ (∪)), (topological_sort_unknown _ _ Hk). simpl.
  unfold run_step. rewrite (find_cell_by_id_None _ _ Hid). simpl.
  by destruct r.
Qed.
End reactor_facts.

(** ** Deciding cycles by running the detector *)

Lemma detect_cycle_None_acyclic (g : dict (gset string)) :
  detect_cycle g = Ok None → ¬ has_cycle g.
Proof. intros Hd. pose proof (detect_cycle_spec g) as Hs. by rewrite Hd in Hs. Qed.

Lemma detect_cycle_Some_cyclic (g : dict (gset string)) c :
  detect_cycle g = Ok (Some c) → has_cycle g.
Proof.
  intros Hd. pose proof (detect_cycle_spec g) as Hs. rewrite Hd in Hs.
  by destruct Hs as (_ & _ & ? & _).
Qed.

Section downstream_complete.
Variable g : dict (gset string).

Lemma invert_inner_adds (cid : string) (l : list string) :
  ∀ (m : gmap string (gset string)) a,
    let m' := fold_left (fun m dep =>
                match m !! dep with
                | Some s => <[dep := {[cid]} ∪ s]> m
                | None => m
                end) l m in
    (∀ b, b ∈ default ∅ (m !! a) → b ∈ default ∅ (m' !! a)) ∧
    (a ∈ l → is_Some (m !! a) → cid ∈ default ∅ (m' !! a)).
Proof.
  induction l as [|dep l IH]; intros m a; simpl.
  - split; [done | by intros ?%elem_of_nil].
  - destruct (m !! dep) as [s|] eqn:Hdep.
    + destruct (IH (<[dep := {[cid]} ∪ s]> m) a) as [Hmono Hadd].
      assert (∀ b, b ∈ default ∅ (m !! a) →
                   b ∈ default ∅ (<[dep := {[cid]} ∪ s]> m !! a)) as Hstep.
      { intros b Hb. destruct (decide (dep = a)) as [<-|Hne].
        - rewrite lookup_insert_eq. rewrite Hdep in Hb. simpl in *.
          apply elem_of_union. by right.
        - by rewrite lookup_insert_ne. }
      split; [by auto|].
      intros [->|Hin]%elem_of_cons Hsome.
      * apply Hmono. rewrite lookup_insert_eq. simpl.
        apply elem_of_union. left. by apply elem_of_singleton.
      * apply Hadd; [done|]. apply insert_is_Some; [by eauto | done].
    + destruct (IH m a) as [Hmono Hadd]. split; [done|].
      intros [->|Hin]%elem_of_cons Hsome; [|by auto].
      rewrite Hdep in Hsome. by destruct Hsome.
Qed.

Lemma invert_outer_adds (entries : dict (gset string)) :
  ∀ (m : gmap string (gset string)) a,
    let m' := fold_left (fun m kv =>
                fold_left (fun m dep =>
                  match m !! dep with
                  | Some s => <[dep := {[kv.1]} ∪ s]> m
                  | None => m
                  end) (elements kv.2) m) entries m in
    (∀ b, b ∈ default ∅ (m !! a) → b ∈ default ∅ (m' !! a)) ∧
    (∀ cid deps, (cid, deps) ∈ entries → a ∈ deps → is_Some (m !! a) →
       cid ∈ default ∅ (m' !! a)).
Proof.
  induction entries as [|[cid0 deps0] entries IH]; intros m a; simpl.
  - split; [done|]. intros ? ? Hin. by apply elem_of_nil in Hin.
  - destruct (invert_inner_adds cid0 (elements deps0) m a) as [Hmono1 Hadd1].
    destruct (invert_inner_spec cid0 (elements deps0) m) as [Hdom1 _].
    simpl in Hmono1, Hadd1, Hdom1.
    match goal with |- context [fold_left _ entries ?m1] =>
      destruct (IH m1 a) as [Hmono2 Hadd2] end.
    simpl in Hmono2, Hadd2. split; [by auto|].
    intros cid deps [[= -> ->]|Hin]%elem_of_cons Ha Hsome.
    + apply Hmono2, Hadd1; [by apply elem_of_elements | done].
    + eapply Hadd2; [done | done |]. by apply Hdom1.
Qed.

(** The forward map holds every cell that depends on a producer of the
    graph. *)
Lemma invert_graph_complete a b :
  depends_on g b a → a ∈ g.*1 → b ∈ default ∅ (invert_graph g !! a).
Proof.
  intros (deps & Hg & Ha) Hk. unfold invert_graph.
  match goal with |- context [fold_left _ g (fold_left ?f g ∅)] =>
    destruct (invert_outer_adds g (fold_left f g ∅) a) as [_ Hadd] end.
  simpl in Hadd. eapply Hadd; [by apply dict_get_Some_elem | done |].
  rewrite fold_insert_keys_lookup. rewrite decide_True by done. eauto.
Qed.

Lemma bfs_closed (dm : gmap string (gset string)) :
  ∀ fuel result queue s,
    bfs fuel dm result queue = Ok s →
    (∀ a b, a ∈ result → b ∈ default ∅ (dm !! a) → b ∈ result ∨ b ∈ queue) →
    result ⊆ s ∧ (∀ x, x ∈ queue → x ∈ s) ∧
    (∀ a b, a ∈ s → b ∈ default ∅ (dm !! a) → b ∈ s).
Proof.
  induction fuel as [|fuel IH]; intros result queue s Hbfs Hinv.
  - destruct queue; [|done]. injection Hbfs as <-.
    split; [done|]. split; [by intros ? ?%elem_of_nil|].
    intros a b Ha Hb. destruct (Hinv a b Ha Hb) as [?|?%elem_of_nil]; done.
  - destruct queue as [|current queue].
    + injection Hbfs as <-.
      split; [done|]. split; [by intros ? ?%elem_of_nil|].
      intros a b Ha Hb. destruct (Hinv a b Ha Hb) as [?|?%elem_of_nil]; done.
    + simpl in Hbfs. destruct (decide (current ∈ result)) as [Hin|Hnin].
      * destruct (IH _ _ _ Hbfs) as (Hr & Hq & Hcl).
        { intros a b Ha Hb. destruct (Hinv a b Ha Hb) as [?|[->|?]%elem_of_cons]; auto. }
        split; [done|]. split; [|done].
        intros x [->|Hx]%elem_of_cons; auto.
      * destruct (IH _ _ _ Hbfs) as (Hr & Hq & Hcl).
        { intros a b [->%elem_of_singleton|Ha]%elem_of_union Hb.
          - right. apply elem_of_app. right. by apply elem_of_elements.
          - destruct (Hinv a b Ha Hb) as [?|[->|?]%elem_of_cons].
            + left. apply elem_of_union. by right.
            + left. apply elem_of_union. left. by apply elem_of_singleton.
            + right. apply elem_of_app. by left. }
        split; [|split; [|done]].
        -- intros x Hx. apply Hr, elem_of_union. by right.
        -- intros x [->|Hx]%elem_of_cons.
           ++ apply Hr, elem_of_union. left. by apply elem_of_singleton.
           ++ apply Hq, elem_of_app. by left.
Qed.

(** [get_downstream_cells] returns exactly the cells that depend, through
    one or more edges, on a source that is a cell of the graph. *)
Lemma get_downstream_cells_exact (cell_id : string) :
  is_dict g →
  ∃ s, get_downstream_cells g cell_id = Ok s ∧
       ∀ x, x ∈ s ↔ cell_id ∈ g.*1 ∧ tc (depends_on g) x cell_id.
Proof.
  intros Hd. destruct (get_downstream_cells_spec g cell_id Hd) as (s & Hs & Hsound).
  exists s. split; [done|]. intros x. split.
  - intros Hx. split; [|by apply Hsound].
    destruct (decide (cell_id ∈ g.*1)) as [|Hk]; [done|].
    rewrite (get_downstream_cells_unknown g cell_id Hk) in Hs. injection Hs as <-.
    by apply not_elem_of_empty in Hx.
  - intros [Hk Htc]. unfold get_downstream_cells in Hs.
    apply bfs_closed in Hs as (_ & Hq & Hcl);
      [|intros a b Ha; by apply not_elem_of_empty in Ha].
    induction Htc as [x y Hxy|x y z Hxy Hyz IH].
    + apply Hq, elem_of_elements. by apply invert_graph_complete.
    + apply (Hcl y); [by apply IH|].
      apply invert_graph_complete; [done|].
      inversion Hyz; subst; by eapply depends_on_key.
Qed.
End downstream_complete.

(** C4, as the code has it. For a dependency graph, the set that
    [get_downstream_cells] returns holds the source exactly when the source
    lies on a dependency cycle; it holds the cells that depend on the source
    through one or more edges. *)
Theorem downstream_excludes_source (g : dict (gset string)) (cell_id : string) :
  is_dict g →
  ∃ s, get_downstream_cells g cell_id = Ok s ∧
       (cell_id ∈ s ↔ on_cycle g cell_id) ∧
       (¬ on_cycle g cell_id → cell_id ∉ s) ∧
       (∀ x, x ∈ s → tc (depends_on g) x cell_id).
Proof.
  intros Hd. destruct (get_downstream_cells_exact g cell_id Hd) as (s & Hs & Hx).
  exists s. split; [done|].
  assert (cell_id ∈ s ↔ on_cycle g cell_id) as Hiff.
  { rewrite Hx. split; [by intros [_ ?] | intros Hc].
    split; [by apply on_cycle_key | done]. }
  split; [done|]. split; [by rewrite Hiff|].
  intros x Hin. by apply Hx.
Qed.

Lemma downstream_excludes_source_witness :
  ∃ s, get_downstream_cells Sample.chain_graph "c1" = Ok s ∧
       ("c1" ∈ s ↔ on_cycle Sample.chain_graph "c1") ∧
       (¬ on_cycle Sample.chain_graph "c1" → "c1" ∉ s) ∧
       (∀ x, x ∈ s → tc (depends_on Sample.chain_graph) x "c1").
Proof.
  apply (downstream_excludes_source Sample.chain_graph "c1").
  unfold is_dict. apply (bool_decide_unpack _). vm_compute. exact I.
Defined.

(** An empty identifier on the stack stops the parent walk: of the cycle
    through [a], the empty identifier and [b], the list returned keeps [a]
    and [b] only. *)
Lemma detect_cycle_cut_at_empty_id :
  detect_cycle [("a", {[""]}); ("", {["b"]}); ("b", {["a"]})] = Ok (Some ["a"; "b"]).
Proof. vm_compute. reflexivity. Qed.

(** C4 as stated fails: in the two-cell cycle the downstream set of [a]
    holds [a]. *)
Lemma downstream_holds_source_on_cycle :
  get_downstream_cells [("a", {["b"]}); ("b", {["a"]})] "a" = Ok {["a"; "b"]} ∧
  "a" ∈ ({["a"; "b"]} : gset string).
Proof.
  split; [vm_compute; reflexivity | apply (bool_decide_unpack _); vm_compute; exact I].
Qed.


(** ** Installing a cell list *)

Section set_cells_facts.
Context {interp : Interp}.

Lemma fold_new_states (l : list Cell) :
  ∀ (m : gmap string CellState) k,
    is_Some (fold_left (fun m cell =>
               match m !! id cell with
               | Some _ => m
               | None => <[id cell := CellState_new (id cell)]> m
               end) l m !! k)
    ↔ is_Some (m !! k) ∨ k ∈ id <$> l.
Proof.
  induction l as [|c l IH]; intros m k; simpl.
  - split; [by left | intros [?|?%elem_of_nil]; done].
  - rewrite IH, elem_of_cons. destruct (m !! id c) eqn:E.
    + split; [intros [?|?]; auto|].
      intros [?|[->|?]]; [auto | left; rewrite E; eauto | auto].
    + destruct (decide (id c = k)) as [<-|Hne].
      * rewrite lookup_insert_eq. split; [by auto | left; eauto].
      * rewrite lookup_insert_ne by done.
        split; [intros [?|?]; auto|].
        intros [?|[?|?]]; [auto | congruence | auto].
Qed.

Lemma fold_delete_lookup (l : list string) :
  ∀ (m : gmap string CellState) k,
    fold_left (fun m cid => delete cid m) l m !! k =
      if decide (k ∈ l) then None else m !! k.
Proof.
  induction l as [|x l IH]; intros m k; simpl; [done|].
  rewrite IH. destruct (decide (k ∈ l)) as [Hin|Hnin].
  - rewrite decide_True; [done | by apply list_elem_of_further].
  - destruct (decide (x = k)) as [->|Hne].
    + rewrite lookup_delete_eq, decide_True; [done | apply list_elem_of_here].
    + rewrite lookup_delete_ne, decide_False; [done | | done].
      rewrite not_elem_of_cons. split; [congruence | done].
Qed.

(** After [set_cells] the states are those of the cells of the list:
    one for each identifier in it and none for any other. *)
Lemma set_cells_states (new_cells : list Cell) (r : Reactor) k :
  is_Some (cell_states (set_cells new_cells r) !! k) ↔ k ∈ id <$> new_cells.
Proof.
  unfold set_cells. simpl. rewrite fold_delete_lookup.
  set (states := fold_left _ new_cells (cell_states r)).
  destruct (decide (k ∈ id <$> new_cells)) as [Hin|Hnin].
  - rewrite decide_False.
    + split; [done | intros _]. apply fold_new_states. by right.
    + intros [Hf _]%list_elem_of_filter. apply Hf. by apply elem_of_list_to_set.
  - split; [|done]. intros Hsome. case_decide as Hd; [by destruct Hsome|].
    exfalso. apply Hd. apply list_elem_of_filter. split.
    + by rewrite elem_of_list_to_set.
    + destruct Hsome as [s Hs]. apply list_elem_of_fmap. exists (k, s).
      split; [done|]. by apply elem_of_map_to_list.
Qed.

Lemma set_cells_cover (new_cells : list Cell) (r : Reactor) :
  states_cover (set_cells new_cells r).
Proof.
  intros cell Hcell. apply set_cells_states. simpl in Hcell.
  by apply list_elem_of_fmap_2.
Qed.
End set_cells_facts.

(** ** The states of a reachable reactor *)

Section reachable_facts.
Context {interp : Interp} {parser : AstParser}.

Lemma fold_res_preserves {A B} (P : A → Prop) (f : A → B → res A) (l : list B) :
  (∀ a b a', P a → f a b = Ok a' → P a') →
  ∀ a a', P a → fold_res f l a = Ok a' → P a'.
Proof.
  intros Hf. induction l as [|b l IH]; intros a a' Ha; simpl.
  - by intros [= <-].
  - destruct (f a b) as [a1|] eqn:E; simpl; [|done]. eauto.
Qed.

Lemma run_step_keys cs graph sql_executor st cid st' :
  run_step cs graph sql_executor st cid = Ok st' →
  ∀ k, is_Some (rs_states st' !! k) ↔ is_Some (rs_states st !! k).
Proof.
  unfold run_step. destruct (find_cell_by_id cs cid) as [cell|]; [|by intros [= <-]].
  destruct (List.find _ _) as [[|c0 b]|];
    repeat match goal with
    | |- context [if ?c then _ else _] => destruct c
    | |- context [match ?o with Some _ => _ | None => _ end] => destruct o
    | |- context [let '(_, _) := ?p in _] => destruct p
    end; simpl;
    unfold append_state;
    repeat match goal with
    | |- context [match ?o with Some _ => _ | None => _ end] => destruct o
    end; simpl; try done;
    intros [= <-] k; simpl; rewrite ?update_status_dom; done.
Qed.

Lemma run_cell_same cell_id sql_executor r results r' :
  run_cell cell_id sql_executor r = Ok (results, r') → same_cells_and_keys r r'.
Proof.
  unfold run_cell.
  destruct (get_execution_order (cells r) cell_id) as [[order cycle]|]; simpl; [|done].
  assert (∀ st,
    fold_res (run_step (cells r) (build_dependency_graph (cells r)) sql_executor) order
      (mkRun _ (cell_states r) (namespace r) (dispatched r) ∅ []) = Ok st →
    ∀ k, is_Some (rs_states st !! k) ↔ is_Some (cell_states r !! k)) as Hloop.
  { intros st. apply (fold_res_preserves
      (fun st => ∀ k, is_Some (rs_states st !! k) ↔ is_Some (cell_states r !! k))).
    - intros a b a' Ha Hs k. by rewrite (run_step_keys _ _ _ _ _ _ Hs).
    - done. }
  destruct cycle as [[|c0 cycle]|].
  - destruct (fold_res _ order _) as [st|] eqn:E; simpl; [|done].
    intros [= <- <-]. split; [done|]. simpl. by apply Hloop.
  - destruct (fold_res _ (c0 :: cycle) _) as [res|] eqn:E; simpl; [|done].
    intros [= <- <-]. split; [done|]. simpl.
    destruct (fold_update_cycle (c0 :: cycle) (c0 :: cycle) (cell_states r)) as (Hdom & _).
    apply Hdom.
  - destruct (fold_res _ order _) as [st|] eqn:E; simpl; [|done].
    intros [= <- <-]. split; [done|]. simpl. by apply Hloop.
Qed.

Lemma same_cells_and_keys_cover r r' :
  same_cells_and_keys r r' → states_cover r → states_cover r'.
Proof.
  intros [Hc Hk] Hcover cell Hcell. rewrite Hc in Hcell. apply Hk. by apply Hcover.
Qed.

Lemma run_all_cells_same sql_executor r results r' :
  run_all_cells sql_executor r = Ok (results, r') → same_cells_and_keys r r'.
Proof.
  unfold run_all_cells. destruct (cells r) as [|first rest] eqn:Hcells.
  - intros [= <- <-]. by split.
  - match goal with |- context [fold_res _ ?roots _] => generalize roots end.
    intros roots.
    destruct (fold_res _ roots _) as [acc|] eqn:E; simpl; [|done].
    intros [= <- <-].
    apply (fold_res_preserves (fun acc => same_cells_and_keys r acc.2)
             (run_all_step sql_executor) roots) in E; [done| |by split].
    intros a b a' [Hc Hk] Hs. unfold run_all_step in Hs.
    destruct (decide _); [by injection Hs as <-|].
    destruct (run_cell b sql_executor a.2) as [[res r1]|] eqn:Er; simpl in Hs; [|done].
    injection Hs as <-. simpl.
    destruct (run_cell_same _ _ _ _ _ Er) as [Hc1 Hk1].
    split; [congruence|]. intros k. by rewrite Hk1.
Qed.

(** In every reachable state each cell of the list has a state. *)
Lemma reachable_states_cover r : reachable r → states_cover r.
Proof.
  induction 1 as [|new_cells r _ _|cell_id sql r results r' _ IH Hrun
                  |sql r results r' _ IH Hrun|r _ IH].
  - intros cell Hcell. by apply elem_of_nil in Hcell.
  - apply set_cells_cover.
  - eapply same_cells_and_keys_cover; [by eapply run_cell_same | done].
  - eapply same_cells_and_keys_cover; [by eapply run_all_cells_same | done].
  - intros cell Hcell. simpl in *. rewrite lookup_fmap.
    destruct (IH cell Hcell) as [s ->]. simpl. eauto.
Qed.

Lemma update_status_blocker cid upd (states : gmap string CellState) :
  (∀ s, blocked_has_blocker (upd s)) →
  map_Forall (fun _ s => blocked_has_blocker s) states →
  map_Forall (fun _ s => blocked_has_blocker s) (_update_status cid upd states).
Proof.
  intros Hupd Hst. unfold _update_status. destruct (states !! cid); [|done].
  by apply map_Forall_insert_2.
Qed.

Lemma run_step_blocker cs graph sql_executor st cid st' :
  run_step cs graph sql_executor st cid = Ok st' →
  map_Forall (fun _ s => blocked_has_blocker s) (rs_states st) →
  map_Forall (fun _ s => blocked_has_blocker s) (rs_states st').
Proof.
  unfold run_step. destruct (find_cell_by_id cs cid) as [cell|]; [|by intros [= <-]].
  intros Hs Hst. revert Hs.
  destruct (List.find _ _) as [[|c0 b]|];
    repeat match goal with
    | |- context [if ?c then _ else _] => destruct c
    | |- context [match ?o with Some _ => _ | None => _ end] => destruct o
    | |- context [let '(_, _) := ?p in _] => destruct p
    end; simpl;
    unfold append_state;
    repeat match goal with
    | |- context [match ?o with Some _ => _ | None => _ end] => destruct o
    end; simpl; try done;
    intros [= <-]; simpl;
    repeat (apply update_status_blocker; [intros s; unfold blocked_has_blocker; simpl; by eauto|]);
    done.
Qed.

(** In every reachable state a cell in status blocked has its
    [blocked_by] set. *)
Lemma reachable_blocked_has_blocker r :
  reachable r → map_Forall (fun _ s => blocked_has_blocker s) (cell_states r).
Proof.
  assert (∀ cell_id sql r results r',
            run_cell cell_id sql r = Ok (results, r') →
            map_Forall (fun _ s => blocked_has_blocker s) (cell_states r) →
            map_Forall (fun _ s => blocked_has_blocker s) (cell_states r')) as Hrun.
  { intros cell_id sql r0 results r' Hrun Hst. unfold run_cell in Hrun.
    destruct (get_execution_order (cells r0) cell_id) as [[order cycle]|];
      simpl in Hrun; [|done].
    assert (∀ st,
      fold_res (run_step (cells r0) (build_dependency_graph (cells r0)) sql) order
        (mkRun _ (cell_states r0) (namespace r0) (dispatched r0) ∅ []) = Ok st →
      map_Forall (fun _ s => blocked_has_blocker s) (rs_states st)) as Hloop.
    { intros st. apply (fold_res_preserves
        (fun st => map_Forall (fun _ s => blocked_has_blocker s) (rs_states st))).
      - intros a b a' Ha Hs. by eapply run_step_blocker.
      - done. }
    destruct cycle as [[|c0 cycle]|].
    - destruct (fold_res _ order _) as [st|] eqn:E; simpl in Hrun; [|done].
      injection Hrun as <- <-. by apply Hloop.
    - destruct (fold_res _ (c0 :: cycle) _) as [res|] eqn:E; simpl in Hrun; [|done].
      injection Hrun as <- <-. simpl.
      assert (∀ upd (l : list string) m,
                (∀ s, blocked_has_blocker (upd s)) →
                map_Forall (fun _ s => blocked_has_blocker s) m →
                map_Forall (fun _ s => blocked_has_blocker s)
                  (fold_left (fun m cid => _update_status cid upd m) l m)) as Hfold.
      { intros upd l. induction l as [|x l IH]; intros m Hupd Hm; simpl; [done|].
        apply IH; [done|]. by apply update_status_blocker. }
      apply Hfold; [by intros s Hs|]. apply update_status_blocker; [by intros s Hs|done].
    - destruct (fold_res _ order _) as [st|] eqn:E; simpl in Hrun; [|done].
      injection Hrun as <- <-. by apply Hloop. }
  induction 1 as [|new_cells r _ IH|cell_id sql r results r' _ IH Hr
                  |sql r results r' _ IH Hr|r _ IH].
  - apply map_Forall_empty.
  - unfold set_cells. simpl.
    match goal with |- context [fold_left _ ?l (fold_left ?f new_cells ?m)] =>
      generalize l; assert (map_Forall (fun _ s => blocked_has_blocker s)
                              (fold_left f new_cells m)) as Hnew end.
    { revert IH. generalize (cell_states r).
      induction new_cells as [|c cs IHc]; intros m Hm; simpl; [done|].
      apply IHc. destruct (m !! id c); [done|].
      apply map_Forall_insert_2; [by intros Hs|done]. }
    intros l. revert Hnew.
    match goal with |- map_Forall _ ?m → _ => generalize m end.
    induction l as [|x l IHl]; intros m Hm; simpl; [done|].
    apply IHl. by apply map_Forall_delete.
  - by eapply Hrun.
  - unfold run_all_cells in Hr. destruct (cells r) as [|first rest].
    + by injection Hr as <- <-.
    + revert Hr. match goal with |- context [fold_res _ ?roots _] => generalize roots end.
      intros roots.
      destruct (fold_res _ roots _) as [acc|] eqn:E; simpl; [|done].
      intros [= <- <-].
      apply (fold_res_preserves
               (fun acc => map_Forall (fun _ s => blocked_has_blocker s) (cell_states acc.2))
               (run_all_step sql) roots) in E; [done| |done].
      intros a b a' Ha Hs. unfold run_all_step in Hs.
      destruct (decide _); [by injection Hs as <-|].
      destruct (run_cell b sql a.2) as [[res r1]|] eqn:Er; simpl in Hs; [|done].
      injection Hs as <-. simpl. by eapply Hrun.
  - simpl. intros k s. rewrite lookup_fmap.
    destruct (cell_states r !! k); simpl; [|done]. by intros [= <-].
Qed.
End reachable_facts.

(** ** Worked runs *)

Section worked_runs.
Context {interp : Interp}.
#[local] Existing Instance Sample.parse.

(** C1, on the code. With [c1: counter = 0] and [c2: counter += 1] the
    analyzer records [counter] as a read of [c2], yet the graph gives [c2]
    no upstream cell, and [run_cell c1] returns, and hands to the executor,
    [c1] alone; [c2] stays idle. This holds whatever the interpreter does. *)
Theorem run_counter_skips_augmented_cell :
  reads (analyze_cell (mkCell "c2" "counter += 1" "python" None)) = {["counter"]} ∧
  build_dependency_graph Sample.cs_counter = [("c1", ∅); ("c2", ∅)] ∧
  returned (run_cell "c1" None (set_cells Sample.cs_counter Reactor_new)) = Some ["c1"] ∧
  dispatched <$> reactor_after (run_cell "c1" None (set_cells Sample.cs_counter Reactor_new))
    = Some ["c1"] ∧
  status <$> state_after (run_cell "c1" None (set_cells Sample.cs_counter Reactor_new)) "c2"
    = Some IDLE.
Proof.
  split; [vm_compute; reflexivity|].
  split; [vm_compute; reflexivity|].
  unfold run_cell.
  assert (get_execution_order (cells (set_cells Sample.cs_counter Reactor_new)) "c1"
          = Ok (["c1"], None)) as -> by (vm_compute; reflexivity).
  simpl.
  assert (build_dependency_graph Sample.cs_counter = [("c1", ∅); ("c2", ∅)]) as ->
    by (vm_compute; reflexivity).
  unfold run_step. simpl. rewrite elements_empty. simpl.
  destruct (execute_cell _ _) as [e ns]. simpl.
  destruct (success e); (split; [|split]); vm_compute; reflexivity.
Qed.

(** C3, on the code. A reachable state holds a cell in status error
    whose [blocked_by] is set. A cell blocked in one run and then caught in
    a cycle is set to error by the next run with its [blocked_by] left in
    place: first [c1] is an SQL cell run without a connection and
    [c2: y = x] is blocked by it; then [c1] becomes [x = y], which closes a
    cycle, and [c1] is run again. *)
Theorem cycle_error_keeps_blocked_by :
  ∃ r s, reachable r ∧ cell_states r !! "c2" = Some s ∧
         status s = ERROR ∧ blocked_by s = Some "c1".
Proof.
  pose proof (reach_set_cells Sample.cs_sql _ reach_new) as H1.
  destruct (run_cell "c1" None (set_cells Sample.cs_sql Reactor_new))
    as [[res2 r2]|e] eqn:E2; [|vm_compute in E2; discriminate].
  pose proof (reach_run_cell _ _ _ _ _ H1 E2) as H2.
  pose proof (reach_set_cells Sample.cs_cycle _ H2) as H3.
  destruct (run_cell "c1" None (set_cells Sample.cs_cycle r2))
    as [[res4 r4]|e] eqn:E4.
  - exists r4. pose proof (reach_run_cell _ _ _ _ _ H3 E4) as H4.
    vm_compute in E2. injection E2 as <- <-.
    vm_compute in E4. injection E4 as <- <-.
    eexists. split; [done|]. split; [vm_compute; reflexivity|]. done.
  - vm_compute in E2. injection E2 as <- <-. vm_compute in E4. discriminate.
Qed.

(** C6, on the code. The notebook text of [EmptyId.nb] parses to three
    cells, the second with the empty identifier, whose graph is the cycle
    [a], [b], the cell without identifier. The parent walk of
    [detect_cycle] stops at the empty identifier as if it were the root of
    the search: the list returned is [a], [b], which does not close on
    itself, and [run_cell] reports [a -> b] on those two cells and returns
    their states, while the third cell of the cycle keeps the state it had.
    This holds whatever the interpreter does. *)
Theorem cycle_through_empty_id_is_cut :
  @parse_notebook Sample.ids EmptyId.nb = EmptyId.cs ∧
  @build_dependency_graph EmptyId.parse EmptyId.cs = EmptyId.graph ∧
  closed_path EmptyId.graph ["a"; "b"; ""] ∧
  detect_cycle EmptyId.graph = Ok (Some ["a"; "b"]) ∧
  ¬ closed_path EmptyId.graph ["a"; "b"] ∧
  returned (@run_cell interp EmptyId.parse "a" None (set_cells EmptyId.cs Reactor_new))
    = Some ["a"; "b"] ∧
  error <$> state_after (@run_cell interp EmptyId.parse "a" None
                           (set_cells EmptyId.cs Reactor_new)) "a"
    = Some (Some "Circular dependency detected: a -> b") ∧
  state_after (@run_cell interp EmptyId.parse "a" None
                 (set_cells EmptyId.cs Reactor_new)) ""
    = Some (CellState_new "").
Proof.
  split; [vm_compute; reflexivity|].
  split; [vm_compute; reflexivity|].
  split.
  { unfold closed_path, linked, depends_on, EmptyId.graph. split_and!; try done.
    - exists {["a"]}. split; [reflexivity | by apply elem_of_singleton].
    - exists {["b"]}. split; [reflexivity | by apply elem_of_singleton].
    - exists "a", "". split_and!; try done.
      exists {[""]}. split; [reflexivity | by apply elem_of_singleton]. }
  split; [vm_compute; reflexivity|].
  split.
  { intros (_ & first & final & Hfirst & Hfinal & deps & Hget & Hin).
    injection Hfirst as <-. injection Hfinal as <-.
    assert (deps = {[""]}) as -> by (by injection Hget as <-).
    by apply elem_of_singleton in Hin. }
  unfold run_cell, get_execution_order.
  assert (@build_dependency_graph EmptyId.parse
            (cells (set_cells EmptyId.cs Reactor_new)) = EmptyId.graph) as ->
    by (vm_compute; reflexivity).
  assert (detect_cycle EmptyId.graph = Ok (Some ["a"; "b"])) as ->
    by (vm_compute; reflexivity).
  split_and!; vm_compute; reflexivity.
Qed.
End worked_runs.

(** C2, on the code. [run_all_cells] on [c1: x = 1], [c2: y = 2],
    [c3: z = x + y] runs from the roots [c1] and [c2] in turn, and [c3], which
    is downstream of both, is handed to the executor twice, the first time
    before [c2] has run. *)
Theorem run_all_dispatches_shared_cell_twice :
  returned (@run_all_cells Sample.interp Sample.parse None
              (set_cells Sample.cs_sum Reactor_new))
    = Some ["c1"; "c3"; "c2"] ∧
  dispatched <$> reactor_after (@run_all_cells Sample.interp Sample.parse None
                                  (set_cells Sample.cs_sum Reactor_new))
    = Some ["c1"; "c3"; "c2"; "c3"].
Proof. split; vm_compute; reflexivity. Qed.

Lemma run_cell_on_cycle_witness :
  ∃ cycle r',
    detect_cycle (@build_dependency_graph Sample.parse Sample.cs_cycle) = Ok (Some cycle) ∧
    cycle ≠ [] ∧
    (∀ cid, cid ∈ cycle →
       cid ∈ id <$> Sample.cs_cycle ∧
       on_cycle (@build_dependency_graph Sample.parse Sample.cs_cycle) cid) ∧
    closed_path (@build_dependency_graph Sample.parse Sample.cs_cycle) cycle ∧
    @run_cell Sample.interp Sample.parse "c2" None
      (@set_cells Sample.interp Sample.cs_cycle Reactor_new) = Ok (cycle, r') ∧
    cells r' = Sample.cs_cycle ∧
    namespace r' = namespace (@set_cells Sample.interp Sample.cs_cycle Reactor_new) ∧
    dispatched r' = [] ∧
    (∀ cid, cid ∈ cycle →
       ∃ s, cell_states r' !! cid = Some s ∧ status s = ERROR ∧
            error s = Some ("Circular dependency detected: "
                            +:+ String.concat " -> " cycle)) ∧
    (∀ cid, cid ∉ cycle →
       cell_states r' !! cid =
       cell_states (@set_cells Sample.interp Sample.cs_cycle Reactor_new) !! cid).
Proof.
  apply (@run_cell_on_cycle Sample.interp Sample.parse "c2" None
           (@set_cells Sample.interp Sample.cs_cycle Reactor_new)).
  - apply set_cells_cover.
  - apply (bool_decide_unpack _). vm_compute. exact I.
  - apply (detect_cycle_Some_cyclic _ ["c1"; "c2"]). vm_compute. reflexivity.
Defined.

Lemma run_cell_unknown_id_witness :
  @run_cell Sample.interp Sample.parse "zz" None
    (@set_cells Sample.interp Sample.cs_sum Reactor_new)
  = Ok ([], @set_cells Sample.interp Sample.cs_sum Reactor_new).
Proof.
  apply (@run_cell_unknown_id Sample.interp Sample.parse).
  - apply detect_cycle_None_acyclic. vm_compute. reflexivity.
  - apply (bool_decide_unpack _). vm_compute. exact I.
Defined.

(** C8 as stated fails: with the cycle [c1: x = y], [c2: y = x] in the list,
    a run of the unknown identifier [zz] returns two states and sets both
    cells to error. *)
Lemma run_unknown_id_reports_cycle :
  ("zz" ∉ id <$> Sample.cs_cycle) ∧
  returned (@run_cell Sample.interp Sample.parse "zz" None
              (set_cells Sample.cs_cycle Reactor_new)) = Some ["c1"; "c2"] ∧
  status <$> state_after (@run_cell Sample.interp Sample.parse "zz" None
                            (set_cells Sample.cs_cycle Reactor_new)) "c1" = Some ERROR ∧
  status <$> cell_states (@set_cells Sample.interp Sample.cs_cycle Reactor_new) !! "c1"
    = Some IDLE.
Proof.
  split; [apply (bool_decide_unpack _); vm_compute; exact I|].
  repeat split; vm_compute; reflexivity.
Qed.

(** ** Strings *)

Lemma chars_app (a b : string) : chars (a +:+ b) = chars a ++ chars b.
Proof. induction a as [|c a IH]; simpl; [done | by rewrite IH]. Qed.

Lemma chars_str (l : list ascii) : chars (str l) = l.
Proof. apply list_ascii_of_string_of_list_ascii. Qed.

Lemma str_chars (s : string) : str (chars s) = s.
Proof. apply string_of_list_ascii_of_string. Qed.

Lemma chars_inj (a b : string) : chars a = chars b → a = b.
Proof. intros Heq. by rewrite <- (str_chars a), <- (str_chars b), Heq. Qed.

Lemma lstrip_no_lead l : no_lead (Py.lstrip l).
Proof.
  induction l as [|c l IH]; simpl; [done|].
  destruct (Py.isspace c) eqn:E; [done | exact E].
Qed.

Lemma no_lead_lstrip l : no_lead l → Py.lstrip l = l.
Proof. destruct l as [|c l]; simpl; [done|]. by intros ->. Qed.

Lemma lstrip_incl l x : x ∈ Py.lstrip l → x ∈ l.
Proof.
  induction l as [|c l IH]; simpl; [done|].
  destruct (Py.isspace c); [|done]. intros. apply list_elem_of_further. auto.
Qed.

Lemma rstrip_nil_iff l : Py.rstrip l = [] ↔ forallb Py.isspace l = true.
Proof.
  induction l as [|c l IH]; simpl; [done|].
  destruct (Py.rstrip l) as [|r rs] eqn:E.
  - destruct (Py.isspace c); simpl; [|done].
    split; [intros _; by apply IH | done].
  - split; [done|]. intros [_ Hl]%andb_true_iff. apply IH in Hl. done.
Qed.

Lemma rstrip_app a b :
  Py.rstrip (a ++ b) =
    match Py.rstrip b with
    | [] => Py.rstrip a
    | _ :: _ => a ++ Py.rstrip b
    end.
Proof.
  induction a as [|c a IH]; simpl.
  - by destruct (Py.rstrip b).
  - rewrite IH. destruct (Py.rstrip b) as [|r rs]; [done|].
    by destruct a.
Qed.

Lemma rstrip_idem l : Py.rstrip (Py.rstrip l) = Py.rstrip l.
Proof.
  induction l as [|c l IH]; simpl; [done|].
  destruct (Py.rstrip l) as [|r rs] eqn:E.
  - destruct (Py.isspace c) eqn:Ec; simpl; [done | by rewrite Ec].
  - change (c :: r :: rs) with ([c] ++ r :: rs). rewrite rstrip_app, IH. done.
Qed.

Lemma rstrip_incl l x : x ∈ Py.rstrip l → x ∈ l.
Proof.
  induction l as [|c l IH]; simpl; [done|].
  destruct (Py.rstrip l) as [|r rs].
  - destruct (Py.isspace c); [by intros ?%elem_of_nil|].
    intros ->%list_elem_of_singleton. apply list_elem_of_here.
  - intros [->|Hx]%elem_of_cons; [apply list_elem_of_here|].
    apply list_elem_of_further. auto.
Qed.

Lemma rstrip_no_lead l : no_lead l → no_lead (Py.rstrip l).
Proof.
  destruct l as [|c l]; simpl; [done|]. intros Hc.
  destruct (Py.rstrip l); [by rewrite Hc | done].
Qed.

Lemma strip_chars_stripped l : stripped (Py.strip_chars l).
Proof.
  unfold stripped, Py.strip_chars. split; [|apply rstrip_idem].
  apply no_lead_lstrip, rstrip_no_lead, lstrip_no_lead.
Qed.

Lemma stripped_strip_chars l : stripped l → Py.strip_chars l = l.
Proof. intros [Hl Hr]. unfold Py.strip_chars. by rewrite Hl, Hr. Qed.

Lemma strip_chars_incl l x : x ∈ Py.strip_chars l → x ∈ l.
Proof. intros Hx. by apply lstrip_incl, rstrip_incl. Qed.

Lemma stripped_no_lead l : stripped l → no_lead l.
Proof. intros [<- _]. apply lstrip_no_lead. Qed.

(** [split], [join] *)

Lemma split_chars_nonempty sep l : Py.split_chars sep l ≠ [].
Proof.
  destruct l as [|c l]; simpl; [done|].
  destruct (decide (c = sep)); [done|]. by destruct (Py.split_chars sep l).
Qed.

Lemma split_chars_app_sep sep a b :
  Py.split_chars sep (a ++ sep :: b) = Py.split_chars sep a ++ Py.split_chars sep b.
Proof.
  induction a as [|c a IH]; simpl.
  - by rewrite decide_True.
  - rewrite IH. destruct (decide (c = sep)); [done|].
    pose proof (split_chars_nonempty sep a).
    by destruct (Py.split_chars sep a).
Qed.

Lemma split_chars_no_sep sep l : sep ∉ l → Py.split_chars sep l = [l].
Proof.
  induction l as [|c l IH]; simpl; [done|].
  intros [Hne Hl]%not_elem_of_cons. rewrite decide_False by congruence.
  by rewrite IH.
Qed.

Lemma split_chars_parts sep l part x :
  part ∈ Py.split_chars sep l → x ∈ part → x ∈ l ∧ x ≠ sep.
Proof.
  revert part. induction l as [|c l IH]; intros part; simpl.
  - intros ->%list_elem_of_singleton Hx. by apply elem_of_nil in Hx.
  - destruct (decide (c = sep)) as [->|Hne].
    + intros [->|Hp]%elem_of_cons Hx; [by apply elem_of_nil in Hx|].
      destruct (IH part Hp Hx). split; [by apply list_elem_of_further | done].
    + pose proof (split_chars_nonempty sep l).
      destruct (Py.split_chars sep l) as [|w ws]; [done|].
      intros [->|Hp]%elem_of_cons Hx.
      * apply elem_of_cons in Hx as [->|Hx]; [split; [apply list_elem_of_here | done]|].
        destruct (IH w (list_elem_of_here _ _) Hx).
        split; [by apply list_elem_of_further | done].
      * destruct (IH part (list_elem_of_further _ _ _ Hp) Hx).
        split; [by apply list_elem_of_further | done].
Qed.

Lemma join_split_chars sep l : Py.join_chars [sep] (Py.split_chars sep l) = l.
Proof.
  induction l as [|c l IH]; simpl; [done|].
  pose proof (split_chars_nonempty sep l).
  destruct (decide (c = sep)) as [->|Hne].
  - destruct (Py.split_chars sep l) as [|w ws]; [done|]. simpl in *. by rewrite IH.
  - destruct (Py.split_chars sep l) as [|w ws]; [done|].
    destruct ws; simpl in *; by rewrite <- IH.
Qed.

Lemma join_chars_snoc sep ls x :
  ls ≠ [] → Py.join_chars sep (ls ++ [x]) = Py.join_chars sep ls ++ sep ++ x.
Proof.
  induction ls as [|a ls IH]; [done|]. intros _.
  destruct ls as [|b ls]; simpl; [done|].
  simpl in IH. rewrite IH by done. by rewrite <- !app_assoc.
Qed.

Lemma split_once_app sep a b :
  sep ∉ a → Py.split_once sep (a ++ sep :: b) = Some (a, b).
Proof.
  induction a as [|c a IH]; simpl.
  - by rewrite decide_True.
  - intros [Hne Ha]%not_elem_of_cons. rewrite decide_False by congruence.
    by rewrite IH.
Qed.

Lemma split_once_incl sep l a b x :
  Py.split_once sep l = Some (a, b) → x ∈ a ∨ x ∈ b → x ∈ l.
Proof.
  revert a. induction l as [|c l IH]; intros a; simpl; [done|].
  destruct (decide (c = sep)) as [->|Hne].
  - intros [= <- <-] [?%elem_of_nil|?]; [done|]. by apply list_elem_of_further.
  - destruct (Py.split_once sep l) as [[a' b']|]; [|done].
    intros [= <- <-] [[->|Hx]%elem_of_cons|Hx].
    + apply list_elem_of_here.
    + apply list_elem_of_further. eauto.
    + apply list_elem_of_further. eauto.
Qed.

Lemma take_until_app stop a b : stop ∉ a → take_until stop (a ++ stop :: b) = a.
Proof.
  induction a as [|c a IH]; simpl.
  - by rewrite decide_True.
  - intros [Hne Ha]%not_elem_of_cons. rewrite decide_False by congruence.
    by rewrite IH.
Qed.

Lemma take_until_incl stop l x : x ∈ take_until stop l → x ∈ l ∧ x ≠ stop.
Proof.
  induction l as [|c l IH]; simpl; [by intros ?%elem_of_nil|].
  destruct (decide (c = stop)); [by intros ?%elem_of_nil|].
  intros [->|Hx]%elem_of_cons; [split; [apply list_elem_of_here | done]|].
  destruct (IH Hx). split; [by apply list_elem_of_further | done].
Qed.

Lemma strip_prefix_app p l : strip_prefix p (p ++ l) = Some l.
Proof.
  induction p as [|c p IH]; simpl; [by destruct l|]. by rewrite decide_True.
Qed.

Lemma strip_prefix_incl p l r x : strip_prefix p l = Some r → x ∈ r → x ∈ l.
Proof.
  revert l. induction p as [|c p IH]; intros l; simpl.
  - destruct l; by intros [= ->].
  - destruct l as [|d l]; [done|]. destruct (decide (c = d)); [|done].
    intros. apply list_elem_of_further. eauto.
Qed.

Lemma match_marker_content line content x :
  match_marker line = Some content → x ∈ content → x ∈ line ∧ x ≠ "]"%char.
Proof.
  unfold match_marker.
  destruct (strip_prefix _ line) as [rest|] eqn:Hp; [|done].
  destruct (Py.lstrip rest) as [|c rest'] eqn:Hl; [done|].
  destruct (decide (c = "["%char)) as [->|Hne]; [|by repeat (destruct c as [[] [] [] [] [] [] [] []]; try done)].
  destruct (take_until _ rest') as [|c0 content'] eqn:Ht; [done|].
  destruct (drop _ rest') as [|d tail]; [done|].
  destruct (decide (d = "]"%char)) as [->|Hne]; [|by repeat (destruct d as [[] [] [] [] [] [] [] []]; try done)].
  destruct (forallb _ tail); [|done]. intros [= <-] Hx.
  rewrite <- Ht in Hx. apply take_until_incl in Hx as [Hx Hne]. split; [|done].
  eapply strip_prefix_incl; [done|]. apply lstrip_incl. rewrite Hl.
  by apply list_elem_of_further.
Qed.

(** ** What the parser returns *)

Lemma nonspace_stripped l : (∀ x, x ∈ l → Py.isspace x = false) → stripped l.
Proof.
  intros Hl. split.
  - apply no_lead_lstrip. destruct l as [|c l]; simpl; [done|].
    apply Hl, list_elem_of_here.
  - induction l as [|c l IH]; simpl; [done|].
    rewrite IH by (intros; apply Hl; by apply list_elem_of_further).
    destruct l; [|done]. by rewrite (Hl c) by apply list_elem_of_here.
Qed.

Lemma hex_digit_field (c : ascii) :
  is_hex_digit c = true → Py.isspace c = false ∧ field_char c.
Proof.
  destruct c as [[] [] [] [] [] [] [] []]; try discriminate; intros _;
    (split; [reflexivity | repeat split; discriminate]).
Qed.

Lemma hex8_field_ok s : is_hex8 s → field_ok s.
Proof.
  intros [_ Hall]. rewrite forallb_forall in Hall.
  assert (∀ x, x ∈ chars s → Py.isspace x = false ∧ field_char x) as Hx.
  { intros x Hin. apply hex_digit_field, Hall. by apply list_elem_of_In. }
  split; [apply nonspace_stripped | ]; intros x Hin; by apply Hx.
Qed.

Lemma python_field_ok : field_ok "python".
Proof.
  split; [split; reflexivity|].
  intros x Hx. simpl in Hx.
  repeat (apply elem_of_cons in Hx as [->|Hx]; [repeat split; discriminate|]).
  by apply elem_of_nil in Hx.
Qed.

Lemma parse_marker_values content :
  (∀ x, x ∈ content → x ≠ "]"%char ∧ x ≠ "010"%char) →
  ∀ k v, parse_marker content !! k = Some v → field_ok v.
Proof.
  intros Hc. unfold parse_marker.
  assert (∀ parts (m : gmap string string),
    (∀ part x, part ∈ parts → x ∈ part → field_char x) →
    (∀ k v, m !! k = Some v → field_ok v) →
    ∀ k v,
      fold_left (fun result part =>
        let part := Py.strip_chars part in
        match Py.split_once ":"%char part with
        | Some (key, value) =>
            <[str (Py.strip_chars key) := str (Py.strip_chars value)]> result
        | None => result
        end) parts m !! k = Some v → field_ok v) as Hfold.
  { induction parts as [|part parts IH]; intros m Hparts Hm; simpl; [done|].
    apply IH; [intros; eapply Hparts; [by apply list_elem_of_further | done]|].
    destruct (Py.split_once _ _) as [[key value]|] eqn:Hs; [|done].
    intros k v. destruct (decide (str (Py.strip_chars key) = k)) as [<-|Hne].
    - rewrite lookup_insert_eq. intros [= <-]. split.
      + rewrite chars_str. apply strip_chars_stripped.
      + intros x. rewrite chars_str. intros Hx%strip_chars_incl.
        apply (Hparts part); [apply list_elem_of_here|].
        apply strip_chars_incl. eapply split_once_incl; [done | by right].
    - rewrite lookup_insert_ne by done. apply Hm. }
  apply Hfold.
  - intros part x Hp Hx. destruct (split_chars_parts _ _ _ _ Hp Hx) as [Hin Hne].
    destruct (Hc x Hin). by repeat split.
  - intros k v. by rewrite lookup_empty.
Qed.

Section parse_facts.
Context {ids : IdSource}.
Hypothesis ids_hex : ∀ n, is_hex8 (generate_cell_id n).

Lemma close_cell_ok st : parse_inv st → Forall cell_fields_ok (close_cell st).
Proof.
  intros [Hcells Hcur]. unfold close_cell.
  destruct (ps_current_cell st) as [c|]; [|done].
  apply Forall_app. split; [done|]. apply Forall_singleton.
  destruct (Hcur c eq_refl) as (Hid & Hty & Has).
  split; [done|]. split; [done|]. split; [done|].
  simpl. rewrite chars_str. apply strip_chars_stripped.
Qed.

Lemma parse_line_inv st line :
  "010"%char ∉ line → parse_inv st → parse_inv (parse_line st line).
Proof.
  intros Hline Hinv. unfold parse_line.
  destruct (match_marker line) as [content|] eqn:Hm.
  - split; simpl; [by apply close_cell_ok|].
    intros c [= <-]. simpl.
    assert (∀ k v, parse_marker content !! k = Some v → field_ok v) as Hvals.
    { apply parse_marker_values. intros x Hx.
      destruct (match_marker_content _ _ _ Hm Hx) as [Hin Hne].
      split; [done|]. intros ->. done. }
    split; [|split].
    + destruct (parse_marker content !! "id") eqn:E; simpl; [by eapply Hvals|].
      apply hex8_field_ok, ids_hex.
    + destruct (parse_marker content !! "type") eqn:E; simpl; [by eapply Hvals|].
      apply python_field_ok.
    + intros v Hv. by eapply Hvals.
  - destruct (ps_current_cell st) eqn:E; [|done].
    destruct Hinv as [Hcells Hcur]. split; simpl; [done|]. by rewrite E in Hcur.
Qed.

(** Every cell the parser returns has well-formed fields and a stripped
    source. *)
Lemma parse_notebook_fields content : Forall cell_fields_ok (parse_notebook content).
Proof.
  unfold parse_notebook. apply close_cell_ok.
  assert (∀ lines st,
    (∀ line, line ∈ lines → "010"%char ∉ line) →
    parse_inv st → parse_inv (fold_left parse_line lines st)) as Hfold.
  { induction lines as [|line lines IH]; intros st Hl Hst; simpl; [done|].
    apply IH; [intros; apply Hl; by apply list_elem_of_further|].
    apply parse_line_inv; [apply Hl, list_elem_of_here | done]. }
  apply Hfold.
  - intros line Hl Hin. by destruct (split_chars_parts _ _ _ _ Hl Hin).
  - split; simpl; [done | by intros c [=]].
Qed.
End parse_facts.

(** ** Reading back what the serializer wrote *)

Lemma serialize_cell_chars c :
  chars (serialize_cell c) = marker_chars c ++ "010"%char :: chars (code c).
Proof.
  unfold serialize_cell, marker_chars, content_chars, Py.join.
  rewrite !chars_app. simpl chars at 2. rewrite chars_str, <- !app_assoc. simpl.
  do 6 f_equal. f_equal.
  unfold marker_fields.
  destruct (decide (cell_type c ≠ "python")); destruct (as_var c) as [v|];
    try destruct (Py.truthy v); simpl; unfold part_chars; simpl;
    rewrite ?chars_app; done.
Qed.

Lemma strip_chars_space l : Py.strip_chars (" "%char :: l) = Py.strip_chars l.
Proof. reflexivity. Qed.

Lemma stripped_rstrip_nil l : stripped l → Py.rstrip l = [] → l = [].
Proof. intros [_ Hr] Hn. congruence. Qed.

Lemma strip_part k v :
  key_ok k → stripped (chars v) →
  ∃ rest, Py.strip_chars (part_chars (k, v)) = chars k ++ ":"%char :: rest ∧
          Py.strip_chars rest = chars v.
Proof.
  intros (Hne & Hk & _) Hv. unfold part_chars, Py.strip_chars. simpl.
  rewrite no_lead_lstrip.
  2:{ pose proof (stripped_no_lead _ Hk) as Hl. destruct (chars k); done. }
  rewrite rstrip_app. destruct (chars v) as [|c0 v0] eqn:Ev.
  - exists []. simpl. done.
  - exists (" "%char :: c0 :: v0).
    change (":"%char :: " "%char :: c0 :: v0) with ([":"%char; " "%char] ++ c0 :: v0).
    rewrite rstrip_app. destruct Hv as [Hl Hr]. rewrite Hr. simpl.
    split; [done|]. change (Py.rstrip (Py.lstrip (c0 :: v0)) = c0 :: v0).
    by rewrite Hl, Hr.
Qed.

(** the step of [parse_marker] on a part the serializer wrote *)
Lemma parse_part (m : gmap string string) k v pre :
  pre = [] ∨ pre = [" "%char] →
  key_ok k → stripped (chars v) →
  match Py.split_once ":"%char (Py.strip_chars (pre ++ part_chars (k, v))) with
  | Some (key, value) => <[str (Py.strip_chars key) := str (Py.strip_chars value)]> m
  | None => m
  end = <[k := v]> m.
Proof.
  intros Hpre Hk Hv.
  assert (Py.strip_chars (pre ++ part_chars (k, v)) = Py.strip_chars (part_chars (k, v)))
    as -> by (destruct Hpre as [-> | ->]; done).
  destruct (strip_part k v Hk Hv) as (rest & -> & Hrest).
  destruct Hk as (_ & Hks & Hcolon & _).
  rewrite split_once_app by done.
  by rewrite Hrest, (stripped_strip_chars _ Hks), !str_chars.
Qed.

Lemma split_join_comma (parts : list (list ascii)) :
  (∀ p, p ∈ parts → ","%char ∉ p) →
  Py.split_chars ","%char (Py.join_chars [","%char; " "%char] parts) =
    match parts with
    | [] => [[]]
    | p :: ps => p :: (cons " "%char <$> ps)
    end.
Proof.
  induction parts as [|p ps IH]; intros Hp; [done|].
  destruct ps as [|q ps].
  - simpl. apply split_chars_no_sep, Hp, list_elem_of_here.
  - change (Py.join_chars [","%char; " "%char] (p :: q :: ps))
      with (p ++ ","%char :: (" "%char :: Py.join_chars [","%char; " "%char] (q :: ps))).
    rewrite split_chars_app_sep, split_chars_no_sep by apply Hp, list_elem_of_here.
    change (Py.split_chars ","%char
              (" "%char :: Py.join_chars [","%char; " "%char] (q :: ps)))
      with (match Py.split_chars ","%char (Py.join_chars [","%char; " "%char] (q :: ps)) with
            | [] => [[" "%char]]
            | w :: ws => (" "%char :: w) :: ws
            end).
    rewrite IH by (intros; apply Hp; by apply list_elem_of_further). done.
Qed.

Lemma part_chars_field kv x :
  key_ok kv.1 → field_ok kv.2 → x ∈ part_chars kv → field_char x.
Proof.
  intros (_ & _ & _ & Hk) [_ Hv]. unfold part_chars.
  intros [Hx|Hx]%elem_of_app; [by apply Hk|].
  apply elem_of_cons in Hx as [->|Hx]; [repeat split; discriminate|].
  apply elem_of_cons in Hx as [->|Hx]; [repeat split; discriminate|].
  by apply Hv.
Qed.

Lemma join_chars_elem sep parts x :
  x ∈ Py.join_chars sep parts → x ∈ sep ∨ ∃ p, p ∈ parts ∧ x ∈ p.
Proof.
  induction parts as [|p ps IH]; [by intros ?%elem_of_nil|].
  destruct ps as [|q ps].
  - simpl. intros Hx. right. exists p. split; [apply list_elem_of_here | done].
  - change (Py.join_chars sep (p :: q :: ps))
      with (p ++ sep ++ Py.join_chars sep (q :: ps)).
    intros [Hx|[Hx|Hx]%elem_of_app]%elem_of_app.
    + right. exists p. split; [apply list_elem_of_here | done].
    + by left.
    + destruct (IH Hx) as [?|(p' & Hp' & ?)]; [by left|].
      right. exists p'. split; [by apply list_elem_of_further | done].
Qed.

(** [parse_marker] reads back the fields of a marker the serializer
    wrote. *)
Lemma parse_marker_fields (kvs : list (string * string)) :
  (∀ kv, kv ∈ kvs → key_ok kv.1 ∧ field_ok kv.2) →
  kvs ≠ [] →
  parse_marker (Py.join_chars [","%char; " "%char] (part_chars <$> kvs)) =
    fold_left (fun m kv => <[kv.1 := kv.2]> m) kvs ∅.
Proof.
  intros Hkvs Hne. unfold parse_marker. rewrite split_join_comma.
  2:{ intros p (kv & -> & Hkv)%list_elem_of_fmap Hin.
      destruct (Hkvs kv Hkv) as [Hk Hv].
      by destruct (part_chars_field kv _ Hk Hv Hin) as (? & _). }
  destruct kvs as [|kv kvs]; [done|]. simpl.
  assert (∀ (m : gmap string string) pre, pre = [] ∨ pre = [" "%char] →
            ∀ kv, key_ok kv.1 ∧ field_ok kv.2 →
            match Py.split_once ":"%char (Py.strip_chars (pre ++ part_chars kv)) with
            | Some (key, value) =>
                <[str (Py.strip_chars key) := str (Py.strip_chars value)]> m
            | None => m
            end = <[kv.1 := kv.2]> m) as Hstep.
  { intros m pre Hpre [k v] [Hk [Hv _]]. by apply parse_part. }
  rewrite (Hstep ∅ [] (or_introl eq_refl) kv) by apply Hkvs, list_elem_of_here.
  assert (∀ kv', kv' ∈ kvs → key_ok kv'.1 ∧ field_ok kv'.2) as Hrest
    by (intros; apply Hkvs; by apply list_elem_of_further).
  clear Hkvs Hne. generalize (<[kv.1 := kv.2]> (∅ : gmap string string)).
  induction kvs as [|kv' kvs IH]; intros m; simpl; [done|].
  pose proof (Hstep m [" "%char] (or_intror eq_refl) kv'
                (Hrest kv' (list_elem_of_here _ _))) as Hs.
  simpl in Hs. rewrite Hs.
  apply IH. intros; apply Hrest; by apply list_elem_of_further.
Qed.

Lemma key_ok_id : key_ok "id".
Proof.
  split; [done|]. split; [split; reflexivity|]. split.
  - apply (bool_decide_unpack _). vm_compute. exact I.
  - intros x Hx. simpl in Hx.
    repeat (apply elem_of_cons in Hx as [->|Hx]; [repeat split; discriminate|]).
    by apply elem_of_nil in Hx.
Qed.

Lemma key_ok_type : key_ok "type".
Proof.
  split; [done|]. split; [split; reflexivity|]. split.
  - apply (bool_decide_unpack _). vm_compute. exact I.
  - intros x Hx. simpl in Hx.
    repeat (apply elem_of_cons in Hx as [->|Hx]; [repeat split; discriminate|]).
    by apply elem_of_nil in Hx.
Qed.

Lemma key_ok_as : key_ok "as".
Proof.
  split; [done|]. split; [split; reflexivity|]. split.
  - apply (bool_decide_unpack _). vm_compute. exact I.
  - intros x Hx. simpl in Hx.
    repeat (apply elem_of_cons in Hx as [->|Hx]; [repeat split; discriminate|]).
    by apply elem_of_nil in Hx.
Qed.

Lemma marker_fields_ok c :
  cell_fields_ok c → ∀ kv, kv ∈ marker_fields c → key_ok kv.1 ∧ field_ok kv.2.
Proof.
  intros (Hid & Hty & Has & _) kv. unfold marker_fields.
  intros [Hkv|[Hkv|Hkv]%elem_of_app]%elem_of_app.
  - apply list_elem_of_singleton in Hkv as ->. split; [apply key_ok_id | done].
  - case_decide; [|by apply elem_of_nil in Hkv].
    apply list_elem_of_singleton in Hkv as ->. split; [apply key_ok_type | done].
  - destruct (as_var c) as [v|]; [|by apply elem_of_nil in Hkv].
    destruct (Py.truthy v); [|by apply elem_of_nil in Hkv].
    apply list_elem_of_singleton in Hkv as ->. split; [apply key_ok_as | by apply Has].
Qed.

Lemma content_chars_field c x :
  cell_fields_ok c → x ∈ content_chars c → x ≠ "]"%char ∧ x ≠ "010"%char.
Proof.
  intros Hc Hx. apply join_chars_elem in Hx as [Hx|(p & Hp & Hx)].
  - repeat (apply elem_of_cons in Hx as [->|Hx]; [split; discriminate|]).
    by apply elem_of_nil in Hx.
  - apply list_elem_of_fmap in Hp as (kv & -> & Hkv).
    destruct (marker_fields_ok c Hc kv Hkv) as [Hk Hv].
    by destruct (part_chars_field kv x Hk Hv Hx) as (_ & ? & ?).
Qed.

Lemma content_chars_nonempty c : content_chars c ≠ [].
Proof.
  unfold content_chars, marker_fields. simpl.
  by destruct (list_fmap _ _ _ _).
Qed.

Lemma match_marker_written c :
  cell_fields_ok c → match_marker (marker_chars c) = Some (content_chars c).
Proof.
  intros Hc. unfold match_marker, marker_chars.
  assert ("]"%char ∉ content_chars c) as Hnb
    by (intros Hx; by destruct (content_chars_field c _ Hc Hx) as (? & _)).
  pose proof (content_chars_nonempty c) as Hne.
  generalize dependent (content_chars c). intros ct Hnb Hne.
  change (chars "# %% [") with (chars "# %%" ++ [" "%char; "["%char]).
  rewrite <- app_assoc, strip_prefix_app.
  change (Py.lstrip (([" "%char; "["%char]) ++ ct ++ ["]"%char]))
    with ("["%char :: ct ++ ["]"%char]).
  cbv beta iota zeta. rewrite take_until_app by done.
  destruct ct as [|a l]; [done|]. by rewrite drop_app_length.
Qed.

Lemma marker_chars_one_line c :
  cell_fields_ok c → "010"%char ∉ marker_chars c.
Proof.
  intros Hc. unfold marker_chars. intros [Hx|[Hx|Hx]%elem_of_app]%elem_of_app.
  - revert Hx. apply (bool_decide_unpack _). vm_compute. exact I.
  - by destruct (content_chars_field c _ Hc Hx) as (_ & ?).
  - by apply list_elem_of_singleton in Hx.
Qed.

(** the cell a marker written by the serializer starts *)
Lemma parse_marker_written c :
  cell_fields_ok c → as_var c ≠ Some "" →
  parse_marker (content_chars c) !! "id" = Some (id c) ∧
  default "python" (parse_marker (content_chars c) !! "type") = cell_type c ∧
  parse_marker (content_chars c) !! "as" = as_var c.
Proof.
  intros Hc Has. unfold content_chars.
  rewrite parse_marker_fields; [|by apply marker_fields_ok|].
  2:{ unfold marker_fields. done. }
  unfold marker_fields.
  destruct (decide (cell_type c ≠ "python")) as [Hty|Hty%dec_stable];
    destruct (as_var c) as [[|a v]|]; simpl; try done;
    rewrite ?Hty; repeat split; done.
Qed.

Lemma serialize_notebook_chars c cs :
  chars (serialize_notebook (c :: cs)) =
    Py.join_chars ["010"%char; "010"%char] (chars <$> (serialize_cell <$> (c :: cs)))
    ++ ["010"%char].
Proof.
  unfold serialize_notebook, Py.join. by rewrite chars_app, chars_str.
Qed.

Lemma serialize_notebook_lines cs :
  cs ≠ [] → Forall cell_fields_ok cs →
  Py.split_chars "010"%char (chars (serialize_notebook cs)) = concat (cell_lines <$> cs).
Proof.
  induction cs as [|c cs IH]; [done|]. intros _ [Hc Hcs]%Forall_cons.
  rewrite serialize_notebook_chars.
  assert (Py.split_chars "010"%char (chars (serialize_cell c) ++ ["010"%char])
          = cell_lines c) as Hcell.
  { rewrite serialize_cell_chars, <- app_assoc, <- app_comm_cons.
    rewrite split_chars_app_sep, split_chars_no_sep by by apply marker_chars_one_line.
    rewrite split_chars_app_sep. done. }
  destruct cs as [|c2 cs].
  - change (Py.split_chars "010"%char (chars (serialize_cell c) ++ ["010"%char])
            = cell_lines c ++ []).
    by rewrite Hcell, app_nil_r.
  - change (Py.join_chars ["010"%char; "010"%char]
              (chars <$> (serialize_cell <$> (c :: c2 :: cs))) ++ ["010"%char])
      with ((chars (serialize_cell c) ++ "010"%char :: "010"%char ::
              Py.join_chars ["010"%char; "010"%char]
                (chars <$> (serialize_cell <$> (c2 :: cs)))) ++ ["010"%char]).
    rewrite <- app_assoc, <- !app_comm_cons.
    rewrite split_chars_app_sep.
    rewrite <- serialize_notebook_chars.
    change (Py.split_chars "010"%char ("010"%char :: chars (serialize_notebook (c2 :: cs))))
      with ([] :: Py.split_chars "010"%char (chars (serialize_notebook (c2 :: cs)))).
    rewrite IH by done.
    rewrite split_chars_app_sep in Hcell.
    change (Py.split_chars "010"%char []) with [@nil ascii] in Hcell.
    change (concat (cell_lines <$> (c :: c2 :: cs)))
      with (cell_lines c ++ concat (cell_lines <$> (c2 :: cs))).
    rewrite <- Hcell, <- app_assoc. done.
Qed.

Section reparse.
Context {ids : IdSource}.

Lemma fold_code_lines (lines : list (list ascii)) :
  ∀ st c0,
    (∀ l, l ∈ lines → match_marker l = None) →
    ps_current_cell st = Some c0 →
    fold_left parse_line lines st =
      mkParse (ps_cells st) (Some c0) (ps_current_code_lines st ++ lines) (ps_calls st).
Proof.
  induction lines as [|l lines IH]; intros st c0 Hl Hcur; simpl.
  - rewrite app_nil_r. destruct st. simpl in *. by rewrite Hcur.
  - assert (parse_line st l =
            mkParse (ps_cells st) (Some c0) (ps_current_code_lines st ++ [l]) (ps_calls st))
      as ->.
    { unfold parse_line. rewrite (Hl l) by apply list_elem_of_here. by rewrite Hcur. }
    rewrite (IH _ c0); simpl; [by rewrite <- app_assoc | | done].
    intros; apply Hl; by apply list_elem_of_further.
Qed.

Lemma code_read_back (code : list ascii) :
  stripped code →
  Py.strip_chars (Py.join_chars ["010"%char] (Py.split_chars "010"%char code ++ [[]]))
  = code.
Proof.
  intros Hs. rewrite join_chars_snoc by apply split_chars_nonempty.
  rewrite join_split_chars, app_nil_r.
  unfold Py.strip_chars. pose proof (stripped_no_lead _ Hs) as Hl. destruct Hs as [_ Hr].
  destruct code as [|c0 code]; [done|].
  rewrite no_lead_lstrip by done. by rewrite rstrip_app.
Qed.

(** reading the lines of one written cell closes the cell before it and
    leaves this one open with its source lines *)
Lemma read_cell_lines st c :
  cell_fields_ok c → survives_serialization c →
  close_cell (fold_left parse_line (cell_lines c) st) = close_cell st ++ [c] ∧
  ∃ c0, ps_current_cell (fold_left parse_line (cell_lines c) st) = Some c0.
Proof.
  intros Hc [Has Hlines]. unfold cell_lines. simpl fold_left.
  destruct (parse_marker_written c Hc Has) as (Hid & Hty & Hasv).
  assert (parse_line st (marker_chars c) =
          mkParse (close_cell st)
                  (Some (mkCell (id c) "" (cell_type c) (as_var c))) []
                  (S (ps_calls st))) as ->.
  { unfold parse_line. rewrite match_marker_written by done.
    cbv zeta. by rewrite Hid, Hty, Hasv. }
  erewrite fold_code_lines; [|intros l Hl|reflexivity].
  2:{ apply elem_of_app in Hl as [Hl|Hl]; [by apply Hlines|].
      by apply list_elem_of_singleton in Hl as ->. }
  split; [|by eauto]. unfold close_cell. simpl.
  rewrite code_read_back by apply Hc. rewrite str_chars. by destruct c.
Qed.

Lemma read_cells cs :
  ∀ st,
    Forall cell_fields_ok cs → Forall survives_serialization cs →
    close_cell (fold_left parse_line (concat (cell_lines <$> cs)) st) = close_cell st ++ cs.
Proof.
  induction cs as [|c cs IH]; intros st Hok Hsv.
  - simpl. by rewrite app_nil_r.
  - apply Forall_cons in Hok as [Hc Hok]. apply Forall_cons in Hsv as [Hs Hsv].
    change (concat (cell_lines <$> (c :: cs)))
      with (cell_lines c ++ concat (cell_lines <$> cs)).
    rewrite fold_left_app, IH by done.
    destruct (read_cell_lines st c Hc Hs) as [-> _]. by rewrite <- app_assoc.
Qed.

(** Parsing what the serializer wrote gives the cells back. *)
Lemma parse_serialize cs :
  Forall cell_fields_ok cs → Forall survives_serialization cs →
  parse_notebook (serialize_notebook cs) = cs.
Proof.
  intros Hok Hsv. unfold parse_notebook.
  destruct cs as [|c cs]; [done|].
  rewrite serialize_notebook_lines by done.
  by rewrite read_cells.
Qed.
End reparse.

(** C9, as the code has it. For every notebook text whose parsed cells
    have no empty output name and no source line that is itself a cell
    marker, serializing the parsed cells and parsing the result gives the
    same cells again: identifiers, kinds, output names and sources. The
    identifiers drawn for markers without one are eight hexadecimal
    characters. *)
Theorem parse_serialize_parse (ids ids' : IdSource) (content : string) :
  (∀ n, is_hex8 (@generate_cell_id ids n)) →
  Forall survives_serialization (@parse_notebook ids content) →
  @parse_notebook ids' (serialize_notebook (@parse_notebook ids content))
  = @parse_notebook ids content.
Proof.
  intros Hids Hsv. apply parse_serialize; [|done].
  by apply parse_notebook_fields.
Qed.

Lemma parse_serialize_parse_witness :
  @parse_notebook Sample.ids
    (serialize_notebook (@parse_notebook Sample.ids Sample.nb_two_cells))
  = @parse_notebook Sample.ids Sample.nb_two_cells.
Proof.
  apply (parse_serialize_parse Sample.ids Sample.ids Sample.nb_two_cells).
  - intros n. split; reflexivity.
  - apply (bool_decide_unpack _). vm_compute. exact I.
Defined.

(** C9 as stated fails. A source line that is a marker behind leading white
    space is stripped into a marker and read back as a second cell; an empty
    output name is not written and is read back as no output name. *)
Lemma reparse_differs :
  @parse_notebook Sample.ids
    (serialize_notebook (@parse_notebook Sample.ids Sample.nb_indented_marker))
  ≠ @parse_notebook Sample.ids Sample.nb_indented_marker
  ∧
  as_var <$> @parse_notebook Sample.ids
    (serialize_notebook (@parse_notebook Sample.ids Sample.nb_empty_as))
  ≠ as_var <$> @parse_notebook Sample.ids Sample.nb_empty_as.
Proof. split; vm_compute; discriminate. Qed.

(** * More facts, about the rest of the code *)

Set Warnings "-clear-no-such-hyp".

(** ** Lists and loops *)

Lemma snoc_split {A} (l l1 l2 : list A) n x :
  l ++ [n] = l1 ++ x :: l2 →
  (l2 = [] ∧ x = n ∧ l1 = l) ∨ (∃ l2', l2 = l2' ++ [n] ∧ l = l1 ++ x :: l2').
Proof.
  destruct (decide (l2 = [])) as [->|Hne].
  - intros Heq. apply app_inj_tail in Heq as [-> ->]. by left.
  - destruct (exists_last Hne) as (l2' & y & ->). intros Heq.
    rewrite app_comm_cons, app_assoc in Heq.
    apply app_inj_tail in Heq as [-> ->]. right. by exists l2'.
Qed.

Lemma NoDup_split_unique {A} (l1 l2 l1' l2' : list A) x :
  NoDup (l1 ++ x :: l2) → l1 ++ x :: l2 = l1' ++ x :: l2' → l1 = l1'.
Proof.
  revert l1'. induction l1 as [|a l1 IH]; intros l1' Hnd Heq.
  - destruct l1' as [|b l1']; [done|]. simpl in *. injection Heq as <- Heq.
    apply NoDup_cons in Hnd as [Hx _]. exfalso. apply Hx. rewrite Heq.
    apply elem_of_app. right. apply list_elem_of_here.
  - destruct l1' as [|b l1']; simpl in *.
    + injection Heq as -> Heq. apply NoDup_cons in Hnd as [Hx _]. exfalso. apply Hx.
      apply elem_of_app. right. apply list_elem_of_here.
    + injection Heq as <- Heq. apply NoDup_cons in Hnd as [_ Hnd]. f_equal. by apply IH.
Qed.



Lemma fold_res_cons {A B} (f : A → B → res A) b l a :
  fold_res f (b :: l) a = f a b ≫= fold_res f l.
Proof. done. Qed.

Lemma res_bind_Ok {A B} (a : A) (k : A → res B) : Ok a ≫= k = k a.
Proof. done. Qed.

(** ** The walk of the analyzer *)

(** ** The walk as a pass over the occurrences *)



(** ** What a pass over the occurrences collects *)






Section analyzer_theorems.
Context {parser : AstParser}.

End analyzer_theorems.


(** ** The edges of the graph *)

Section graph_edges.
Context {parser : AstParser}.

Lemma analyses_fold_other (cells : list Cell) :
  ∀ (acc : gmap string CellAnalysis) k, k ∉ id <$> cells →
    fold_left (fun m cell => <[id cell := analyze_cell cell]> m) cells acc !! k = acc !! k.
Proof.
  induction cells as [|c cells IH]; intros acc k Hk; simpl; [done|].
  rewrite fmap_cons, not_elem_of_cons in Hk. destruct Hk as [Hne Hk].
  rewrite IH by done. by rewrite lookup_insert_ne.
Qed.

(** with distinct identifiers, the analysis kept for a cell is its own *)
Lemma analyses_of_lookup (cells : list Cell) c :
  NoDup (id <$> cells) → c ∈ cells →
  analyses_of cells !!! id c = analyze_cell c.
Proof.
  unfold analyses_of. generalize (∅ : gmap string CellAnalysis).
  induction cells as [|c0 cells IH]; intros acc Hnd Hc; [by apply elem_of_nil in Hc|].
  rewrite fmap_cons in Hnd. apply NoDup_cons in Hnd as [Hc0 Hnd].
  apply elem_of_cons in Hc as [->|Hc]; simpl.
  - rewrite lookup_total_alt, analyses_fold_other by done.
    by rewrite lookup_insert_eq.
  - by apply IH.
Qed.

Lemma insert_all_lookup (cid : string) (vars : list string) :
  ∀ (m : gmap string string) v,
    fold_left (fun m var => <[var := cid]> m) vars m !! v =
    if decide (v ∈ vars) then Some cid else m !! v.
Proof.
  induction vars as [|x vars IH]; intros m v; simpl.
  - done.
  - rewrite IH. destruct (decide (v ∈ vars)) as [Hin|Hnin].
    + rewrite decide_True; [done | by right].
    + destruct (decide (x = v)) as [->|Hne].
      * rewrite lookup_insert_eq. rewrite decide_True; [done | apply list_elem_of_here].
      * rewrite lookup_insert_ne by done. rewrite decide_False; [done|].
        rewrite not_elem_of_cons. split; [by intros -> | done].
Qed.

(** the variable map of the graph builder: the last writer of a variable *)
Lemma var_to_cell_fold_spec (G : Cell → gset string) (acc : gmap string string)
    (cells : list Cell) v d :
  fold_left (fun m cell =>
    fold_left (fun m var => <[var := id cell]> m) (elements (G cell)) m) cells acc !! v
  = Some d ↔
  (∃ pre w post, cells = pre ++ w :: post ∧ v ∈ G w ∧
                 (∀ c, c ∈ post → v ∉ G c) ∧ d = id w)
  ∨ ((∀ c, c ∈ cells → v ∉ G c) ∧ acc !! v = Some d).
Proof.
  induction cells as [|c cells IH] using rev_ind; simpl.
  - split.
    + intros Hacc. right. split; [by intros c ?%elem_of_nil | done].
    + intros [(pre & w & post & Heq & _)|[_ ?]]; [|done]. by destruct pre.
  - rewrite fold_left_app. simpl. rewrite insert_all_lookup.
    destruct (decide (v ∈ elements (G c))) as [Hin|Hnin].
    + rewrite elem_of_elements in Hin. split.
      * intros [= <-]. left. exists cells, c, []. split_and!; try done.
        by intros c0 ?%elem_of_nil.
      * intros [(pre & w & post & Heq & Hw & Hpost & ->)|[Hall _]].
        -- apply snoc_split in Heq as [(_ & -> & _)|(post' & -> & _)]; [done|].
           exfalso. apply (Hpost c); [|done]. apply elem_of_app. right.
           apply list_elem_of_here.
        -- exfalso. apply (Hall c); [|done]. apply elem_of_app. right.
           apply list_elem_of_here.
    + rewrite elem_of_elements in Hnin. rewrite IH. split.
      * intros [(pre & w & post & -> & Hw & Hpost & ->)|[Hall Hacc]].
        -- left. exists pre, w, (post ++ [c]). split_and!; try done.
           ++ by rewrite <- app_assoc.
           ++ intros c0 [? | ->%list_elem_of_singleton]%elem_of_app; [by apply Hpost | done].
        -- right. split; [|done].
           intros c0 [? | ->%list_elem_of_singleton]%elem_of_app; [by apply Hall | done].
      * intros [(pre & w & post & Heq & Hw & Hpost & ->)|[Hall Hacc]].
        -- apply snoc_split in Heq as [(_ & -> & _)|(post' & -> & ->)]; [done|].
           left. exists pre, w, post'. split_and!; try done.
           intros c0 Hc0. apply Hpost. apply elem_of_app. by left.
        -- right. split; [|done]. intros c0 Hc0. apply Hall. apply elem_of_app. by left.
Qed.

Lemma dependencies_of_spec v2c a cid d :
  d ∈ dependencies_of v2c a cid ↔
  d ≠ cid ∧ ∃ var, var ∈ reads a ∧ v2c !! var = Some d.
Proof.
  unfold dependencies_of.
  assert (∀ l (acc : gset string),
    d ∈ fold_left (fun deps var =>
      match v2c !! var with
      | Some upstream_cell =>
          if decide (upstream_cell ≠ cid) then {[upstream_cell]} ∪ deps else deps
      | None => deps
      end) l acc ↔
    d ∈ acc ∨ (d ≠ cid ∧ ∃ var, var ∈ l ∧ v2c !! var = Some d)) as Hfold.
  { induction l as [|x l IH]; intros acc; simpl.
    - split; [by left | intros [?|(_ & ? & ?%elem_of_nil & _)]; done].
    - rewrite IH. split.
      + intros [Hacc|(Hne & var & Hvar & Hv)].
        * destruct (v2c !! x) as [u|] eqn:Hx; [|by left].
          destruct (decide (u ≠ cid)); [|by left].
          apply elem_of_union in Hacc as [->%elem_of_singleton|?]; [|by left].
          right. split; [done|]. exists x. split; [apply list_elem_of_here | done].
        * right. split; [done|]. exists var. split; [by right | done].
      + intros [Hacc|(Hne & var & [->|Hvar]%elem_of_cons & Hv)].
        * left. destruct (v2c !! x) as [u|]; [|done].
          destruct (decide (u ≠ cid)); [|done]. apply elem_of_union. by right.
        * left. rewrite Hv. rewrite decide_True by done.
          apply elem_of_union. left. by apply elem_of_singleton.
        * right. split; [done|]. by exists var. }
  rewrite Hfold. setoid_rewrite elem_of_elements.
  split; [intros [?%not_elem_of_empty|?]; done | by right].
Qed.

Lemma dict_set_fold_lookup (F : Cell → gset string) (cells : list Cell) :
  (∀ c c', id c = id c' → F c = F c') →
  ∀ acc c, c ∈ cells →
    dict_get (fold_left (fun graph cell => dict_set (id cell) (F cell) graph) cells acc)
             (id c) = Some (F c).
Proof.
  intros HF acc c Hc.
  destruct (build_graph_fold_spec F cells acc) as (_ & Hk & Hg).
  destruct (dict_get _ (id c)) as [deps|] eqn:Hget.
  - revert acc deps Hk Hg Hget. induction cells as [|c0 cells IH]; intros acc deps Hk Hg Hget.
    + by apply elem_of_nil in Hc.
    + simpl in Hget. apply elem_of_cons in Hc as [->|Hc].
      * destruct (build_graph_fold_spec F cells (dict_set (id c0) (F c0) acc))
          as (_ & _ & Hg').
        destruct (Hg' _ _ Hget) as [(c' & Hid & ->)|Hset].
        -- f_equal. by apply HF.
        -- rewrite dict_get_set, decide_True in Hset by done. done.
      * destruct (build_graph_fold_spec F cells (dict_set (id c0) (F c0) acc))
          as (_ & Hk' & Hg').
        by eapply (IH Hc (dict_set (id c0) (F c0) acc)).
  - exfalso. apply dict_get_None in Hget. apply Hget, Hk. right.
    apply list_elem_of_fmap. by exists c.
Qed.

(** the upstream set the graph holds for a cell *)
Lemma build_dependency_graph_lookup (cells : list Cell) c :
  c ∈ cells →
  dict_get (build_dependency_graph cells) (id c) =
  Some (dependencies_of (var_to_cell_of (analyses_of cells) cells)
          (analyses_of cells !!! id c) (id c)).
Proof.
  intros Hc. unfold build_dependency_graph.
  apply (dict_set_fold_lookup
           (fun cell => dependencies_of (var_to_cell_of (analyses_of cells) cells)
                          (analyses_of cells !!! id cell) (id cell))); [|done].
  by intros c1 c2 ->.
Qed.

(** every dependency is the identifier of a cell of the list *)
Lemma build_dependency_graph_closed (cells : list Cell) k deps d :
  dict_get (build_dependency_graph cells) k = Some deps → d ∈ deps → d ∈ id <$> cells.
Proof.
  unfold build_dependency_graph.
  edestruct (build_graph_fold_spec) as (_ & _ & Hg).
  intros Hget Hd. destruct (Hg k deps Hget) as [(c & <- & ->)|?]; [|done].
  apply dependencies_of_spec in Hd as (_ & var & _ & Hv).
  unfold var_to_cell_of in Hv.
  apply (var_to_cell_fold_spec (fun cell => writes (analyses_of cells !!! id cell)))
    in Hv as [(pre & w & post & Heq & _ & _ & ->)|[_ Hemp]]; [|done].
  apply list_elem_of_fmap. exists w. split; [done|]. rewrite Heq.
  apply elem_of_app. right. apply list_elem_of_here.
Qed.

Lemma var_to_cell_last_writer (cells : list Cell) v d :
  NoDup (id <$> cells) →
  var_to_cell_of (analyses_of cells) cells !! v = Some d ↔
  ∃ w, last_writer cells v w ∧ id w = d.
Proof.
  intros Hnd. unfold var_to_cell_of.
  rewrite (var_to_cell_fold_spec (fun cell => writes (analyses_of cells !!! id cell))).
  split.
  - intros [(pre & w & post & Heq & Hw & Hpost & ->)|[_ ?]]; [|done].
    exists w. split; [|done]. exists pre, post. split_and!; [done| |].
    + rewrite <- (analyses_of_lookup cells w); [done|done|].
      rewrite Heq. apply elem_of_app. right. apply list_elem_of_here.
    + intros c Hc. rewrite <- (analyses_of_lookup cells c); [by apply Hpost|done|].
      rewrite Heq. apply elem_of_app. right. by right.
  - intros (w & (pre & post & Heq & Hw & Hpost) & <-). left.
    exists pre, w, post. split_and!; [done| | |done].
    + rewrite (analyses_of_lookup cells w); [done|done|].
      rewrite Heq. apply elem_of_app. right. apply list_elem_of_here.
    + intros c Hc. rewrite (analyses_of_lookup cells c); [by apply Hpost|done|].
      rewrite Heq. apply elem_of_app. right. by right.
Qed.

(** The edges of the graph, for cells with distinct identifiers: a cell
    depends on another cell exactly when it reads a variable whose last
    writer in the list is that other cell. *)
Lemma build_dependency_graph_edges (cells : list Cell) c :
  NoDup (id <$> cells) → c ∈ cells →
  ∃ deps, dict_get (build_dependency_graph cells) (id c) = Some deps ∧
    ∀ d, d ∈ deps ↔
      d ≠ id c ∧ ∃ var w, var ∈ reads (analyze_cell c) ∧
                          last_writer cells var w ∧ id w = d.
Proof.
  intros Hnd Hc. eexists. split; [by apply build_dependency_graph_lookup|].
  intros d. rewrite dependencies_of_spec, analyses_of_lookup by done.
  setoid_rewrite var_to_cell_last_writer; [|done]. naive_solver.
Qed.
End graph_edges.

(** ** The topological sort *)

Section topo_facts.
Variable sg : gmap string (gset string).
Variable ids : gset string.
Hypothesis sg_closed : ∀ k deps, sg !! k = Some deps → deps ⊆ ids.

Lemma topo_visit_eq fuel st node :
  topo_visit fuel sg st node =
  if decide (node ∈ ts_temp_visited st) then Ok st
  else if decide (node ∈ ts_visited st) then Ok st
  else
    match fuel with
    | 0 => Raise OutOfFuel
    | S fuel =>
        let st := mkTopo (ts_result st) (ts_visited st) ({[node]} ∪ ts_temp_visited st) in
        st ← fold_res (topo_visit fuel sg)
               (elements (default ∅ (sg !! node))) st;
        Ok (mkTopo (ts_result st ++ [node]) ({[node]} ∪ ts_visited st)
                   (ts_temp_visited st ∖ {[node]}))
    end.
Proof. by destruct fuel. Qed.

Lemma sub_dep_elements a b : b ∈ elements (default ∅ (sg !! a)) ↔ sub_dep sg a b.
Proof.
  rewrite elem_of_elements. unfold sub_dep. destruct (sg !! a) as [deps|]; simpl.
  - split; [by eauto | by intros (? & [= <-] & ?)].
  - split; [by intros ?%not_elem_of_empty | by intros (? & ? & ?)].
Qed.

(** the loop over the dependencies of a node, the recursive call being
    known to keep the invariant *)
Lemma topo_fold_spec fuel (T : gset string) (P : string → Prop) :
  (∀ st node, topo_inv sg ids st → P node →
     ts_temp_visited st = T → topo_post sg ids st node (topo_visit fuel sg st node)) →
  ∀ l st, (∀ d, d ∈ l → P d) → topo_inv sg ids st → ts_temp_visited st = T →
    match fold_res (topo_visit fuel sg) l st with
    | Raise _ => False
    | Ok st' =>
        topo_inv sg ids st' ∧ ts_temp_visited st' = T ∧
        ts_visited st ⊆ ts_visited st' ∧
        ∀ d, d ∈ l → d ∈ ts_visited st' ∨ d ∈ T
    end.
Proof.
  intros Hrec l. induction l as [|d l IH]; intros st Hl Hinv HT; simpl.
  - split_and!; try done. by intros d ?%elem_of_nil.
  - pose proof (Hrec st d Hinv (Hl d (list_elem_of_here _ _)) HT) as Hd.
    destruct (topo_visit fuel sg st d) as [st1|e]; simpl in *; [|done].
    destruct Hd as (Hinv1 & HT1 & Hsub1 & Hd1).
    assert (∀ d0, d0 ∈ l → P d0) as Hl' by (intros; apply Hl; by right).
    specialize (IH st1 Hl' Hinv1 (eq_trans HT1 HT)).
    destruct (fold_res _ l st1) as [st2|e]; [|done].
    destruct IH as (Hinv2 & HT2 & Hsub2 & Hd2).
    split_and!; try done.
    + set_solver.
    + intros d0 [->|Hin]%elem_of_cons; [|by apply Hd2].
      destruct Hd1 as [Hv|Ht]; [left; set_solver | right; by rewrite <- HT].
Qed.

Lemma topo_visit_spec fuel :
  ∀ st node, topo_inv sg ids st → node ∈ ids →
    (∀ t, t ∈ ts_temp_visited st → tc (sub_dep sg) t node) →
    size (ids ∖ ts_temp_visited st) ≤ fuel →
    topo_post sg ids st node (topo_visit fuel sg st node).
Proof.
  induction fuel as [|fuel IH]; intros st node Hinv Hnode Hanc Hfuel;
    rewrite topo_visit_eq.
  - destruct (decide _) as [Ht|Ht]; [by split_and!; auto|].
    destruct (decide _) as [Hv|Hv]; [by split_and!; auto|].
    assert (size (ids ∖ ts_temp_visited st) ≠ 0) as Hne.
    { apply size_non_empty_iff. intros He. set_solver. }
    lia.
  - destruct (decide _) as [Ht|Ht]; [by split_and!; auto|].
    destruct (decide _) as [Hv|Hv]; [by split_and!; auto|].
    cbv zeta.
    set (st1 := mkTopo (ts_result st) (ts_visited st) ({[node]} ∪ ts_temp_visited st)).
    assert (topo_inv sg ids st1) as Hinv1.
    { destruct Hinv. split; simpl; try done; set_solver. }
    assert (size (ids ∖ ({[node]} ∪ ts_temp_visited st)) ≤ fuel) as Hfuel1.
    { assert (ids ∖ ts_temp_visited st
              = {[node]} ∪ ids ∖ ({[node]} ∪ ts_temp_visited st)) as Heq.
      { apply set_eq. intros x. destruct (decide (x = node)); set_solver. }
      rewrite Heq, size_union, size_singleton in Hfuel by set_solver. lia. }
    pose proof (topo_fold_spec fuel ({[node]} ∪ ts_temp_visited st)
                  (fun d => sub_dep sg node d)) as Hfold.
    assert (∀ d, sub_dep sg node d → d ∈ ids) as Hdeps.
    { intros d (deps & Hdeps & Hd). by apply (sg_closed _ _ Hdeps). }
    assert (match fold_res (topo_visit fuel sg)
                    (elements (default (∅ : gset string) (sg !! node))) st1 with
            | Raise _ => False
            | Ok st' =>
                topo_inv sg ids st' ∧ ts_temp_visited st' = {[node]} ∪ ts_temp_visited st ∧
                ts_visited st1 ⊆ ts_visited st' ∧
                ∀ d, d ∈ elements (default (∅ : gset string) (sg !! node)) →
                     d ∈ ts_visited st' ∨ d ∈ ({[node]} ∪ ts_temp_visited st : gset string)
            end) as Hloop.
    { apply Hfold; try done.
      - intros st' n' Hinv' Hn' HT'. apply IH; try done.
        + by apply Hdeps.
        + rewrite HT'. intros t [->%elem_of_singleton|Ht']%elem_of_union.
          * by apply tc_once.
          * eapply tc_r; [by apply Hanc | done].
        + by rewrite HT'.
      - by intros d Hd%sub_dep_elements. }
    clear Hfold.
    destruct (fold_res _ _ st1) as [st2|e]; simpl; [|done].
    destruct Hloop as (Hinv2 & HT2 & Hsub2 & Hd2). simpl in Hsub2.
    assert (node ∉ ts_visited st2) as Hn2.
    { pose proof (ti_disj Hinv2). set_solver. }
    split_and!.
    + destruct Hinv2 as [Hnd Hvis Hids Htemp Hdisj Hord]. split; simpl.
      * apply NoDup_app. split_and!; [done| |apply NoDup_singleton].
        intros x Hx ->%list_elem_of_singleton. by apply Hvis in Hx.
      * intros x. rewrite elem_of_app, list_elem_of_singleton, Hvis. set_solver.
      * set_solver.
      * set_solver.
      * set_solver.
      * intros l1 x l2 d Heq Hdep.
        apply snoc_split in Heq as [(-> & -> & ->)|(l2' & -> & Heq)].
        -- destruct (Hd2 d) as [Hv2|Ht2].
           ++ by apply sub_dep_elements.
           ++ left. by apply Hvis.
           ++ right. apply elem_of_union in Ht2 as [->%elem_of_singleton|Ht2].
              ** by apply tc_once.
              ** by apply Hanc.
        -- by apply (Hord l1 x l2' d).
    + simpl. rewrite HT2. set_solver.
    + simpl. set_solver.
    + simpl. set_solver.
Qed.
End topo_facts.

Lemma subgraph_fold_lookup (ids : gset string) (g : dict (gset string)) :
  ∀ (acc : gmap string (gset string)) k,
    is_dict g → (∀ k', k' ∈ g.*1 → acc !! k' = None) →
    fold_left (fun m kv =>
      if decide (kv.1 ∈ ids) then <[kv.1 := kv.2 ∩ ids]> m else m) g acc !! k =
    match dict_get g k with
    | Some deps => if decide (k ∈ ids) then Some (deps ∩ ids) else None
    | None => acc !! k
    end.
Proof.
  induction g as [|[k' v] g IH]; intros acc k Hd Hacc; simpl; [done|].
  apply NoDup_cons in Hd as [Hk' Hd]. rewrite IH; [|done|].
  - destruct (decide (k' = k)) as [->|Hne].
    + assert (dict_get g k = None) as -> by by apply dict_get_None.
      destruct (decide (k ∈ ids)).
      * by rewrite lookup_insert_eq.
      * apply Hacc. simpl. apply list_elem_of_here.
    + destruct (dict_get g k); [done|].
      destruct (decide (k' ∈ ids)); [|done]. by rewrite lookup_insert_ne.
  - intros k0 Hk0. assert (k' ≠ k0) by (intros ->; done).
    destruct (decide (k' ∈ ids)).
    + rewrite lookup_insert_ne by done. apply Hacc. simpl. by right.
    + apply Hacc. simpl. by right.
Qed.

Lemma subgraph_of_lookup (g : dict (gset string)) (ids : gset string) k :
  is_dict g →
  subgraph_of g ids !! k =
  if decide (k ∈ ids) then (fun deps => deps ∩ ids) <$> dict_get g k else None.
Proof.
  intros Hd. unfold subgraph_of. rewrite subgraph_fold_lookup; [|done|done].
  destruct (dict_get g k); simpl; [done|]. rewrite lookup_empty. by destruct (decide _).
Qed.

Lemma sub_dep_subgraph (g : dict (gset string)) (ids : gset string) a b :
  is_dict g →
  sub_dep (subgraph_of g ids) a b ↔ depends_on g a b ∧ a ∈ ids ∧ b ∈ ids.
Proof.
  intros Hd. unfold sub_dep, depends_on. rewrite subgraph_of_lookup by done.
  destruct (decide (a ∈ ids)) as [Ha|Ha].
  - destruct (dict_get g a) as [deps|]; simpl.
    + split.
      * intros (? & [= <-] & [? ?]%elem_of_intersection). eauto.
      * intros ((? & [= <-] & ?) & _ & ?). eexists. split; [done|]. set_solver.
    + split; [by intros (? & ? & ?) | by intros ((? & ? & ?) & _)].
  - split; [by intros (? & ? & ?) | by intros (_ & ? & _)].
Qed.

Lemma tc_sub_dep_subgraph (g : dict (gset string)) (ids : gset string) a b :
  is_dict g → tc (sub_dep (subgraph_of g ids)) a b → tc (depends_on g) a b.
Proof.
  intros Hd. apply tc_congruence with (f := fun x => x).
  intros x y Hxy. by apply sub_dep_subgraph in Hxy as [? _].
Qed.

(** [topological_sort] returns the requested cells, once each; in the list
    a cell stands after each of its dependencies among them, those that
    lie on a cycle with it apart. *)
Lemma topological_sort_spec (g : dict (gset string)) (cell_ids : gset string) :
  is_dict g →
  ∃ order, topological_sort g cell_ids = Ok order ∧
    NoDup order ∧
    (∀ x, x ∈ order ↔ x ∈ cell_ids) ∧
    (∀ l1 x l2 d, order = l1 ++ x :: l2 → depends_on g x d → d ∈ cell_ids →
       d ∈ l1 ∨ tc (depends_on g) d x).
Proof.
  intros Hd. unfold topological_sort.
  set (sg := subgraph_of g cell_ids).
  assert (∀ k deps, sg !! k = Some deps → deps ⊆ cell_ids) as Hclosed.
  { intros k deps. unfold sg. rewrite subgraph_of_lookup by done.
    destruct (decide _); [|done]. destruct (dict_get g k); simpl; [|done].
    intros [= <-]. set_solver. }
  assert (∀ l st, (∀ x, x ∈ l → x ∈ cell_ids) →
            topo_inv sg cell_ids st → ts_temp_visited st = ∅ →
            match fold_res (fun st cell_id =>
                    if decide (cell_id ∈ ts_visited st) then Ok st
                    else topo_visit (S (size cell_ids)) sg st cell_id) l st with
            | Raise _ => False
            | Ok st' => topo_inv sg cell_ids st' ∧ ts_temp_visited st' = ∅ ∧
                        ts_visited st ⊆ ts_visited st' ∧
                        ∀ x, x ∈ l → x ∈ ts_visited st'
            end) as Hloop.
  { induction l as [|x l IH]; intros st Hl Hinv HT; simpl.
    - split_and!; try done. by intros x ?%elem_of_nil.
    - assert (match (if decide (x ∈ ts_visited st) then Ok st
                     else topo_visit (S (size cell_ids)) sg st x) with
              | Raise _ => False
              | Ok st1 => topo_inv sg cell_ids st1 ∧ ts_temp_visited st1 = ∅ ∧
                          ts_visited st ⊆ ts_visited st1 ∧ x ∈ ts_visited st1
              end) as Hx.
      { destruct (decide _) as [Hv|Hv]; [done|].
        pose proof (topo_visit_spec sg cell_ids Hclosed (S (size cell_ids)) st x Hinv) as Hv1.
        destruct (topo_visit _ sg st x) as [st1|e].
        - destruct Hv1 as (? & HT1 & ? & Hor).
          + apply Hl. apply list_elem_of_here.
          + rewrite HT. by intros t ?%not_elem_of_empty.
          + rewrite HT. rewrite difference_empty_L. lia.
          + split_and!; try done; [by rewrite HT1|].
            destruct Hor as [?|Hor]; [done|]. rewrite HT in Hor.
            by apply not_elem_of_empty in Hor.
        - apply Hv1.
          + apply Hl. apply list_elem_of_here.
          + rewrite HT. by intros t ?%not_elem_of_empty.
          + rewrite HT. rewrite difference_empty_L. lia. }
      destruct (if decide (x ∈ ts_visited st) then _ else _) as [st1|e]; simpl; [|done].
      destruct Hx as (Hinv1 & HT1 & Hsub1 & Hx1).
      specialize (IH st1). destruct (fold_res _ l st1) as [st2|e].
      + destruct IH as (Hinv2 & HT2 & Hsub2 & Hl2); try done.
        { intros; apply Hl; by right. }
        split_and!; try done; [set_solver|].
        intros y [->|Hy]%elem_of_cons; [set_solver | by apply Hl2].
      + apply IH; try done. intros; apply Hl; by right. }
  specialize (Hloop (elements cell_ids) (mkTopo [] ∅ ∅)).
  destruct (fold_res _ (elements cell_ids) _) as [st|e]; simpl.
  - destruct Hloop as (Hinv & HT & _ & Hall).
    + intros x. by rewrite elem_of_elements.
    + split; simpl; try done; [apply NoDup_nil_2 | set_solver | ].
      intros l1 x l2 d Heq. by destruct l1.
    + done.
    + exists (ts_result st). split; [done|]. destruct Hinv as [Hnd Hvis Hids _ _ Hord].
      split_and!; [done| |].
      * intros x. rewrite Hvis. split; [set_solver|].
        intros Hx. apply Hall. by apply elem_of_elements.
      * intros l1 x l2 d Heq Hdep Hdin.
        assert (x ∈ cell_ids) as Hxin.
        { apply Hids, Hvis. rewrite Heq. apply elem_of_app. right. apply list_elem_of_here. }
        destruct (Hord l1 x l2 d Heq) as [?|Htc]; [|by left|].
        -- by apply sub_dep_subgraph.
        -- right. by eapply tc_sub_dep_subgraph.
  - exfalso. apply Hloop; try done.
    + intros x. by rewrite elem_of_elements.
    + split; simpl; try done; [apply NoDup_nil_2 | set_solver | ].
      intros l1 x l2 d Heq. by destruct l1.
Qed.

(** ** The execution order *)

Section order_facts.
Context {parser : AstParser}.

Lemma tc_depends_on_target (cells : list Cell) x y :
  tc (depends_on (build_dependency_graph cells)) x y → y ∈ id <$> cells.
Proof.
  induction 1 as [x y (deps & Hget & Hin)|]; [|done].
  by eapply build_dependency_graph_closed.
Qed.

(** The execution order of an acyclic notebook: the changed cell and the
    cells that depend on it, once each, the changed cell first and every
    cell after the cells it depends on. *)
Lemma get_execution_order_acyclic (cells : list Cell) (changed_cell_id : string) :
  ¬ has_cycle (build_dependency_graph cells) →
  ∃ order, get_execution_order cells changed_cell_id = Ok (order, None) ∧
    NoDup order ∧
    (∀ x, x ∈ order ↔
          x = changed_cell_id ∨
          tc (depends_on (build_dependency_graph cells)) x changed_cell_id) ∧
    head order = Some changed_cell_id ∧
    (∀ l1 x l2 d, order = l1 ++ x :: l2 →
       depends_on (build_dependency_graph cells) x d → d ∈ order → d ∈ l1).
Proof.
  intros Hacyc. unfold get_execution_order.
  set (g := build_dependency_graph cells) in *.
  rewrite (detect_cycle_sound g Hacyc). simpl.
  pose proof (build_dependency_graph_is_dict cells) as Hd. fold g in Hd.
  destruct (get_downstream_cells_exact g changed_cell_id Hd) as (s & -> & Hs). simpl.
  assert (∀ x, x ∈ s ↔ tc (depends_on g) x changed_cell_id) as Hs'.
  { intros x. rewrite Hs. split; [by intros [_ ?]|]. intros Htc. split; [|done].
    apply build_dependency_graph_keys. by eapply tc_depends_on_target. }
  destruct (topological_sort_spec g (s ∪ {[changed_cell_id]}) Hd)
    as (order & -> & Hnd & Hmem & Hord). simpl.
  exists order. split; [done|].
  assert (∀ x, x ∈ order ↔ x = changed_cell_id ∨ tc (depends_on g) x changed_cell_id)
    as Hmem'.
  { intros x. rewrite Hmem, elem_of_union, elem_of_singleton, Hs'. tauto. }
  assert (∀ l1 x l2 d, order = l1 ++ x :: l2 → depends_on g x d → d ∈ order → d ∈ l1)
    as Hord'.
  { intros l1 x l2 d Heq Hdep Hin.
    destruct (Hord l1 x l2 d Heq Hdep) as [?|Htc]; [by apply Hmem|done|].
    exfalso. apply Hacyc. exists x. eapply tc_l; [done|]. done. }
  split_and!; try done.
  destruct order as [|h t] eqn:Ho.
  { exfalso. eapply not_elem_of_nil, Hmem'. by left. }
  simpl. f_equal. destruct (decide (h = changed_cell_id)) as [|Hne]; [done|].
  assert (tc (depends_on g) h changed_cell_id) as Htc.
  { destruct (proj1 (Hmem' h)) as [?|?]; [apply list_elem_of_here|done|done]. }
  assert (∃ d, depends_on g h d ∧ d ∈ h :: t) as (d & Hdep & Hin).
  { inversion Htc as [? ? Hdep|? d ? Hdep Htc']; subst.
    - exists changed_cell_id. split; [done|]. apply Hmem'. by left.
    - exists d. split; [done|]. apply Hmem'. by right. }
  exfalso. eapply not_elem_of_nil. by apply (Hord' [] h t d).
Qed.
End order_facts.

(** ** What the graph functions return *)

Section graph_theorems.
Context {parser : AstParser}.

(** X9. The graph that [build_dependency_graph] returns has one entry for
    each identifier of the list and no other; no cell is in its own upstream
    set, and every member of an upstream set is the identifier of a cell of
    the list. *)
Theorem build_dependency_graph_well_formed (cells : list Cell) :
  is_dict (build_dependency_graph cells) ∧
  (∀ k, k ∈ (build_dependency_graph cells).*1 ↔ k ∈ id <$> cells) ∧
  (∀ k deps, dict_get (build_dependency_graph cells) k = Some deps →
     (k ∉ deps) ∧ ∀ d, d ∈ deps → d ∈ id <$> cells).
Proof.
  split_and!.
  - apply build_dependency_graph_is_dict.
  - apply build_dependency_graph_keys.
  - intros k deps Hget. split.
    + by apply (build_dependency_graph_no_self cells k deps).
    + intros d Hd. by eapply build_dependency_graph_closed.
Qed.

(** X10. For cells with distinct identifiers, a cell depends on another
    cell exactly when it reads a variable whose last writer in the list is
    that other cell: of several cells that write a variable the last one
    wins, and a cell that is itself the last writer gets no edge. *)
Theorem build_dependency_graph_last_writer_wins (cells : list Cell) c :
  NoDup (id <$> cells) → c ∈ cells →
  ∃ deps, dict_get (build_dependency_graph cells) (id c) = Some deps ∧
    ∀ d, d ∈ deps ↔
      d ≠ id c ∧ ∃ var w, var ∈ reads (analyze_cell c) ∧
                          last_writer cells var w ∧ id w = d.
Proof. apply build_dependency_graph_edges. Qed.

(** X11. For cells with distinct identifiers, a query cell has an empty
    upstream set, whatever the other cells write. *)
Theorem sql_cell_has_no_upstream (cells : list Cell) c :
  NoDup (id <$> cells) → c ∈ cells → cell_type c = "sql" →
  dict_get (build_dependency_graph cells) (id c) = Some ∅.
Proof.
  intros Hnd Hc Hsql.
  destruct (build_dependency_graph_edges cells c Hnd Hc) as (deps & -> & Hdeps).
  f_equal. apply set_eq. intros d. rewrite Hdeps. split; [|by intros ?%not_elem_of_empty].
  intros (_ & var & w & Hvar & _). unfold analyze_cell in Hvar.
  rewrite decide_True in Hvar by done. by apply not_elem_of_empty in Hvar.
Qed.
End graph_theorems.

(** X12. [detect_cycle] ends without an error on every graph, and it returns
    nothing exactly when the graph has no dependency cycle. *)
Theorem detect_cycle_none_iff_acyclic (g : dict (gset string)) :
  (∀ e, detect_cycle g ≠ Raise e) ∧
  (detect_cycle g = Ok None ↔ ¬ has_cycle g).
Proof.
  pose proof (detect_cycle_spec g) as Hspec. split.
  - intros e He. by rewrite He in Hspec.
  - split; [by apply detect_cycle_None_acyclic | by apply detect_cycle_sound].
Qed.

(** X13. The set that [get_downstream_cells] returns for a cell of the graph
    holds exactly the cells that depend on it through one or more edges;
    for an identifier that is not in the graph it is empty. *)
Theorem get_downstream_cells_is_transitive_closure (g : dict (gset string))
    (cell_id : string) :
  is_dict g →
  ∃ s, get_downstream_cells g cell_id = Ok s ∧
       (∀ x, x ∈ s ↔ cell_id ∈ g.*1 ∧ tc (depends_on g) x cell_id) ∧
       (cell_id ∉ g.*1 → s = ∅).
Proof.
  intros Hd. destruct (get_downstream_cells_exact g cell_id Hd) as (s & Hs & Hx).
  exists s. split_and!; [done|done|].
  intros Hk. apply set_eq. intros x. rewrite Hx.
  split; [by intros [? _] | by intros ?%not_elem_of_empty].
Qed.

(** X14. [topological_sort] ends without an error and returns the requested
    cells, once each; in the list every cell stands after each of its
    dependencies among the requested cells, a dependency that lies on a
    cycle with it apart. *)
Theorem topological_sort_dependencies_first (g : dict (gset string))
    (cell_ids : gset string) :
  is_dict g →
  ∃ order, topological_sort g cell_ids = Ok order ∧
    NoDup order ∧
    (∀ x, x ∈ order ↔ x ∈ cell_ids) ∧
    (∀ l1 x l2 d, order = l1 ++ x :: l2 → depends_on g x d → d ∈ cell_ids →
       d ∈ l1 ∨ tc (depends_on g) d x).
Proof. apply topological_sort_spec. Qed.

(** X15. For an acyclic notebook [get_execution_order] reports no cycle and
    returns the changed cell and the cells that depend on it, once each,
    the changed cell first and every cell after the cells it depends on. *)
Theorem get_execution_order_of_acyclic `{AstParser} (cells : list Cell)
    (changed_cell_id : string) :
  ¬ has_cycle (build_dependency_graph cells) →
  ∃ order, get_execution_order cells changed_cell_id = Ok (order, None) ∧
    NoDup order ∧
    (∀ x, x ∈ order ↔
          x = changed_cell_id ∨
          tc (depends_on (build_dependency_graph cells)) x changed_cell_id) ∧
    head order = Some changed_cell_id ∧
    (∀ l1 x l2 d, order = l1 ++ x :: l2 →
       depends_on (build_dependency_graph cells) x d → d ∈ order → d ∈ l1).
Proof. apply get_execution_order_acyclic. Qed.

Lemma build_dependency_graph_last_writer_wins_witness :
  ∃ deps,
    dict_get (@build_dependency_graph Sample.parse Sample.cs_counter) "c2" = Some deps ∧
    ∀ d, d ∈ deps ↔
      d ≠ "c2" ∧
      ∃ var w, var ∈ reads (@analyze_cell Sample.parse
                              (mkCell "c2" "counter += 1" "python" None)) ∧
               @last_writer Sample.parse Sample.cs_counter var w ∧ id w = d.
Proof.
  apply (@build_dependency_graph_last_writer_wins Sample.parse Sample.cs_counter
           (mkCell "c2" "counter += 1" "python" None)).
  - apply (bool_decide_unpack _). vm_compute. exact I.
  - apply list_elem_of_further, list_elem_of_here.
Defined.

Lemma sql_cell_has_no_upstream_witness :
  dict_get (@build_dependency_graph Sample.parse Sample.cs_sql) "c1" = Some ∅.
Proof.
  apply (@sql_cell_has_no_upstream Sample.parse Sample.cs_sql
           (mkCell "c1" "SELECT 1" "sql" (Some "x"))).
  - apply (bool_decide_unpack _). vm_compute. exact I.
  - apply list_elem_of_here.
  - reflexivity.
Defined.

Lemma get_downstream_cells_is_transitive_closure_witness :
  ∃ s, get_downstream_cells Sample.chain_graph "c1" = Ok s ∧
       (∀ x, x ∈ s ↔ "c1" ∈ Sample.chain_graph.*1 ∧
                     tc (depends_on Sample.chain_graph) x "c1") ∧
       ("c1" ∉ Sample.chain_graph.*1 → s = ∅).
Proof.
  apply (get_downstream_cells_is_transitive_closure Sample.chain_graph "c1").
  unfold is_dict. apply (bool_decide_unpack _). vm_compute. exact I.
Defined.

Lemma topological_sort_dependencies_first_witness :
  ∃ order, topological_sort Sample.chain_graph {["c3"; "c1"; "c2"]} = Ok order ∧
    NoDup order ∧
    (∀ x, x ∈ order ↔ x ∈ ({["c3"; "c1"; "c2"]} : gset string)) ∧
    (∀ l1 x l2 d, order = l1 ++ x :: l2 → depends_on Sample.chain_graph x d →
       d ∈ ({["c3"; "c1"; "c2"]} : gset string) →
       d ∈ l1 ∨ tc (depends_on Sample.chain_graph) d x).
Proof.
  apply (topological_sort_dependencies_first Sample.chain_graph {["c3"; "c1"; "c2"]}).
  unfold is_dict. apply (bool_decide_unpack _). vm_compute. exact I.
Defined.

Lemma get_execution_order_of_acyclic_witness :
  ∃ order, @get_execution_order Sample.parse Sample.cs_sum "c1" = Ok (order, None) ∧
    NoDup order ∧
    (∀ x, x ∈ order ↔
          x = "c1" ∨
          tc (depends_on (@build_dependency_graph Sample.parse Sample.cs_sum)) x "c1") ∧
    head order = Some "c1" ∧
    (∀ l1 x l2 d, order = l1 ++ x :: l2 →
       depends_on (@build_dependency_graph Sample.parse Sample.cs_sum) x d →
       d ∈ order → d ∈ l1).
Proof.
  apply (@get_execution_order_of_acyclic Sample.parse Sample.cs_sum "c1").
  apply detect_cycle_None_acyclic. vm_compute. reflexivity.
Defined.

(** ** What the executor returns *)

Section executor_theorems.
Context {interp : Interp}.

(** X16. The result of [execute_cell] carries the identifier of the cell;
    it reports success exactly when it reports no error message, a failure
    carries no rendered result, and a traceback comes only with a failure of
    kind [error]. A query cell and a cell whose source is blank leave the
    namespace as it was. *)
Theorem execute_cell_result_shape (cell : Cell) (ns : gmap string value) :
  er_cell_id (execute_cell cell ns).1 = id cell ∧
  (success (execute_cell cell ns).1 = true ↔ er_error (execute_cell cell ns).1 = None) ∧
  (success (execute_cell cell ns).1 = false → result (execute_cell cell ns).1 = None) ∧
  (is_Some (er_error_traceback (execute_cell cell ns).1) →
   success (execute_cell cell ns).1 = false ∧
   result_type (execute_cell cell ns).1 = "error") ∧
  (cell_type cell = "sql" ∨ Py.truthy (Py.strip (code cell)) = false →
   (execute_cell cell ns).2 = ns).
Proof.
  unfold execute_cell, _execute_python_cell.
  destruct (decide (cell_type cell = "sql")) as [Hsql|Hpy]; simpl.
  { split_and!; try done; by intros [? ?]. }
  destruct (Py.truthy (Py.strip (code cell))) eqn:Hcode; simpl.
  - destruct (raised _) as [[msg tb]|] eqn:Hr; simpl.
    + split_and!; try done; by intros [?|?].
    + destruct (ns_after _ !! "_result") as [raw|]; [destruct (render_result raw)|];
        simpl; (split_and!; try done; try (by intros [? ?]); by intros [?|?]).
  - split_and!; try done; by intros [? ?].
Qed.

(** X17. When the source of a code cell runs to its end, the namespace
    that [execute_cell] leaves is the one the run left with [_result]
    removed, and the result carries the printed text. Without [_result] it
    reports success and no result; with a value that renders, success and
    the rendering, whichever cell bound the value; with a value whose
    rendering raises, failure of kind [error] with that exception and no
    result, the value being gone from the namespace all the same. *)
Theorem execute_cell_pops_result_after_run (cell : Cell) (ns : gmap string value) :
  cell_type cell ≠ "sql" →
  Py.truthy (Py.strip (code cell)) = true →
  raised (py_exec (Py.strip (code cell)) ns) = None →
  (execute_cell cell ns).2 = delete "_result" (ns_after (py_exec (Py.strip (code cell)) ns)) ∧
  (execute_cell cell ns).2 !! "_result" = None ∧
  er_stdout (execute_cell cell ns).1 = printed (py_exec (Py.strip (code cell)) ns) ∧
  match ns_after (py_exec (Py.strip (code cell)) ns) !! "_result" with
  | None =>
      success (execute_cell cell ns).1 = true ∧
      result (execute_cell cell ns).1 = None ∧
      result_type (execute_cell cell ns).1 = "text" ∧
      er_error (execute_cell cell ns).1 = None ∧
      er_error_traceback (execute_cell cell ns).1 = None
  | Some raw =>
      match render_result raw with
      | Rendered text kind =>
          success (execute_cell cell ns).1 = true ∧
          result (execute_cell cell ns).1 = Some text ∧
          result_type (execute_cell cell ns).1 = kind ∧
          er_error (execute_cell cell ns).1 = None ∧
          er_error_traceback (execute_cell cell ns).1 = None
      | RenderRaised msg error_tb =>
          success (execute_cell cell ns).1 = false ∧
          result (execute_cell cell ns).1 = None ∧
          result_type (execute_cell cell ns).1 = "error" ∧
          er_error (execute_cell cell ns).1 = Some msg ∧
          er_error_traceback (execute_cell cell ns).1 = Some error_tb
      end
  end.
Proof.
  intros Hty Hcode Hraise. unfold execute_cell, _execute_python_cell.
  rewrite decide_False by done. rewrite Hcode, Hraise. simpl.
  destruct (ns_after _ !! "_result") as [raw|] eqn:E.
  - destruct (render_result raw); simpl; split_and!; try done; apply lookup_delete_eq.
  - simpl. split_and!; try done. by rewrite delete_id.
Qed.
End executor_theorems.

Lemma execute_cell_pops_result_after_run_witness :
  (success (@execute_cell Sample.interp (mkCell "c2" "x = 1" "python" None)
              {["_result" := 7]}).1 = true ∧
   result (@execute_cell Sample.interp (mkCell "c2" "x = 1" "python" None)
             {["_result" := 7]}).1 = Some "7" ∧
   (@execute_cell Sample.interp (mkCell "c2" "x = 1" "python" None)
      {["_result" := 7]}).2 = {["x" := 1]}) ∧
  (success (@execute_cell Unprintable.interp
              (mkCell "c1" "_result = Bad()" "python" None) ∅).1 = false ∧
   er_error (@execute_cell Unprintable.interp
               (mkCell "c1" "_result = Bad()" "python" None) ∅).1 = Some "no repr" ∧
   (@execute_cell Unprintable.interp
      (mkCell "c1" "_result = Bad()" "python" None) ∅).2 !! "_result" = None).
Proof.
  split.
  - destruct (@execute_cell_pops_result_after_run Sample.interp
                (mkCell "c2" "x = 1" "python" None) {["_result" := 7]})
      as (Hns & _ & _ & Hres).
    + done.
    + vm_compute. reflexivity.
    + vm_compute. reflexivity.
    + vm_compute in Hres. destruct Hres as (Hs & Hr & _).
      split_and!; [exact Hs | exact Hr | rewrite Hns; vm_compute; reflexivity].
  - destruct (@execute_cell_pops_result_after_run Unprintable.interp
                (mkCell "c1" "_result = Bad()" "python" None) ∅)
      as (_ & Hpop & _ & Hres).
    + done.
    + vm_compute. reflexivity.
    + vm_compute. reflexivity.
    + vm_compute in Hres. destruct Hres as (Hs & _ & _ & He & _).
      split_and!; [exact Hs | exact He | exact Hpop].
Defined.

(** ** Reading and changing a list of cells *)

Section parse_theorems.
Context {ids : IdSource}.

(** X1. Writing a list of cells and reading the text back gives the same
    list, for cells whose fields can stand in a marker, whose source is
    stripped, whose output name is not the empty string and whose source has
    no line that is itself a cell marker. *)
Theorem serialize_then_parse (cs : list Cell) :
  Forall cell_fields_ok cs → Forall survives_serialization cs →
  parse_notebook (serialize_notebook cs) = cs.
Proof. apply parse_serialize. Qed.

(** X2. Every cell that [parse_notebook] returns has a stripped source, and
    an identifier, a kind and an output name that are stripped and hold no
    comma, closing bracket or line break, the generated identifiers being
    eight hexadecimal characters. *)
Theorem parse_notebook_cells_well_formed (content : string) :
  (∀ n, is_hex8 (generate_cell_id n)) →
  Forall cell_fields_ok (parse_notebook content).
Proof. intros Hids. by apply parse_notebook_fields. Qed.



Lemma close_cell_length st :
  length (close_cell st) =
  length (ps_cells st) + match ps_current_cell st with Some _ => 1 | None => 0 end.
Proof.
  unfold close_cell. destruct (ps_current_cell st); [|lia].
  rewrite length_app. simpl. lia.
Qed.

Lemma parse_line_count st line :
  length (close_cell (parse_line st line)) =
  length (close_cell st) + (if decide (is_Some (match_marker line)) then 1 else 0).
Proof.
  unfold parse_line. destruct (match_marker line) as [content|] eqn:Hm.
  - rewrite decide_True by eauto. rewrite close_cell_length. simpl. lia.
  - rewrite decide_False by (by intros [? ?]).
    destruct (ps_current_cell st) eqn:Hc; [|lia].
    rewrite !close_cell_length. simpl. rewrite Hc. lia.
Qed.

(** X4. [parse_notebook] returns one cell for each line of the text that is
    a cell marker; a text without a marker, the empty text among them, gives
    no cell. *)
Theorem parse_notebook_one_cell_per_marker (content : string) :
  length (parse_notebook content) =
  length (filter (fun line => is_Some (match_marker line))
                 (Py.split_chars "010"%char (chars content))).
Proof.
  unfold parse_notebook.
  assert (∀ lines st,
            length (close_cell (fold_left parse_line lines st)) =
            length (close_cell st) +
            length (filter (fun line => is_Some (match_marker line)) lines)) as Hfold.
  { induction lines as [|line lines IH]; intros st; simpl; [lia|].
    rewrite IH, parse_line_count, filter_cons.
    destruct (decide (is_Some (match_marker line))); simpl; lia. }
  rewrite Hfold. done.
Qed.
End parse_theorems.

(** X6. [find_cell_by_id] returns the first cell of the list that has the
    identifier, and nothing exactly when no cell has it. *)
Theorem find_cell_by_id_first (cells : list Cell) (cell_id : string) :
  (find_cell_by_id cells cell_id = None ↔ cell_id ∉ id <$> cells) ∧
  (∀ c, find_cell_by_id cells cell_id = Some c ↔
        ∃ pre post, cells = pre ++ c :: post ∧ id c = cell_id ∧
                    cell_id ∉ id <$> pre).
Proof.
  induction cells as [|c0 cells [IHn IHs]]; simpl.
  - split; [split; [by intros _ ?%elem_of_nil | done]|].
    intros c. split; [done|]. intros (pre & post & Heq & _). by destruct pre.
  - destruct (decide (id c0 = cell_id)) as [Heq|Hne].
    + split.
      * split; [done|]. intros Hnin. exfalso. apply Hnin. rewrite <- Heq.
        apply list_elem_of_here.
      * intros c. split.
        -- intros [= <-]. exists [], cells. split_and!; [done|done|apply not_elem_of_nil].
        -- intros (pre & post & Hcs & Hid & Hpre). destruct pre as [|p pre].
           ++ simpl in Hcs. by injection Hcs as <- _.
           ++ simpl in Hcs. injection Hcs as <- _. exfalso. apply Hpre.
              rewrite ?fmap_cons, <- Heq. apply list_elem_of_here.
    + split.
      * rewrite IHn, ?fmap_cons, not_elem_of_cons. naive_solver.
      * intros c. rewrite IHs. split.
        -- intros (pre & post & -> & Hid & Hpre). exists (c0 :: pre), post.
           split_and!; [done|done|]. rewrite ?fmap_cons, not_elem_of_cons. naive_solver.
        -- intros (pre & post & Hcs & Hid & Hpre). destruct pre as [|p pre].
           ++ simpl in Hcs. injection Hcs as -> _. done.
           ++ simpl in Hcs. injection Hcs as <- ->. exists pre, post.
              split_and!; [done|done|]. rewrite ?fmap_cons, not_elem_of_cons in Hpre.
              naive_solver.
Qed.

(** X7. [remove_cell_by_id] reports whether the identifier was in the list;
    it takes out the first cell that has it and nothing else, so every other
    identifier finds the cell it found before, and with distinct identifiers
    the removed one is no longer found. *)
Theorem remove_cell_by_id_removes_first (cells : list Cell) (cell_id : string) :
  (cell_id ∉ id <$> cells → remove_cell_by_id cells cell_id = (false, cells)) ∧
  (cell_id ∈ id <$> cells →
   ∃ pre c post, cells = pre ++ c :: post ∧ id c = cell_id ∧
                 (cell_id ∉ id <$> pre) ∧
                 remove_cell_by_id cells cell_id = (true, pre ++ post)) ∧
  (∀ k, k ≠ cell_id →
        find_cell_by_id (remove_cell_by_id cells cell_id).2 k = find_cell_by_id cells k) ∧
  (NoDup (id <$> cells) →
   find_cell_by_id (remove_cell_by_id cells cell_id).2 cell_id = None).
Proof.
  induction cells as [|c0 cells (IH1 & IH2 & IH3 & IH4)]; simpl.
  - split_and!; try done. by intros ?%elem_of_nil.
  - destruct (decide (id c0 = cell_id)) as [Heq|Hne].
    + split_and!.
      * intros Hnin. exfalso. apply Hnin. rewrite <- Heq. apply list_elem_of_here.
      * intros _. exists [], c0, cells. split_and!; [done|done|apply not_elem_of_nil|done].
      * intros k Hk. simpl. rewrite decide_False by congruence. done.
      * intros [Hc0 _]%NoDup_cons. simpl. apply find_cell_by_id_None. by rewrite <- Heq.
    + destruct (remove_cell_by_id cells cell_id) as [found rest] eqn:Hrem. simpl in *.
      split_and!.
      * intros [_ Hnin]%not_elem_of_cons. specialize (IH1 Hnin). by injection IH1 as -> ->.
      * intros [?|Hin]%elem_of_cons; [done|].
        destruct (IH2 Hin) as (pre & c & post & -> & Hid & Hpre & Hr).
        injection Hr as -> ->. exists (c0 :: pre), c, post.
        split_and!; [done|done| |done]. rewrite ?fmap_cons, not_elem_of_cons. naive_solver.
      * intros k Hk. simpl. destruct (decide (id c0 = k)); [done|]. by apply IH3.
      * intros [_ Hnd]%NoDup_cons. rewrite decide_False by done. by apply IH4.
Qed.

Lemma serialize_then_parse_witness :
  @parse_notebook Sample.ids
    (serialize_notebook [mkCell "a1" "x = 1" "python" None;
                         mkCell "b2" "SELECT * FROM t" "sql" (Some "df")])
  = [mkCell "a1" "x = 1" "python" None; mkCell "b2" "SELECT * FROM t" "sql" (Some "df")].
Proof.
  apply (@serialize_then_parse Sample.ids).
  - apply (bool_decide_unpack _). vm_compute. exact I.
  - apply (bool_decide_unpack _). vm_compute. exact I.
Defined.

Lemma parse_notebook_cells_well_formed_witness :
  Forall cell_fields_ok (@parse_notebook Sample.ids Sample.nb_two_cells).
Proof.
  apply (@parse_notebook_cells_well_formed Sample.ids Sample.nb_two_cells).
  intros n. split; reflexivity.
Defined.


(** X5. [parse_marker] reads the parts of a marker from left to right: a
    last part with a colon sets its key, replacing a value an earlier part
    gave it, and a last part without a colon is ignored. *)
Theorem parse_marker_last_part (marker_content part : list ascii) :
  ","%char ∉ part →
  parse_marker (marker_content ++ ","%char :: part) =
  match Py.split_once ":"%char (Py.strip_chars part) with
  | Some (key, value) =>
      <[str (Py.strip_chars key) := str (Py.strip_chars value)]>
        (parse_marker marker_content)
  | None => parse_marker marker_content
  end.
Proof.
  intros Hpart. unfold parse_marker.
  rewrite split_chars_app_sep, fold_left_app, (split_chars_no_sep _ part) by done.
  simpl. by destruct (Py.split_once _ _) as [[key value]|].
Qed.

Lemma parse_marker_last_part_witness :
  parse_marker (chars "id: a, type: sql" ++ ","%char :: chars " id: b") !! "id" = Some "b" ∧
  parse_marker (chars "id: a, type: sql" ++ ","%char :: chars " sql") !! "id" = Some "a".
Proof.
  split.
  - rewrite (parse_marker_last_part (chars "id: a, type: sql") (chars " id: b")).
    + vm_compute. reflexivity.
    + apply (bool_decide_unpack _). vm_compute. exact I.
  - rewrite (parse_marker_last_part (chars "id: a, type: sql") (chars " sql")).
    + vm_compute. reflexivity.
    + apply (bool_decide_unpack _). vm_compute. exact I.
Defined.

(** ** The run loop *)

Lemma find_cell_by_id_Some (cells : list Cell) cid :
  cid ∈ id <$> cells →
  ∃ cell, find_cell_by_id cells cid = Some cell ∧ id cell = cid ∧ cell ∈ cells.
Proof.
  induction cells as [|c cells IH]; simpl; [by intros ?%elem_of_nil|].
  intros Hin. destruct (decide (id c = cid)) as [Heq|Hne].
  - exists c. split_and!; [done|done|apply list_elem_of_here].
  - apply elem_of_cons in Hin as [?|Hin]; [done|].
    destruct (IH Hin) as (cell & ? & ? & ?). exists cell. split_and!; [done|done|by right].
Qed.

Lemma find_cell_by_id_id (cells : list Cell) cid cell :
  find_cell_by_id cells cid = Some cell → id cell = cid.
Proof.
  induction cells as [|c cells IH]; simpl; [done|].
  destruct (decide (id c = cid)); [by intros [= <-] | done].
Qed.

Lemma update_status_Some cid upd (states : gmap string CellState) s :
  states !! cid = Some s → _update_status cid upd states = <[cid := upd s]> states.
Proof. intros Hs. unfold _update_status. by rewrite Hs. Qed.

Section run_facts.
Context {interp : Interp} {parser : AstParser}.

Lemma exec_result_of_not_handed_over sql_executor cell ns :
  handed_over sql_executor cell = false →
  exec_result_of sql_executor cell ns =
    (mkResult (id cell) false "" None "text"
       (Some "No database connection configured") None, ns).
Proof.
  unfold handed_over, exec_result_of.
  destruct (decide _); [|done]. by destruct sql_executor.
Qed.

(** a cell that the loop of [run_cell] does not block is run: its state
    takes the result, and the log and the set of failed cells follow *)
Lemma run_step_run cs g sql_executor (st : run_state) cid cell s :
  find_cell_by_id cs cid = Some cell → rs_states st !! cid = Some s →
  match List.find (fun dep => bool_decide (dep ∈ rs_failed_cells st))
                  (elements (default ∅ (dict_get g cid))) with
  | Some (String _ _) => False
  | _ => True
  end →
  run_step cs g sql_executor st cid =
  Ok (mkRun _
        (<[cid := state_of_result (exec_result_of sql_executor cell (rs_namespace st)).1 s]>
           (rs_states st))
        (exec_result_of sql_executor cell (rs_namespace st)).2
        (if handed_over sql_executor cell then rs_dispatched st ++ [cid]
         else rs_dispatched st)
        (if success (exec_result_of sql_executor cell (rs_namespace st)).1
         then rs_failed_cells st else {[cid]} ∪ rs_failed_cells st)
        (rs_results st ++ [cid])).
Proof.
  intros Hfind Hs Hnb. pose proof (find_cell_by_id_id _ _ _ Hfind) as Hid.
  unfold run_step. rewrite Hfind. cbv zeta.
  assert (∀ u1 u2, _update_status cid u2 (_update_status cid u1 (rs_states st))
                   = <[cid := u2 (u1 s)]> (rs_states st)) as Hupd2.
  { intros u1 u2. rewrite (update_status_Some _ u1 _ s) by done.
    rewrite (update_status_Some _ u2 _ (u1 s)) by apply lookup_insert_eq.
    apply insert_insert_eq. }
  assert (∀ (m : gmap string CellState) s0 l, append_state (<[cid := s0]> m) l cid
                     = Ok (l ++ [cid])) as Happ.
  { intros m s0 l. unfold append_state. by rewrite lookup_insert_eq. }
  assert ((if decide (cell_type cell = "sql")
           then match sql_executor with
                | Some sql_executor0 =>
                    let '(e, ns) := sql_executor0 cell (rs_namespace st) in
                    (e, ns, rs_dispatched st ++ [cid])
                | None =>
                    (mkResult cid false "" None "text"
                       (Some "No database connection configured") None,
                     rs_namespace st, rs_dispatched st)
                end
           else let '(e, ns) := execute_cell cell (rs_namespace st) in
                (e, ns, rs_dispatched st ++ [cid]))
          = ((exec_result_of sql_executor cell (rs_namespace st)).1,
             (exec_result_of sql_executor cell (rs_namespace st)).2,
             if handed_over sql_executor cell then rs_dispatched st ++ [cid]
             else rs_dispatched st)) as Hexec.
  { unfold exec_result_of, handed_over. destruct (decide _).
    - destruct sql_executor as [f|]; [by destruct (f cell _)|]. by rewrite Hid.
    - by destruct (execute_cell cell _). }
  assert (∀ bc : option string,
    match bc with Some (String _ _) => False | _ => True end →
    match bc with
    | Some (String _ _ as blocking_cell) =>
        let states := _update_status cid (upd_blocked blocking_cell) (rs_states st) in
        results ← append_state states (rs_results st) cid;
        Ok (mkRun _ states (rs_namespace st) (rs_dispatched st)
                  ({[cid]} ∪ rs_failed_cells st) results)
    | _ =>
        let states := _update_status cid upd_running (rs_states st) in
        let '(exec_result, ns, log) :=
          if decide (cell_type cell = "sql") then
            match sql_executor with
            | Some sql_executor =>
                let '(e, ns) := sql_executor cell (rs_namespace st) in
                (e, ns, rs_dispatched st ++ [cid])
            | None =>
                (mkResult cid false "" None "text"
                   (Some "No database connection configured") None,
                 rs_namespace st, rs_dispatched st)
            end
          else
            let '(e, ns) := execute_cell cell (rs_namespace st) in
            (e, ns, rs_dispatched st ++ [cid]) in
        let '(states, failed) :=
          if success exec_result then
            (_update_status cid (upd_success exec_result) states, rs_failed_cells st)
          else
            (_update_status cid (upd_error exec_result) states,
             {[cid]} ∪ rs_failed_cells st) in
        results ← append_state states (rs_results st) cid;
        Ok (mkRun _ states ns log failed results)
    end =
    Ok (mkRun _
          (<[cid := state_of_result (exec_result_of sql_executor cell (rs_namespace st)).1 s]>
             (rs_states st))
          (exec_result_of sql_executor cell (rs_namespace st)).2
          (if handed_over sql_executor cell then rs_dispatched st ++ [cid]
           else rs_dispatched st)
          (if success (exec_result_of sql_executor cell (rs_namespace st)).1
           then rs_failed_cells st else {[cid]} ∪ rs_failed_cells st)
          (rs_results st ++ [cid]))) as Hbody.
  { intros bc Hbc. cbv zeta. rewrite Hexec. unfold state_of_result.
    destruct bc as [[|a b]|]; [|done|];
      destruct (success _); rewrite Hupd2, Happ; done. }
  by apply Hbody.
Qed.

(** one turn of the loop of [run_cell], for a cell that is found and has a
    state: it is blocked by a failed dependency, or it is run *)
Lemma run_step_spec cs g sql_executor (st : run_state) cid cell s :
  find_cell_by_id cs cid = Some cell → rs_states st !! cid = Some s →
  (∃ b, b ≠ "" ∧ b ∈ default ∅ (dict_get g cid) ∧ b ∈ rs_failed_cells st ∧
        run_step cs g sql_executor st cid =
        Ok (mkRun _ (<[cid := upd_blocked b s]> (rs_states st)) (rs_namespace st)
                  (rs_dispatched st) ({[cid]} ∪ rs_failed_cells st)
                  (rs_results st ++ [cid])))
  ∨ ((∀ b, b ∈ default ∅ (dict_get g cid) → b ∈ rs_failed_cells st →
           "" ∈ rs_failed_cells st) ∧
     run_step cs g sql_executor st cid =
     Ok (mkRun _
           (<[cid := state_of_result (exec_result_of sql_executor cell (rs_namespace st)).1 s]>
              (rs_states st))
           (exec_result_of sql_executor cell (rs_namespace st)).2
           (if handed_over sql_executor cell then rs_dispatched st ++ [cid]
            else rs_dispatched st)
           (if success (exec_result_of sql_executor cell (rs_namespace st)).1
            then rs_failed_cells st else {[cid]} ∪ rs_failed_cells st)
           (rs_results st ++ [cid]))).
Proof.
  intros Hfind Hs.
  destruct (List.find (fun dep => bool_decide (dep ∈ rs_failed_cells st))
              (elements (default ∅ (dict_get g cid)))) as [b|] eqn:Hb.
  - pose proof Hb as Hb'. apply find_some in Hb' as [Hbin Hbf].
    apply list_elem_of_In, elem_of_elements in Hbin.
    apply bool_decide_eq_true in Hbf.
    destruct b as [|a b].
    + right. split; [by intros|]. apply run_step_run; [done|done|]. by rewrite Hb.
    + left. exists (String a b). split_and!; [done|done|done|].
      unfold run_step. rewrite Hfind. cbv zeta. rewrite Hb.
      rewrite (update_status_Some _ _ _ s) by done.
      unfold append_state. by rewrite lookup_insert_eq.
  - right. split.
    + intros b Hbin Hbf. exfalso. eapply find_none in Hb.
      * by apply bool_decide_eq_false in Hb.
      * by apply list_elem_of_In, elem_of_elements.
    + apply run_step_run; [done|done|]. by rewrite Hb.
Qed.

(** the same, by cases: what the turn leaves of the state, the namespace,
    the log and the failed cells *)
Lemma run_step_cases cs g sql_executor (st : run_state) cid cell s :
  find_cell_by_id cs cid = Some cell → rs_states st !! cid = Some s →
  ∃ s' failed' ns' log',
    run_step cs g sql_executor st cid =
      Ok (mkRun _ (<[cid := s']> (rs_states st)) ns' log' failed'
                (rs_results st ++ [cid])) ∧
    ((∃ b, b ≠ "" ∧ b ∈ default ∅ (dict_get g cid) ∧ b ∈ rs_failed_cells st ∧
           s' = upd_blocked b s ∧ failed' = {[cid]} ∪ rs_failed_cells st ∧
           ns' = rs_namespace st ∧ log' = rs_dispatched st)
     ∨ ((∀ b, b ∈ default ∅ (dict_get g cid) → b ∈ rs_failed_cells st →
              "" ∈ rs_failed_cells st) ∧
        ((log' = rs_dispatched st ∧ ns' = rs_namespace st ∧
          handed_over sql_executor cell = false)
         ∨ (log' = rs_dispatched st ++ [cid] ∧
            handed_over sql_executor cell = true)) ∧
        blocked_by s' = None ∧
        ((status s' = SUCCESS ∧ failed' = rs_failed_cells st)
         ∨ (status s' = ERROR ∧ failed' = {[cid]} ∪ rs_failed_cells st)))).
Proof.
  intros Hfind Hs.
  destruct (run_step_spec cs g sql_executor st cid cell s Hfind Hs)
    as [(b & Hbne & Hbin & Hbf & ->) | (Hnone & ->)].
  - do 4 eexists. split; [done|]. left. exists b. by split_and!.
  - do 4 eexists. split; [done|]. right. split; [done|]. split_and!.
    + destruct (handed_over sql_executor cell) eqn:Hho; [by right|left].
      by rewrite exec_result_of_not_handed_over.
    + unfold state_of_result. by destruct (success _).
    + unfold state_of_result. destruct (success _); [by left | by right].
Qed.
End run_facts.

Section run_loop.
Context {interp : Interp} {parser : AstParser}.
Variable r : Reactor.
Variable sql_executor : option sql_executor_t.
Variable order : list string.
Hypothesis Hcover : states_cover r.
Hypothesis Hnodup : NoDup order.
Hypothesis Hids : ∀ x, x ∈ order → x ∈ id <$> cells r.
Hypothesis Hfirst : ∀ l1 x l2 d, order = l1 ++ x :: l2 →
  depends_on (build_dependency_graph (cells r)) x d → d ∈ order → d ∈ l1.

Lemma depends_on_default k b :
  b ∈ default ∅ (dict_get (build_dependency_graph (cells r)) k) ↔
  depends_on (build_dependency_graph (cells r)) k b.
Proof.
  unfold depends_on. destruct (dict_get _ k) as [deps|]; simpl.
  - split; [by eauto | by intros (? & [= <-] & ?)].
  - split; [by intros ?%not_elem_of_empty | by intros (? & ? & ?)].
Qed.

Lemma run_inv_step done cid todo st :
  order = done ++ cid :: todo → run_inv r sql_executor done st →
  ∃ st', run_step (cells r) (build_dependency_graph (cells r)) sql_executor st cid = Ok st' ∧
         run_inv r sql_executor (done ++ [cid]) st' ∧
         (∀ k, k ≠ cid → rs_states st' !! k = rs_states st !! k).
Proof.
  intros Horder [Hres Hother Hfailed Hdone (l & Hlog & Hsub & Hlblk & Hlns)].
  assert (cid ∈ order) as Hcid.
  { rewrite Horder. apply elem_of_app. right. apply list_elem_of_here. }
  assert (cid ∉ done) as Hnew.
  { rewrite Horder in Hnodup. apply NoDup_app in Hnodup as (_ & Hx & _).
    intros Hin. apply (Hx cid Hin). apply list_elem_of_here. }
  destruct (find_cell_by_id_Some (cells r) cid (Hids cid Hcid)) as (cell & Hfind & Hid & Hcell).
  destruct (Hcover cell Hcell) as [s Hs]. rewrite Hid in Hs.
  rewrite <- (Hother cid Hnew) in Hs.
  destruct (run_step_cases (cells r) (build_dependency_graph (cells r)) sql_executor
              st cid cell s Hfind Hs) as (s' & failed' & ns' & log' & -> & Hcase).
  eexists. split; [done|].
  split; [|by intros k Hk; simpl; rewrite lookup_insert_ne].
  assert (cid ∉ rs_failed_cells st) as Hnf by (intros ?%Hfailed; done).
  assert (∀ k, k ∈ failed' → k = cid ∨ k ∈ rs_failed_cells st) as Hf'.
  { intros k Hk. destruct Hcase as [(b & _ & _ & _ & _ & -> & _)|(_ & _ & _ & [[_ ->]|[_ ->]])];
      set_solver. }
  assert (∀ k, k ∈ rs_failed_cells st → k ∈ failed') as Hmono.
  { intros k Hk. destruct Hcase as [(b & _ & _ & _ & _ & -> & _)|(_ & _ & _ & [[_ ->]|[_ ->]])];
      set_solver. }
  assert (∀ k, k ∈ done → ¬ depends_on (build_dependency_graph (cells r)) k cid) as Hnodep.
  { intros k Hk Hdep. apply list_elem_of_split in Hk as (a & c & ->).
    rewrite <- app_assoc in Horder. simpl in Horder.
    specialize (Hfirst a k (c ++ cid :: todo) cid Horder Hdep Hcid).
    apply Hnew. apply elem_of_app. by left. }
  split; simpl.
  - by rewrite Hres.
  - intros k Hk. rewrite elem_of_app, list_elem_of_singleton in Hk.
    rewrite lookup_insert_ne by (intros ->; tauto). apply Hother. tauto.
  - intros k [->|Hk]%Hf'; apply elem_of_app; [right; apply list_elem_of_here | left; auto].
  - intros k [Hk | ->%list_elem_of_singleton]%elem_of_app.
    + assert (k ≠ cid) as Hne by (intros ->; done).
      rewrite lookup_insert_ne by done.
      destruct (Hdone k Hk) as (sk & Hsk & Hfin & Hfl & Hblk & Hconv).
      exists sk. split_and!; try done.
      * rewrite <- Hfl. split; [intros [?|?]%Hf'; done | apply Hmono].
      * intros Hb. destruct (Hblk Hb) as (b & ? & ? & ? & ?). exists b. split_and!; auto.
      * intros Hemp (b & Hdep & [->|Hb]%Hf').
        -- by destruct (Hnodep k Hk).
        -- apply Hconv; [|by eauto]. intros ?. by apply Hemp, Hmono.
    + rewrite lookup_insert_eq. exists s'. split; [done|].
      destruct Hcase as [(b & Hbne & Hbin & Hbf & -> & -> & _)
                        |(Hnone & _ & Hby & [[Hst ->]|[Hst ->]])].
      * split_and!; simpl.
        -- by right; right.
        -- split; [done | set_solver].
        -- intros _. exists b. split_and!; try done; [by apply depends_on_default | set_solver].
        -- done.
      * split_and!.
        -- by left.
        -- rewrite Hst. split; [done | by intros ?].
        -- rewrite Hst. done.
        -- intros Hemp (b & Hdep & Hb). exfalso. apply Hemp.
           apply (Hnone b); [by apply depends_on_default | done].
      * split_and!.
        -- by right; left.
        -- rewrite Hst. split; [done | set_solver].
        -- rewrite Hst. done.
        -- intros Hemp (b & Hdep & [->%elem_of_singleton|Hb]%elem_of_union); exfalso.
           ++ destruct Hdep as (deps & Hget & Hin).
              by apply (build_dependency_graph_no_self (cells r) cid deps).
           ++ apply Hemp. apply elem_of_union. right.
              apply (Hnone b); [by apply depends_on_default | done].
  - assert (cid ∉ l) as Hcl.
    { intros Hin. apply Hnew. by eapply elem_of_sublist. }
    assert (∀ k sk c, k ∈ done → <[cid := s']> (rs_states st) !! k = Some sk →
              find_cell_by_id (cells r) k = Some c →
              (k ∈ l ↔ status sk ≠ BLOCKED ∧ handed_over sql_executor c = true)) as Hold.
    { intros k sk c Hk. assert (k ≠ cid) as Hne by (intros ->; done).
      rewrite lookup_insert_ne by done. by apply Hlblk. }
    assert (sublist l (done ++ [cid])) as Hsub'.
    { by apply sublist_inserts_r. }
    destruct Hcase as [(b & _ & _ & _ & -> & _ & -> & ->)
                      |(_ & [(-> & -> & Hho) | (-> & Hho)] & _ & Hst)].
    + exists l. split_and!; try done.
      intros k sk c [Hk | Hk%list_elem_of_singleton]%elem_of_app; [by apply Hold|].
      subst k. rewrite lookup_insert_eq. intros [= <-] _. simpl.
      split; [done | by intros [? _]].
    + exists l. split_and!; try done.
      intros k sk c [Hk | Hk%list_elem_of_singleton]%elem_of_app; [by apply Hold|].
      subst k. rewrite lookup_insert_eq, Hfind. intros _ [= <-].
      split; [done | rewrite Hho; by intros [_ ?]].
    + exists (l ++ [cid]). split_and!.
      * by rewrite Hlog, app_assoc.
      * by apply sublist_app.
      * intros k sk c [Hk | Hk%list_elem_of_singleton]%elem_of_app.
        -- intros Hsk Hc. rewrite <- (Hold k sk c Hk Hsk Hc).
           rewrite elem_of_app, list_elem_of_singleton.
           split; [intros [?| ->]; done | by left].
        -- subst k. rewrite lookup_insert_eq, Hfind. intros [= <-] [= <-].
           split; [intros _ | intros _; apply elem_of_app; right; apply list_elem_of_here].
           split; [|done]. destruct Hst as [[-> _]|[-> _]]; done.
      * by intros ?%app_eq_nil%proj2.
Qed.

Lemma run_loop_spec todo :
  ∀ done st, order = done ++ todo → run_inv r sql_executor done st →
    ∃ st', fold_res (run_step (cells r) (build_dependency_graph (cells r)) sql_executor)
             todo st = Ok st' ∧ run_inv r sql_executor order st' ∧
           (∀ k, k ∉ todo → rs_states st' !! k = rs_states st !! k).
Proof.
  induction todo as [|cid todo IH]; intros done st Horder Hinv; simpl.
  - exists st. split; [done|]. split; [|done]. by rewrite Horder, app_nil_r.
  - destruct (run_inv_step done cid todo st Horder Hinv) as (st1 & -> & Hinv1 & Hsame1).
    simpl.
    destruct (IH (done ++ [cid]) st1) as (st' & Hloop & Hinv' & Hsame');
      [by rewrite <- app_assoc | done |].
    exists st'. split_and!; [done|done|].
    intros k Hk. rewrite Hsame', Hsame1; [done| |]; intros Hin; apply Hk.
    + subst k. apply list_elem_of_here.
    + by right.
Qed.

(** the first turn runs the cell *)
Lemma run_first_step cid cell s :
  find_cell_by_id (cells r) cid = Some cell →
  cell_states r !! cid = Some s →
  run_step (cells r) (build_dependency_graph (cells r)) sql_executor
    (mkRun _ (cell_states r) (namespace r) (dispatched r) ∅ []) cid
  = Ok (mkRun _
          (<[cid := state_of_result (exec_result_of sql_executor cell (namespace r)).1 s]>
             (cell_states r))
          (exec_result_of sql_executor cell (namespace r)).2
          (if handed_over sql_executor cell then dispatched r ++ [cid] else dispatched r)
          (if success (exec_result_of sql_executor cell (namespace r)).1
           then ∅ else {[cid]} ∪ ∅)
          [cid]).
Proof.
  intros Hfind Hs.
  rewrite (run_step_run _ _ _
             (mkRun _ (cell_states r) (namespace r) (dispatched r) ∅ [])
             cid cell s Hfind Hs); [done|].
  simpl. destruct (List.find _ _) as [[|a b]|] eqn:Hf; [done| |done].
  apply find_some in Hf as [_ Hf]. by apply bool_decide_eq_true in Hf.
Qed.
End run_loop.

Section run_acyclic.
Context {interp : Interp} {parser : AstParser}.

(** a run of an acyclic notebook from a cell of the list ends, and the
    loop invariant holds of all of the execution order *)
Lemma run_cell_acyclic_inv cell_id sql_executor (r : Reactor) :
  states_cover r → ¬ has_cycle (build_dependency_graph (cells r)) →
  cell_id ∈ id <$> cells r →
  ∃ order st,
    get_execution_order (cells r) cell_id = Ok (order, None) ∧
    run_cell cell_id sql_executor r =
      Ok (order, mkReactor _ (cells r) (rs_states st) (rs_namespace st) (rs_dispatched st)) ∧
    run_inv r sql_executor order st ∧
    NoDup order ∧ head order = Some cell_id ∧
    (∀ x, x ∈ order ↔
          x = cell_id ∨ tc (depends_on (build_dependency_graph (cells r))) x cell_id) ∧
    (∀ x, x ∈ order → x ∈ id <$> cells r) ∧
    (∀ l1 x l2 d, order = l1 ++ x :: l2 →
       depends_on (build_dependency_graph (cells r)) x d → d ∈ order → d ∈ l1) ∧
    (∀ cell s, find_cell_by_id (cells r) cell_id = Some cell →
       cell_states r !! cell_id = Some s →
       rs_states st !! cell_id =
         Some (state_of_result (exec_result_of sql_executor cell (namespace r)).1 s)).
Proof.
  intros Hcover Hacyc Hcid.
  destruct (get_execution_order_acyclic (cells r) cell_id Hacyc)
    as (order & Hgeo & Hnd & Hmem & Hhead & Hfirst).
  assert (∀ x, x ∈ order → x ∈ id <$> cells r) as Hids.
  { intros x [->|Htc]%Hmem; [done|]. apply build_dependency_graph_keys.
    inversion Htc as [? ? Hxy|? y ? Hxy _]; subst; by eapply depends_on_key. }
  destruct (run_loop_spec r sql_executor order Hcover Hnd Hids Hfirst order []
              (mkRun _ (cell_states r) (namespace r) (dispatched r) ∅ []))
    as (st & Hloop & Hinv & _); [done| |].
  { split; simpl; try done.
    - by intros k ?%elem_of_nil.
    - exists []. rewrite app_nil_r. split_and!; try done.
      by intros k s c ?%elem_of_nil. }
  exists order, st. split_and!; try done.
  - unfold run_cell. rewrite Hgeo. simpl. rewrite Hloop. simpl.
    by rewrite (ri_results _ _ _ _ Hinv).
  - intros cell s Hfind Hs.
    destruct order as [|c todo]; [done|]. injection Hhead as ->.
    simpl in Hloop.
    rewrite (run_first_step r sql_executor cell_id cell s Hfind Hs) in Hloop.
    simpl in Hloop.
    assert (cell_id ∉ todo) as Hnt by (by apply NoDup_cons in Hnd as [? _]).
    destruct (run_inv_step r sql_executor (cell_id :: todo) Hcover Hnd Hids Hfirst
                [] cell_id todo (mkRun _ (cell_states r) (namespace r) (dispatched r) ∅ []))
      as (st1 & Hstep & Hinv1 & _); [done| |].
    { split; simpl; try done.
      - by intros k ?%elem_of_nil.
      - exists []. rewrite app_nil_r. split_and!; try done.
        by intros k s1 c ?%elem_of_nil. }
    rewrite (run_first_step r sql_executor cell_id cell s Hfind Hs) in Hstep.
    injection Hstep as <-.
    destruct (run_loop_spec r sql_executor (cell_id :: todo) Hcover Hnd Hids Hfirst
                todo [cell_id] _ eq_refl Hinv1) as (st' & Hloop' & _ & Hsame).
    rewrite Hloop' in Hloop. injection Hloop as <-.
    rewrite (Hsame cell_id Hnt). simpl. apply lookup_insert_eq.
Qed.
End run_acyclic.

(** ** What a run of an acyclic notebook does *)

Lemma find_cell_by_id_in_ids (cells : list Cell) cid cell :
  find_cell_by_id cells cid = Some cell → cid ∈ id <$> cells.
Proof.
  induction cells as [|c cells IH]; simpl; [done|].
  destruct (decide (id c = cid)) as [<-|Hne]; intros Hf.
  - apply list_elem_of_here.
  - right. by apply IH.
Qed.

Section run_theorems.
Context {interp : Interp} {parser : AstParser}.

(** X19. A run of an acyclic notebook from one of its cells returns the
    changed cell and the cells that depend on it, once each, the changed
    cell first and every cell after the cells it depends on; each of them
    ends in success, error or blocked, and no other state changes. *)
Theorem run_cell_runs_execution_order cell_id sql_executor (r : Reactor) :
  states_cover r → ¬ has_cycle (build_dependency_graph (cells r)) →
  cell_id ∈ id <$> cells r →
  ∃ order r',
    run_cell cell_id sql_executor r = Ok (order, r') ∧
    NoDup order ∧ head order = Some cell_id ∧
    (∀ x, x ∈ order ↔
          x = cell_id ∨ tc (depends_on (build_dependency_graph (cells r))) x cell_id) ∧
    (∀ l1 x l2 d, order = l1 ++ x :: l2 →
       depends_on (build_dependency_graph (cells r)) x d → d ∈ order → d ∈ l1) ∧
    cells r' = cells r ∧
    (∀ k, k ∉ order → cell_states r' !! k = cell_states r !! k) ∧
    (∀ k, k ∈ order → ∃ s, cell_states r' !! k = Some s ∧ finished s).
Proof.
  intros Hcover Hacyc Hcid.
  destruct (run_cell_acyclic_inv cell_id sql_executor r Hcover Hacyc Hcid)
    as (order & st & _ & Hrun & Hinv & Hnd & Hhead & Hmem & _ & Hfirst & _).
  eexists order, _. split; [done|]. split_and!; try done; simpl.
  - apply (ri_other _ _ _ _ Hinv).
  - intros k Hk. destruct (ri_done _ _ _ _ Hinv k Hk) as (s & ? & ? & _). eauto.
Qed.

(** X20. In a run of an acyclic notebook whose cells have non-empty
    identifiers, a cell ends blocked exactly when it depends on a cell of the
    same run that did not end in success. *)
Theorem run_cell_blocked_iff cell_id sql_executor (r : Reactor) :
  states_cover r → ¬ has_cycle (build_dependency_graph (cells r)) →
  cell_id ∈ id <$> cells r → "" ∉ id <$> cells r →
  ∃ order r',
    run_cell cell_id sql_executor r = Ok (order, r') ∧
    ∀ k s, k ∈ order → cell_states r' !! k = Some s →
      (status s = BLOCKED ↔
       ∃ b sb, depends_on (build_dependency_graph (cells r)) k b ∧ b ∈ order ∧
               cell_states r' !! b = Some sb ∧ status sb ≠ SUCCESS).
Proof.
  intros Hcover Hacyc Hcid Hne.
  destruct (run_cell_acyclic_inv cell_id sql_executor r Hcover Hacyc Hcid)
    as (order & st & _ & Hrun & Hinv & Hnd & Hhead & Hmem & Hids & Hfirst & Hrunst).
  eexists order, _. split; [done|]. simpl. intros k s Hk Hs.
  assert ("" ∉ rs_failed_cells st) as Hemp.
  { intros Hin. by apply Hne, Hids, (ri_failed _ _ _ _ Hinv). }
  destruct (ri_done _ _ _ _ Hinv k Hk) as (s' & Hs' & _ & _ & Hblk & Hconv).
  assert (s' = s) as -> by congruence. split.
  - intros Hb. destruct (Hblk Hb) as (b & _ & _ & Hdep & Hbf).
    pose proof (ri_failed _ _ _ _ Hinv b Hbf) as Hbo.
    destruct (ri_done _ _ _ _ Hinv b Hbo) as (sb & Hsb & _ & Hfl & _).
    exists b, sb. split_and!; try done. by apply Hfl.
  - intros (b & sb & Hdep & Hbo & Hsb & Hst). apply Hconv; [done|].
    exists b. split; [done|].
    destruct (ri_done _ _ _ _ Hinv b Hbo) as (sb' & Hsb' & _ & Hfl & _).
    apply Hfl. congruence.
Qed.

(** when the cell that is run does not end in success, the loop blocks
    every other cell of the order *)
Lemma run_failure_blocks cell_id sql_executor (r : Reactor) order st s0 :
  run_inv r sql_executor order st →
  (∀ x, x ∈ order ↔
        x = cell_id ∨ tc (depends_on (build_dependency_graph (cells r))) x cell_id) →
  (∀ l1 x l2 d, order = l1 ++ x :: l2 →
     depends_on (build_dependency_graph (cells r)) x d → d ∈ order → d ∈ l1) →
  "" ∉ rs_failed_cells st →
  rs_states st !! cell_id = Some s0 → status s0 ≠ SUCCESS →
  ∀ k, k ∈ order → k ≠ cell_id →
       ∃ s, rs_states st !! k = Some s ∧ status s = BLOCKED.
Proof.
  intros Hinv Hmem Hfirst Hemp Hs0 Hst0.
  assert (∀ pre, pre `prefix_of` order → ∀ x, x ∈ pre → x ∈ rs_failed_cells st) as Hall.
  { induction pre as [|k pre IH] using rev_ind; intros [l2 Hpre] x Hx;
      [by apply elem_of_nil in Hx|].
    apply elem_of_app in Hx as [Hx | Hx%list_elem_of_singleton].
    { apply IH; [|done]. exists ([k] ++ l2). by rewrite Hpre, <- app_assoc. }
    subst k. rewrite <- app_assoc in Hpre. simpl in Hpre.
    assert (x ∈ order) as Hxo.
    { rewrite Hpre. apply elem_of_app. right. apply list_elem_of_here. }
    destruct (ri_done _ _ _ _ Hinv x Hxo) as (s & Hs & _ & Hfl & _ & Hconv).
    apply Hfl. destruct (decide (x = cell_id)) as [->|Hxne]; [congruence|].
    rewrite Hconv; [done|done|].
    destruct (proj1 (Hmem x) Hxo) as [?|Htc]; [done|].
    assert (∃ d, depends_on (build_dependency_graph (cells r)) x d ∧ d ∈ order)
      as (d & Hdep & Hdo).
    { inversion Htc as [? ? Hdep|? d ? Hdep Htc']; subst.
      - exists cell_id. split; [done|]. apply Hmem. by left.
      - exists d. split; [done|]. apply Hmem. by right. }
    exists d. split; [done|]. apply IH.
    - exists ([x] ++ l2). by rewrite Hpre.
    - by apply (Hfirst pre x l2 d). }
  intros k Hk Hkne.
  destruct (ri_done _ _ _ _ Hinv k Hk) as (s & Hs & _ & _ & _ & Hconv).
  exists s. split; [done|]. apply Hconv; [done|].
  destruct (proj1 (Hmem k) Hk) as [?|Htc]; [done|].
  inversion Htc as [? ? Hdep|? d ? Hdep Htc']; subst.
  - exists cell_id. split; [done|]. apply (Hall order); [done|]. apply Hmem. by left.
  - exists d. split; [done|]. apply (Hall order); [done|]. apply Hmem. by right.
Qed.

(** X21. In a run of an acyclic notebook whose cells have non-empty
    identifiers, when the cell that is run does not end in success, every
    other cell of the run ends blocked and none of them is handed to an
    executor. *)
Theorem run_cell_failure_blocks_downstream cell_id sql_executor (r : Reactor)
    order r' s0 :
  states_cover r → ¬ has_cycle (build_dependency_graph (cells r)) →
  cell_id ∈ id <$> cells r → "" ∉ id <$> cells r →
  run_cell cell_id sql_executor r = Ok (order, r') →
  cell_states r' !! cell_id = Some s0 → status s0 ≠ SUCCESS →
  (∀ k, k ∈ order → k ≠ cell_id →
        ∃ s, cell_states r' !! k = Some s ∧ status s = BLOCKED) ∧
  (dispatched r' = dispatched r ∨ dispatched r' = dispatched r ++ [cell_id]).
Proof.
  intros Hcover Hacyc Hcid Hne Hrun0 Hs0 Hst0.
  destruct (run_cell_acyclic_inv cell_id sql_executor r Hcover Hacyc Hcid)
    as (order' & st & _ & Hrun & Hinv & Hnd & Hhead & Hmem & Hids & Hfirst & _).
  rewrite Hrun in Hrun0. injection Hrun0 as <- <-. simpl in *.
  assert ("" ∉ rs_failed_cells st) as Hemp.
  { intros Hin. by apply Hne, Hids, (ri_failed _ _ _ _ Hinv). }
  pose proof (run_failure_blocks cell_id sql_executor r order' st s0
                Hinv Hmem Hfirst Hemp Hs0 Hst0) as Hblocked.
  split; [done|].
  destruct (ri_log _ _ _ _ Hinv) as (l & -> & Hsub & Hlblk & _).
  assert (∀ k, k ∈ l → k = cell_id) as Hl.
  { intros k Hk. destruct (decide (k = cell_id)) as [|Hkne]; [done|].
    assert (k ∈ order') as Hko by by eapply elem_of_sublist.
    destruct (Hblocked k Hko Hkne) as (s & Hs & Hb).
    destruct (find_cell_by_id_Some (cells r) k (Hids k Hko)) as (c & Hc & _).
    by destruct (proj1 (Hlblk k s c Hko Hs Hc) Hk). }
  pose proof (sublist_NoDup _ _ Hnd Hsub) as Hlnd.
  destruct l as [|a [|b l]].
  - left. by rewrite app_nil_r.
  - right. by rewrite (Hl a (list_elem_of_here _ _)).
  - exfalso. apply NoDup_cons in Hlnd as [Hab _]. apply Hab.
    rewrite (Hl a), (Hl b); [apply list_elem_of_here| |apply list_elem_of_here].
    right. apply list_elem_of_here.
Qed.

(** X22. A run of an acyclic notebook adds to the log of dispatched cells, in
    the order of the run and once each, exactly the cells of the run that do
    not end blocked, a query cell only when an SQL executor is given. *)
Theorem run_cell_dispatches_once cell_id sql_executor (r : Reactor) :
  states_cover r → ¬ has_cycle (build_dependency_graph (cells r)) →
  cell_id ∈ id <$> cells r →
  ∃ order r' l,
    run_cell cell_id sql_executor r = Ok (order, r') ∧
    dispatched r' = dispatched r ++ l ∧ NoDup l ∧ sublist l order ∧
    ∀ k s cell, k ∈ order → cell_states r' !! k = Some s →
      find_cell_by_id (cells r) k = Some cell →
      (k ∈ l ↔ status s ≠ BLOCKED ∧ handed_over sql_executor cell = true).
Proof.
  intros Hcover Hacyc Hcid.
  destruct (run_cell_acyclic_inv cell_id sql_executor r Hcover Hacyc Hcid)
    as (order & st & _ & Hrun & Hinv & Hnd & _).
  destruct (ri_log _ _ _ _ Hinv) as (l & Hlog & Hsub & Hlblk & _).
  eexists order, _, l. split; [done|]. simpl. split_and!; try done.
  by eapply sublist_NoDup.
Qed.

(** X23. In a run of an acyclic notebook the cell that is run is never
    blocked, and whatever the cells after it do, it ends with the result of
    its own execution in the namespace the run starts with: the SQL
    executor's result for a query cell, the failure for want of a
    connection when there is none, the executor's result otherwise. On
    success its status is success, with the result's output, output type
    and printed text and no error; on failure its status is error, with no
    output, the result's printed text, error and traceback, and the output
    type it had. *)
Theorem run_cell_changed_cell_takes_result cell_id sql_executor (r : Reactor) cell s :
  states_cover r → ¬ has_cycle (build_dependency_graph (cells r)) →
  find_cell_by_id (cells r) cell_id = Some cell →
  cell_states r !! cell_id = Some s →
  ∃ order r' s',
    run_cell cell_id sql_executor r = Ok (order, r') ∧
    cell_states r' !! cell_id = Some s' ∧
    cs_cell_id s' = cs_cell_id s ∧ blocked_by s' = None ∧
    let e :=
      (if decide (cell_type cell = "sql") then
         match sql_executor with
         | Some sql_executor => sql_executor cell (namespace r)
         | None =>
             (mkResult cell_id false "" None "text"
                (Some "No database connection configured") None, namespace r)
         end
       else execute_cell cell (namespace r)).1 in
    (success e = true →
     status s' = SUCCESS ∧ output s' = result e ∧ output_type s' = result_type e ∧
     stdout s' = er_stdout e ∧ error s' = None ∧ error_traceback s' = None) ∧
    (success e = false →
     status s' = ERROR ∧ output s' = None ∧ output_type s' = output_type s ∧
     stdout s' = er_stdout e ∧ error s' = er_error e ∧
     error_traceback s' = er_error_traceback e).
Proof.
  intros Hcover Hacyc Hfind Hs.
  assert (cell_id ∈ id <$> cells r) as Hcid by by eapply find_cell_by_id_in_ids.
  destruct (run_cell_acyclic_inv cell_id sql_executor r Hcover Hacyc Hcid)
    as (order & st & _ & Hrun & _ & _ & _ & _ & _ & _ & Hrunst).
  specialize (Hrunst cell s Hfind Hs).
  eexists order, _, _. split; [done|]. simpl. split; [done|].
  assert ((if decide (cell_type cell = "sql") then
             match sql_executor with
             | Some sql_executor => sql_executor cell (namespace r)
             | None =>
                 (mkResult cell_id false "" None "text"
                    (Some "No database connection configured") None, namespace r)
             end
           else execute_cell cell (namespace r))
          = exec_result_of sql_executor cell (namespace r)) as ->.
  { unfold exec_result_of. by rewrite (find_cell_by_id_id _ _ _ Hfind). }
  unfold state_of_result.
  destruct (success (exec_result_of sql_executor cell (namespace r)).1); simpl;
    split_and!; try done; by intros [_ ?].
Qed.

(** X24. In an acyclic notebook whose cells have non-empty identifiers, a
    run from a query cell without an SQL executor ends that cell in error
    with the message that no database connection is configured, blocks
    every other cell of the run, and leaves the log of dispatched cells and
    the namespace as they were. *)
Theorem run_cell_query_without_executor cell_id (r : Reactor) cell :
  states_cover r → ¬ has_cycle (build_dependency_graph (cells r)) →
  "" ∉ id <$> cells r →
  find_cell_by_id (cells r) cell_id = Some cell → cell_type cell = "sql" →
  ∃ order r' s,
    run_cell cell_id None r = Ok (order, r') ∧
    cell_states r' !! cell_id = Some s ∧ status s = ERROR ∧
    error s = Some "No database connection configured" ∧
    (∀ k, k ∈ order → k ≠ cell_id →
          ∃ sk, cell_states r' !! k = Some sk ∧ status sk = BLOCKED) ∧
    dispatched r' = dispatched r ∧ namespace r' = namespace r.
Proof.
  intros Hcover Hacyc Hne Hfind Hsql.
  assert (cell_id ∈ id <$> cells r) as Hcid by by eapply find_cell_by_id_in_ids.
  destruct (find_cell_by_id_Some (cells r) cell_id Hcid) as (cell' & Hfind' & Hid & Hcell).
  assert (cell' = cell) as -> by congruence.
  destruct (Hcover cell Hcell) as [s0 Hs0]. rewrite Hid in Hs0.
  assert (handed_over None cell = false) as Hho.
  { unfold handed_over. by rewrite decide_True. }
  destruct (run_cell_acyclic_inv cell_id None r Hcover Hacyc Hcid)
    as (order & st & _ & Hrun & Hinv & Hnd & Hhead & Hmem & Hids & Hfirst & Hrunst).
  specialize (Hrunst cell s0 Hfind Hs0).
  rewrite exec_result_of_not_handed_over in Hrunst by done.
  assert ("" ∉ rs_failed_cells st) as Hemp.
  { intros Hin. by apply Hne, Hids, (ri_failed _ _ _ _ Hinv). }
  pose proof (run_failure_blocks cell_id None r order st _
                Hinv Hmem Hfirst Hemp Hrunst) as Hblocked.
  eexists order, _, _. split; [done|]. simpl.
  split; [done|]. split; [done|]. split; [done|].
  split; [by apply Hblocked|].
  destruct (ri_log _ _ _ _ Hinv) as (l & Hlog & Hsub & Hlblk & Hlns).
  assert (l = []) as ->.
  { destruct l as [|k l]; [done|]. exfalso.
    assert (k ∈ k :: l) as Hk by apply list_elem_of_here.
    assert (k ∈ order) as Hko by by eapply elem_of_sublist.
    destruct (decide (k = cell_id)) as [->|Hkne].
    - destruct (proj1 (Hlblk cell_id _ cell Hko Hrunst Hfind) Hk) as [_ Hho'].
      congruence.
    - destruct (Hblocked ltac:(done) k Hko Hkne) as (sk & Hsk & Hb).
      destruct (find_cell_by_id_Some (cells r) k (Hids k Hko)) as (c & Hc & _).
      by destruct (proj1 (Hlblk k sk c Hko Hsk Hc) Hk). }
  split; [by rewrite Hlog, app_nil_r | by apply Hlns].
Qed.

(** X25. A run from a cell of an acyclic notebook that has no state in the
    store ends with the error [KeyError] for that cell. *)
Theorem run_cell_missing_state_raises cell_id sql_executor (r : Reactor) :
  ¬ has_cycle (build_dependency_graph (cells r)) →
  cell_id ∈ id <$> cells r → cell_states r !! cell_id = None →
  run_cell cell_id sql_executor r = Raise (KeyError cell_id).
Proof.
  intros Hacyc Hcid Hnone.
  destruct (get_execution_order_acyclic (cells r) cell_id Hacyc)
    as (order & Hgeo & _ & _ & Hhead & _).
  destruct order as [|h t]; [done|]. injection Hhead as ->.
  unfold run_cell. rewrite Hgeo. simpl.
  destruct (find_cell_by_id_Some (cells r) cell_id Hcid) as (cell & Hfind & _ & _).
  assert (run_step (cells r) (build_dependency_graph (cells r)) sql_executor
            (mkRun _ (cell_states r) (namespace r) (dispatched r) ∅ []) cell_id
          = Raise (KeyError cell_id)) as ->; [|done].
  unfold run_step. rewrite Hfind. cbv zeta. simpl.
  assert (∀ l : list string, List.find (fun dep => bool_decide (dep ∈ (∅ : gset string))) l
                             = None) as ->.
  { induction l as [|x l IH]; [done|]. cbn [List.find].
    rewrite bool_decide_eq_false_2; [done | apply not_elem_of_empty]. }
  unfold _update_status. rewrite Hnone.
  destruct (if decide (cell_type cell = "sql") then _ else _) as [[e ns] log].
  destruct (success e); rewrite Hnone; unfold append_state; by rewrite Hnone.
Qed.
End run_theorems.

Lemma pipeline_acyclic :
  ¬ has_cycle (@build_dependency_graph Sample.parse Pipeline.cs).
Proof. apply detect_cycle_None_acyclic. vm_compute. reflexivity. Qed.

Lemma run_cell_runs_execution_order_witness :
  ∃ order r',
    @run_cell Sample.interp Sample.parse "c1" None
      (@set_cells Sample.interp Pipeline.cs Reactor_new) = Ok (order, r') ∧
    NoDup order ∧ head order = Some "c1" ∧
    (∀ x, x ∈ order ↔
          x = "c1" ∨
          tc (depends_on (@build_dependency_graph Sample.parse Pipeline.cs)) x "c1") ∧
    (∀ l1 x l2 d, order = l1 ++ x :: l2 →
       depends_on (@build_dependency_graph Sample.parse Pipeline.cs) x d →
       d ∈ order → d ∈ l1) ∧
    cells r' = Pipeline.cs ∧
    (∀ k, k ∉ order →
          cell_states r' !! k =
          cell_states (@set_cells Sample.interp Pipeline.cs Reactor_new) !! k) ∧
    (∀ k, k ∈ order → ∃ s, cell_states r' !! k = Some s ∧ finished s).
Proof.
  apply (@run_cell_runs_execution_order Sample.interp Sample.parse "c1" None
           (@set_cells Sample.interp Pipeline.cs Reactor_new)).
  - apply set_cells_cover.
  - apply pipeline_acyclic.
  - apply (bool_decide_unpack _). vm_compute. exact I.
Defined.

Lemma run_cell_blocked_iff_witness :
  ∃ order r',
    @run_cell Sample.interp Sample.parse "c1" None
      (@set_cells Sample.interp Pipeline.cs Reactor_new) = Ok (order, r') ∧
    ∀ k s, k ∈ order → cell_states r' !! k = Some s →
      (status s = BLOCKED ↔
       ∃ b sb, depends_on (@build_dependency_graph Sample.parse Pipeline.cs) k b ∧
               b ∈ order ∧ cell_states r' !! b = Some sb ∧ status sb ≠ SUCCESS).
Proof.
  apply (@run_cell_blocked_iff Sample.interp Sample.parse "c1" None
           (@set_cells Sample.interp Pipeline.cs Reactor_new)).
  - apply set_cells_cover.
  - apply pipeline_acyclic.
  - apply (bool_decide_unpack _). vm_compute. exact I.
  - apply (bool_decide_unpack _). vm_compute. exact I.
Defined.

Lemma run_cell_failure_blocks_downstream_witness :
  ∃ order r' s0,
    @run_cell Sample.interp Sample.parse "c1" None
      (@set_cells Sample.interp Pipeline.cs Reactor_new) = Ok (order, r') ∧
    cell_states r' !! "c1" = Some s0 ∧ status s0 = ERROR ∧
    order = ["c1"; "c2"; "c3"] ∧
    (∀ k, k ∈ order → k ≠ "c1" →
          ∃ s, cell_states r' !! k = Some s ∧ status s = BLOCKED) ∧
    (dispatched r' = dispatched (@set_cells Sample.interp Pipeline.cs Reactor_new) ∨
     dispatched r' =
       dispatched (@set_cells Sample.interp Pipeline.cs Reactor_new) ++ ["c1"]).
Proof.
  assert (returned (@run_cell Sample.interp Sample.parse "c1" None
                      (@set_cells Sample.interp Pipeline.cs Reactor_new))
          = Some ["c1"; "c2"; "c3"]) as Hret by (vm_compute; reflexivity).
  assert (status <$> state_after (@run_cell Sample.interp Sample.parse "c1" None
                                    (@set_cells Sample.interp Pipeline.cs Reactor_new)) "c1"
          = Some ERROR) as Hst by (vm_compute; reflexivity).
  destruct (@run_cell Sample.interp Sample.parse "c1" None
              (@set_cells Sample.interp Pipeline.cs Reactor_new))
    as [[order r']|e] eqn:E; rewrite ?E in Hret, Hst;
    unfold state_after, reactor_after in Hst; simpl in Hret, Hst;
    [|discriminate Hret]. injection Hret as ->.
  destruct (cell_states r' !! "c1") as [s0|] eqn:E0;
    rewrite ?E0 in Hst; simpl in Hst; [|discriminate Hst].
  injection Hst as Hst.
  exists ["c1"; "c2"; "c3"], r', s0.
  destruct (@run_cell_failure_blocks_downstream Sample.interp Sample.parse "c1" None
              (@set_cells Sample.interp Pipeline.cs Reactor_new) ["c1"; "c2"; "c3"] r' s0)
    as [Hblk Hdisp].
  - apply set_cells_cover.
  - apply pipeline_acyclic.
  - apply (bool_decide_unpack _). vm_compute. exact I.
  - apply (bool_decide_unpack _). vm_compute. exact I.
  - exact E.
  - exact E0.
  - rewrite Hst. discriminate.
  - split; [reflexivity|]. split; [exact E0|]. split; [exact Hst|].
    split; [reflexivity|]. split; [exact Hblk | exact Hdisp].
Defined.

Lemma run_cell_dispatches_once_witness :
  ∃ order r' l,
    @run_cell Sample.interp Sample.parse "c1" None
      (@set_cells Sample.interp Pipeline.cs Reactor_new) = Ok (order, r') ∧
    dispatched r' = dispatched (@set_cells Sample.interp Pipeline.cs Reactor_new) ++ l ∧
    NoDup l ∧ sublist l order ∧
    ∀ k s cell, k ∈ order → cell_states r' !! k = Some s →
      find_cell_by_id Pipeline.cs k = Some cell →
      (k ∈ l ↔ status s ≠ BLOCKED ∧ @handed_over Sample.interp None cell = true).
Proof.
  apply (@run_cell_dispatches_once Sample.interp Sample.parse "c1" None
           (@set_cells Sample.interp Pipeline.cs Reactor_new)).
  - apply set_cells_cover.
  - apply pipeline_acyclic.
  - apply (bool_decide_unpack _). vm_compute. exact I.
Defined.

Lemma run_cell_changed_cell_takes_result_witness :
  ∃ order r' s',
    @run_cell Sample.interp Sample.parse "c1" None
      (@set_cells Sample.interp Sample.cs_sum Reactor_new) = Ok (order, r') ∧
    cell_states r' !! "c1" = Some s' ∧
    cs_cell_id s' = "c1" ∧ blocked_by s' = None ∧
    status s' = SUCCESS ∧ output s' = None ∧ output_type s' = "text" ∧
    stdout s' = "" ∧ error s' = None ∧ error_traceback s' = None.
Proof.
  destruct (@run_cell_changed_cell_takes_result Sample.interp Sample.parse "c1" None
              (@set_cells Sample.interp Sample.cs_sum Reactor_new)
              (mkCell "c1" "x = 1" "python" None) (CellState_new "c1"))
    as (order & r' & s' & Hrun & Hs' & Hid & Hby & Hok & _).
  - apply set_cells_cover.
  - apply detect_cycle_None_acyclic. vm_compute. reflexivity.
  - vm_compute. reflexivity.
  - vm_compute. reflexivity.
  - exists order, r', s'. split; [exact Hrun|]. split; [exact Hs'|].
    split; [exact Hid|]. split; [exact Hby|]. apply Hok. vm_compute. reflexivity.
Defined.

Lemma run_cell_query_without_executor_witness :
  ∃ order r' s,
    @run_cell Sample.interp Sample.parse "c1" None
      (@set_cells Sample.interp Pipeline.cs Reactor_new) = Ok (order, r') ∧
    cell_states r' !! "c1" = Some s ∧ status s = ERROR ∧
    error s = Some "No database connection configured" ∧
    (∀ k, k ∈ order → k ≠ "c1" →
          ∃ sk, cell_states r' !! k = Some sk ∧ status sk = BLOCKED) ∧
    dispatched r' = dispatched (@set_cells Sample.interp Pipeline.cs Reactor_new) ∧
    namespace r' = namespace (@set_cells Sample.interp Pipeline.cs Reactor_new).
Proof.
  apply (@run_cell_query_without_executor Sample.interp Sample.parse "c1"
           (@set_cells Sample.interp Pipeline.cs Reactor_new)
           (mkCell "c1" "SELECT 1" "sql" (Some "y"))).
  - apply set_cells_cover.
  - apply pipeline_acyclic.
  - apply (bool_decide_unpack _). vm_compute. exact I.
  - vm_compute. reflexivity.
  - reflexivity.
Defined.

Lemma run_cell_missing_state_raises_witness :
  @run_cell Sample.interp Sample.parse "c1" None
    (clear_cell_state "c1" (@set_cells Sample.interp Sample.cs_sum Reactor_new))
  = Raise (KeyError "c1").
Proof.
  apply (@run_cell_missing_state_raises Sample.interp Sample.parse).
  - apply detect_cycle_None_acyclic. vm_compute. reflexivity.
  - apply (bool_decide_unpack _). vm_compute. exact I.
  - vm_compute. reflexivity.
Defined.

(** ** An induction principle for the reachable states *)

Section set_cells_exact.
Context {interp : Interp}.

Lemma fold_new_states_lookup (l : list Cell) :
  ∀ (m : gmap string CellState) k,
    fold_left (fun m cell =>
      match m !! id cell with
      | Some _ => m
      | None => <[id cell := CellState_new (id cell)]> m
      end) l m !! k =
    match m !! k with
    | Some s => Some s
    | None => if decide (k ∈ id <$> l) then Some (CellState_new k) else None
    end.
Proof.
  induction l as [|c l IH]; intros m k; simpl.
  - by destruct (m !! k).
  - rewrite IH. destruct (m !! id c) as [s|] eqn:E.
    + destruct (m !! k) as [sk|] eqn:Ek; [done|].
      assert (id c ≠ k) by congruence.
      destruct (decide (k ∈ id <$> l)) as [Hin|Hnin].
      * rewrite decide_True; [done | by right].
      * rewrite decide_False; [done|]. rewrite not_elem_of_cons. split; [congruence|done].
    + destruct (decide (id c = k)) as [<-|Hne].
      * rewrite lookup_insert_eq, E. rewrite decide_True; [done | apply list_elem_of_here].
      * rewrite lookup_insert_ne by done. destruct (m !! k); [done|].
        destruct (decide (k ∈ id <$> l)) as [Hin|Hnin].
        -- rewrite decide_True; [done | by right].
        -- rewrite decide_False; [done|]. rewrite not_elem_of_cons. split; [congruence|done].
Qed.

Lemma set_cells_lookup (new_cells : list Cell) (r : Reactor) k :
  cell_states (set_cells new_cells r) !! k =
  if decide (k ∈ id <$> new_cells)
  then Some (default (CellState_new k) (cell_states r !! k))
  else None.
Proof.
  pose proof (set_cells_states new_cells r k) as Hsome.
  destruct (decide (k ∈ id <$> new_cells)) as [Hin|Hnin].
  - unfold set_cells in *. simpl in *. rewrite fold_delete_lookup in *.
    destruct (decide (k ∈ _)) as [|_].
    + apply Hsome in Hin. by destruct Hin.
    + rewrite fold_new_states_lookup. destruct (cell_states r !! k); [done|].
      by rewrite decide_True.
  - destruct (cell_states (set_cells new_cells r) !! k) eqn:E; [|done].
    exfalso. apply Hnin, Hsome. eauto.
Qed.
End set_cells_exact.

Section reach_facts.
Context {interp : Interp} {parser : AstParser}.

(** how one turn of the loop of [run_cell] changes the store: not at all,
    or in the state of its cell, by one of three updates *)
Lemma run_step_state_shape cs g sql_executor (st : run_state) cid st' :
  run_step cs g sql_executor st cid = Ok st' →
  rs_states st' = rs_states st ∨
  ∃ s s', rs_states st !! cid = Some s ∧ rs_states st' = <[cid := s']> (rs_states st) ∧
    ((∃ b, b ≠ "" ∧ s' = upd_blocked b s) ∨
     (∃ e, success e = true ∧ s' = upd_success e (upd_running s)) ∨
     (∃ e, success e = false ∧ s' = upd_error e (upd_running s))).
Proof.
  unfold run_step. destruct (find_cell_by_id cs cid) as [cell|]; [|intros [= <-]; by left].
  cbv zeta. destruct (rs_states st !! cid) as [s|] eqn:Hs.
  - assert (∀ u1 u2, _update_status cid u2 (_update_status cid u1 (rs_states st))
                     = <[cid := u2 (u1 s)]> (rs_states st)) as Hupd2.
    { intros u1 u2. rewrite (update_status_Some _ u1 _ s) by done.
      rewrite (update_status_Some _ u2 _ (u1 s)) by apply lookup_insert_eq.
      apply insert_insert_eq. }
    assert (∀ (m : gmap string CellState) s0 l, append_state (<[cid := s0]> m) l cid
                       = Ok (l ++ [cid])) as Happ.
    { intros m s0 l. unfold append_state. by rewrite lookup_insert_eq. }
    destruct (List.find _ _) as [[|a b]|].
    + destruct (if decide (cell_type cell = "sql") then _ else _) as [[e ns] log].
      destruct (success e) eqn:Hsucc; rewrite Hupd2, Happ; simpl; intros [= <-]; simpl;
        right; eexists s, _; (split; [done|]); (split; [done|]); right; [left|right];
        by exists e.
    + rewrite (update_status_Some _ _ _ s) by done. rewrite Happ. simpl.
      intros [= <-]. simpl. right. eexists s, _. split; [done|]. split; [done|].
      left. by exists (String a b).
    + destruct (if decide (cell_type cell = "sql") then _ else _) as [[e ns] log].
      destruct (success e) eqn:Hsucc; rewrite Hupd2, Happ; simpl; intros [= <-]; simpl;
        right; eexists s, _; (split; [done|]); (split; [done|]); right; [left|right];
        by exists e.
  - assert (∀ u, _update_status cid u (rs_states st) = rs_states st) as Hnop.
    { intros u. unfold _update_status. by rewrite Hs. }
    assert (∀ l, append_state (rs_states st) l cid = Raise (KeyError cid)) as Happ.
    { intros l. unfold append_state. by rewrite Hs. }
    destruct (List.find _ _) as [[|a b]|].
    + destruct (if decide (cell_type cell = "sql") then _ else _) as [[e ns] log].
      destruct (success e); rewrite !Hnop, Happ; done.
    + rewrite Hnop, Happ. done.
    + destruct (if decide (cell_type cell = "sql") then _ else _) as [[e ns] log].
      destruct (success e); rewrite !Hnop, Happ; done.
Qed.

(** A property of the states that a new state has and every update keeps
    holds of every state of a reachable reactor. *)
Lemma reachable_state_ind (P : string → CellState → Prop) :
  (∀ k, P k (CellState_new k)) →
  (∀ k s cycle, P k s → P k (upd_cycle cycle s)) →
  (∀ k s b, P k s → b ≠ "" → P k (upd_blocked b s)) →
  (∀ k s e, P k s → success e = true → P k (upd_success e (upd_running s))) →
  (∀ k s e, P k s → success e = false → P k (upd_error e (upd_running s))) →
  (∀ k s, P k s → P k (upd_reset s)) →
  ∀ r, reachable r → map_Forall P (cell_states r).
Proof.
  intros Hnew Hcyc Hblk Hsucc Herr Hreset.
  assert (∀ cs g sql st cid st',
            run_step cs g sql st cid = Ok st' →
            map_Forall P (rs_states st) → map_Forall P (rs_states st')) as Hstep.
  { intros cs g sql st cid st' Hrun Hst.
    destruct (run_step_state_shape _ _ _ _ _ _ Hrun)
      as [->|(s & s' & Hs & -> & Hcase)]; [done|].
    apply map_Forall_insert_2; [|done]. specialize (Hst cid s Hs).
    destruct Hcase as [(b & ? & ->)|[(e & ? & ->)|(e & ? & ->)]]; auto. }
  assert (∀ cell_id sql r results r',
            run_cell cell_id sql r = Ok (results, r') →
            map_Forall P (cell_states r) → map_Forall P (cell_states r')) as Hrun.
  { intros cell_id sql r0 results r' Hrun Hst. unfold run_cell in Hrun.
    destruct (get_execution_order (cells r0) cell_id) as [[order cycle]|];
      simpl in Hrun; [|done].
    assert (∀ st,
      fold_res (run_step (cells r0) (build_dependency_graph (cells r0)) sql) order
        (mkRun _ (cell_states r0) (namespace r0) (dispatched r0) ∅ []) = Ok st →
      map_Forall P (rs_states st)) as Hloop.
    { intros st. apply (fold_res_preserves (fun st => map_Forall P (rs_states st))).
      - intros a b a' Ha Hs. by eapply Hstep.
      - done. }
    destruct cycle as [[|c0 cycle]|].
    - destruct (fold_res _ order _) as [st|] eqn:E; simpl in Hrun; [|done].
      injection Hrun as <- <-. by apply Hloop.
    - destruct (fold_res _ (c0 :: cycle) _) as [res|] eqn:E; simpl in Hrun; [|done].
      injection Hrun as <- <-. cbn [cell_states].
      assert (∀ upd (l : list string) m,
                (∀ k s, P k s → P k (upd s)) → map_Forall P m →
                map_Forall P (fold_left (fun m cid => _update_status cid upd m) l m))
        as Hfold.
      { intros upd l. induction l as [|x l IH]; intros m Hupd Hm; simpl; [done|].
        apply IH; [done|]. unfold _update_status.
        destruct (m !! x) as [s|] eqn:Hx; [|done].
        apply map_Forall_insert_2; [|done]. apply Hupd. by apply (Hm x). }
      apply (Hfold _ (c0 :: cycle)); [|done]. intros k s. apply Hcyc.
    - destruct (fold_res _ order _) as [st|] eqn:E; simpl in Hrun; [|done].
      injection Hrun as <- <-. by apply Hloop. }
  induction 1 as [|new_cells r _ IH|cell_id sql r results r' _ IH Hr
                  |sql r results r' _ IH Hr|r _ IH].
  - apply map_Forall_empty.
  - intros k s. rewrite set_cells_lookup. destruct (decide _); [|done].
    intros [= <-]. destruct (cell_states r !! k) as [s|] eqn:Hs; simpl; [|apply Hnew].
    by apply (IH k).
  - by eapply Hrun.
  - unfold run_all_cells in Hr. destruct (cells r) as [|first rest].
    + by injection Hr as <- <-.
    + revert Hr. match goal with |- context [fold_res _ ?roots _] => generalize roots end.
      intros roots.
      destruct (fold_res _ roots _) as [acc|] eqn:E; simpl; [|done].
      intros [= <- <-].
      apply (fold_res_preserves
               (fun acc => map_Forall P (cell_states acc.2))
               (run_all_step sql) roots) in E; [done| |done].
      intros a b a' Ha Hs. unfold run_all_step in Hs.
      destruct (decide _); [by injection Hs as <-|].
      destruct (run_cell b sql a.2) as [[res r1]|] eqn:Er; simpl in Hs; [|done].
      injection Hs as <-. simpl. by eapply Hrun.
  - simpl. intros k s. rewrite lookup_fmap.
    destruct (cell_states r !! k) as [s0|] eqn:Hs; simpl; [|done].
    intros [= <-]. apply Hreset. by apply (IH k).
Qed.
End reach_facts.

(** ** The store of a reachable reactor *)

Section reach_theorems.
Context {interp : Interp} {parser : AstParser}.

(** X18. [set_cells] installs the list and leaves the namespace alone; a
    cell that stays keeps its state, an identifier that is new gets an idle
    state, and an identifier that left the list loses its state. *)
Theorem set_cells_keeps_states (new_cells : list Cell) (r : Reactor) :
  cells (set_cells new_cells r) = new_cells ∧
  namespace (set_cells new_cells r) = namespace r ∧
  ∀ k, cell_states (set_cells new_cells r) !! k =
       if decide (k ∈ id <$> new_cells)
       then Some (default (CellState_new k) (cell_states r !! k))
       else None.
Proof. split_and!; [done|done|]. intros k. apply set_cells_lookup. Qed.

(** X29. In every reachable reactor the states are those of the cells of
    the list, one for each identifier and none besides, and every state is
    stored under its own [cell_id]. *)
Theorem reachable_states_match_cells (r : Reactor) :
  reachable r →
  (∀ k, is_Some (cell_states r !! k) ↔ k ∈ id <$> cells r) ∧
  (∀ k s, cell_states r !! k = Some s → cs_cell_id s = k).
Proof.
  intros Hr. split.
  - induction Hr as [|new_cells r _ _|cell_id sql r results r' _ IH Hrun
                     |sql r results r' _ IH Hrun|r _ IH]; intros k.
    + simpl. rewrite lookup_empty. split; [by intros [? ?] | by intros ?%elem_of_nil].
    + apply set_cells_states.
    + destruct (run_cell_same _ _ _ _ _ Hrun) as [-> Hk]. by rewrite Hk.
    + destruct (run_all_cells_same _ _ _ _ Hrun) as [-> Hk]. by rewrite Hk.
    + simpl. rewrite lookup_fmap, <- IH. by rewrite fmap_is_Some.
  - apply (reachable_state_ind (fun k s => cs_cell_id s = k)); done.
Qed.

(** X30. In every reachable reactor no state is left running, an idle state
    is cleared, a successful state carries no error and no blocker, and a
    blocked state names a non-empty blocker, in [blocked_by] and in its
    message. *)
Theorem reachable_states_consistent (r : Reactor) k s :
  reachable r → cell_states r !! k = Some s → state_consistent s.
Proof.
  intros Hr Hs.
  assert (map_Forall (fun _ s => state_consistent s) (cell_states r)) as Hall;
    [|by apply (Hall k s)].
  apply reachable_state_ind; [..|done]; clear; unfold state_consistent; simpl.
  - intros _. by split_and!.
  - intros _ s cycle _. by split_and!.
  - intros _ s b _ Hb. split_and!; try done. intros _. by exists b.
  - intros _ s e _ _. by split_and!.
  - intros _ s e _ _. by split_and!.
  - intros _ s _. by split_and!.
Qed.

(** X28. [reset] keeps the cells and the identifiers that have a state,
    leaves every state idle and cleared, and puts back the namespace of a
    new reactor; a second [reset] changes nothing. *)
Theorem reset_clears (r : Reactor) :
  cells (reset r) = cells r ∧
  namespace (reset r) = namespace Reactor_new ∧
  (∀ k, is_Some (cell_states (reset r) !! k) ↔ is_Some (cell_states r !! k)) ∧
  (∀ k s, cell_states (reset r) !! k = Some s →
     status s = IDLE ∧ output s = None ∧ stdout s = "" ∧ error s = None ∧
     error_traceback s = None ∧ blocked_by s = None) ∧
  reset (reset r) = reset r.
Proof.
  split_and!; try done.
  - intros k. simpl. by rewrite lookup_fmap, fmap_is_Some.
  - intros k s. simpl. rewrite lookup_fmap.
    destruct (cell_states r !! k); simpl; [|done]. by intros [= <-].
  - unfold reset. simpl. f_equal. rewrite <- map_fmap_compose.
    apply map_fmap_ext. by intros k s _.
Qed.
End reach_theorems.

Lemma reachable_states_match_cells_witness :
  ∃ r, @reachable Sample.interp Sample.parse r ∧
       cells r = Pipeline.cs ∧
       (∀ k, is_Some (cell_states r !! k) ↔ k ∈ id <$> cells r) ∧
       (∀ k s, cell_states r !! k = Some s → cs_cell_id s = k).
Proof.
  exists (@set_cells Sample.interp Pipeline.cs Reactor_new).
  assert (@reachable Sample.interp Sample.parse
            (@set_cells Sample.interp Pipeline.cs Reactor_new)) as Hr.
  { apply reach_set_cells, reach_new. }
  split; [exact Hr|]. split; [reflexivity|].
  exact (@reachable_states_match_cells Sample.interp Sample.parse _ Hr).
Defined.

Lemma reachable_states_consistent_witness :
  ∃ r s, @reachable Sample.interp Sample.parse r ∧
         cell_states r !! "c3" = Some s ∧ status s = BLOCKED ∧ state_consistent s.
Proof.
  assert (status <$> state_after (@run_cell Sample.interp Sample.parse "c1" None
                                    (@set_cells Sample.interp Pipeline.cs Reactor_new)) "c3"
          = Some BLOCKED) as Hst by (vm_compute; reflexivity).
  destruct (@run_cell Sample.interp Sample.parse "c1" None
              (@set_cells Sample.interp Pipeline.cs Reactor_new))
    as [[order r']|e] eqn:E; rewrite ?E in Hst;
    unfold state_after, reactor_after in Hst; simpl in Hst; [|discriminate Hst].
  assert (@reachable Sample.interp Sample.parse r') as Hr.
  { eapply reach_run_cell; [|exact E]. apply reach_set_cells, reach_new. }
  destruct (cell_states r' !! "c3") as [s|] eqn:Es;
    rewrite ?Es in Hst; simpl in Hst; [|discriminate Hst].
  injection Hst as Hst.
  exists r', s. split; [exact Hr|]. split; [exact Es|]. split; [exact Hst|].
  exact (@reachable_states_consistent Sample.interp Sample.parse r' "c3" s Hr Es).
Defined.

(** ** Running every cell *)

Lemma collect_results_spec (l : list string) :
  ∀ (res : list string) (ex : gset string),
    NoDup res → (∀ x, x ∈ res ↔ x ∈ ex) →
    NoDup (collect_results l (res, ex)).1 ∧
    (∀ x, x ∈ (collect_results l (res, ex)).1 ↔ x ∈ (collect_results l (res, ex)).2) ∧
    (∀ x, x ∈ (collect_results l (res, ex)).2 ↔ x ∈ ex ∨ x ∈ l).
Proof.
  unfold collect_results.
  induction l as [|c l IH]; intros res ex Hnd Hex; simpl.
  - split_and!; try done. intros x. split; [by left | intros [?|?%elem_of_nil]; done].
  - destruct (decide (c ∈ ex)) as [Hin|Hnin].
    + destruct (IH res ex Hnd Hex) as (H1 & H2 & H3). split_and!; try done.
      intros x. rewrite H3, elem_of_cons. split; [intros [?|?]; auto|].
      intros [?|[->|?]]; auto.
    + destruct (IH (res ++ [c]) ({[c]} ∪ ex)) as (H1 & H2 & H3).
      * apply NoDup_app. split_and!; [done| |apply NoDup_singleton].
        intros x Hx ->%list_elem_of_singleton. by apply Hnin, Hex.
      * intros x. rewrite elem_of_app, list_elem_of_singleton, Hex. set_solver.
      * split_and!; try done. intros x. rewrite H3, elem_of_cons. set_solver.
Qed.

(** in an acyclic graph whose dependencies are cells of the graph, every
    cell is a root or depends, through one or more edges, on a root *)
Lemma acyclic_has_root (g : dict (gset string)) :
  is_dict g → ¬ has_cycle g →
  (∀ k deps d, dict_get g k = Some deps → d ∈ deps → d ∈ g.*1) →
  ∀ x, x ∈ g.*1 →
    ∃ root, root ∈ g.*1 ∧ default ∅ (dict_get g root) = ∅ ∧
            (x = root ∨ tc (depends_on g) x root).
Proof.
  intros Hd Hacyc Hclosed.
  destruct (topological_sort_spec g (list_to_set g.*1) Hd)
    as (order & _ & Hnd & Hmem & Hord).
  assert (∀ y, y ∈ order ↔ y ∈ g.*1) as Hmem'.
  { intros y. rewrite Hmem. apply elem_of_list_to_set. }
  assert (∀ pre, pre `prefix_of` order → ∀ x, x ∈ pre →
            ∃ root, root ∈ g.*1 ∧ default ∅ (dict_get g root) = ∅ ∧
                    (x = root ∨ tc (depends_on g) x root)) as Hall.
  { induction pre as [|k pre IH] using rev_ind; intros [l2 Hpre] x Hx;
      [by apply elem_of_nil in Hx|].
    apply elem_of_app in Hx as [Hx | Hx%list_elem_of_singleton].
    { apply IH; [|done]. exists ([k] ++ l2). by rewrite Hpre, <- app_assoc. }
    subst k. rewrite <- app_assoc in Hpre. simpl in Hpre.
    assert (x ∈ g.*1) as Hxk.
    { apply Hmem'. rewrite Hpre. apply elem_of_app. right. apply list_elem_of_here. }
    destruct (decide (default ∅ (dict_get g x) = ∅)) as [Hroot|Hdeps].
    { exists x. split_and!; [done|done|by left]. }
    destruct (dict_get g x) as [deps|] eqn:Hget; simpl in Hdeps; [|done].
    apply set_choose_L in Hdeps as [d Hdin].
    assert (depends_on g x d) as Hdep by (by exists deps).
    assert (d ∈ pre) as Hdpre.
    { destruct (Hord pre x l2 d Hpre Hdep) as [?|Htc]; [|done|].
      - apply Hmem, Hmem'. by eapply Hclosed.
      - exfalso. apply Hacyc. exists x. by eapply tc_l. }
    destruct (IH (ltac:(exists ([x] ++ l2); by rewrite Hpre)) d Hdpre)
      as (root & Hrk & Hroot & Hreach).
    exists root. split_and!; [done|done|]. right.
    destruct Hreach as [->|Htc]; [by apply tc_once | by eapply tc_l]. }
  intros x Hx. apply (Hall order); [done|]. by apply Hmem'.
Qed.

Section run_all_facts.
Context {interp : Interp} {parser : AstParser}.

(** the loop over the roots in [run_all_cells], for an acyclic notebook *)
Lemma run_all_loop sql_executor (r : Reactor) :
  ¬ has_cycle (build_dependency_graph (cells r)) →
  ∀ todo processed acc,
    (∀ x, x ∈ todo → x ∈ id <$> cells r ∧
                     default ∅ (dict_get (build_dependency_graph (cells r)) x) = ∅) →
    NoDup acc.1.1 → (∀ x, x ∈ acc.1.1 ↔ x ∈ acc.1.2) →
    states_cover acc.2 → cells acc.2 = cells r →
    (∀ x, x ∈ acc.1.2 ↔
          ∃ root, root ∈ processed ∧
                  (x = root ∨ tc (depends_on (build_dependency_graph (cells r))) x root)) →
    ∃ acc', fold_res (run_all_step sql_executor) todo acc = Ok acc' ∧
      NoDup acc'.1.1 ∧ cells acc'.2 = cells r ∧
      (∀ x, x ∈ acc'.1.1 ↔
            ∃ root, root ∈ processed ++ todo ∧
                    (x = root ∨ tc (depends_on (build_dependency_graph (cells r))) x root)).
Proof.
  intros Hacyc todo. induction todo as [|root todo IH];
    intros processed [[res ex] r0] Hroots Hnd Hex Hcover Hcells Hclos;
    cbn [fst snd] in *.
  - eexists. split; [done|]. cbn [fst snd]. split_and!; try done.
    intros x. rewrite Hex, Hclos, app_nil_r. done.
  - destruct (Hroots root (list_elem_of_here _ _)) as [Hrid Hrroot].
    assert (∀ y, ¬ tc (depends_on (build_dependency_graph (cells r))) root y) as Hnotc.
    { intros y Htc.
      assert (∃ d, depends_on (build_dependency_graph (cells r)) root d)
        as (d & deps & Hget & Hd).
      { inversion Htc; subst; eauto. }
      rewrite Hget in Hrroot. simpl in Hrroot. rewrite Hrroot in Hd.
      by apply not_elem_of_empty in Hd. }
    rewrite fold_res_cons.
    assert (run_all_step sql_executor (res, ex, r0) root =
            if decide (root ∈ ex) then Ok (res, ex, r0)
            else run_cell root sql_executor r0 ≫=
                 (fun '(results, r1) => Ok (collect_results results (res, ex), r1)))
      as -> by done.
    destruct (decide (root ∈ ex)) as [Hin|Hnin].
    + rewrite res_bind_Ok.
      destruct (IH (processed ++ [root]) (res, ex, r0)) as (acc' & -> & ? & ? & Hres);
        cbn [fst snd]; try done.
      * intros x Hx. apply Hroots. by right.
      * intros x. rewrite Hclos. split.
        -- intros (ρ & Hρ & Hx). exists ρ. split; [|done]. apply elem_of_app. by left.
        -- intros (ρ & [Hρ | ->%list_elem_of_singleton]%elem_of_app & Hx); [by eauto|].
           apply Hclos in Hin as (ρ' & Hρ' & [->|Htc]); [by eauto|].
           by destruct (Hnotc ρ').
      * eexists. split; [done|]. split_and!; try done.
        intros x. rewrite Hres, <- app_assoc. done.
    + rewrite <- Hcells in Hacyc, Hrid.
      destruct (run_cell_acyclic_inv root sql_executor r0 Hcover Hacyc Hrid)
        as (order & st & _ & Hrun & _ & _ & _ & Hmem & _).
      rewrite Hrun, res_bind_Ok. cbv beta iota.
      destruct (collect_results_spec order res ex Hnd Hex) as (Hnd' & Hex' & Hmem').
      destruct (collect_results order (res, ex)) as [res' ex'] eqn:Hcol. cbn [fst snd] in *.
      rewrite res_bind_Ok.
      destruct (IH (processed ++ [root])
                  (res', ex', mkReactor _ (cells r0) (rs_states st) (rs_namespace st)
                                        (rs_dispatched st)))
        as (acc' & -> & ? & ? & Hres); cbn [fst snd cells]; try done.
      * intros x Hx. apply Hroots. by right.
      * eapply same_cells_and_keys_cover; [|exact Hcover]. by eapply run_cell_same.
      * intros x. rewrite Hmem', Hclos, Hmem, Hcells. split.
        -- intros [(ρ & Hρ & Hx)|Hx].
           ++ exists ρ. split; [|done]. apply elem_of_app. by left.
           ++ exists root. split; [|done]. apply elem_of_app. right.
              apply list_elem_of_here.
        -- intros (ρ & [Hρ | ->%list_elem_of_singleton]%elem_of_app & Hx);
             [left; by eauto | by right].
      * eexists. split; [done|]. split_and!; try done.
        intros x. rewrite Hres, <- app_assoc. done.
Qed.
End run_all_facts.

Section run_all_theorems.
Context {interp : Interp} {parser : AstParser}.

(** X26. On an acyclic notebook in which every cell has a state,
    [run_all_cells] ends without an error and returns the state of every
    cell of the list, each once. *)
Theorem run_all_cells_returns_every_cell sql_executor (r : Reactor) :
  states_cover r → ¬ has_cycle (build_dependency_graph (cells r)) →
  ∃ results r',
    run_all_cells sql_executor r = Ok (results, r') ∧
    NoDup results ∧ (∀ k, k ∈ results ↔ k ∈ id <$> cells r) ∧
    cells r' = cells r.
Proof.
  intros Hcover Hacyc. unfold run_all_cells.
  remember (cells r) as cs eqn:Hcs. destruct cs as [|first rest].
  { exists [], r. split_and!; try done. apply NoDup_nil_2. }
  rewrite Hcs in Hacyc |- *. cbv zeta.
  pose proof (build_dependency_graph_is_dict (cells r)) as Hd.
  assert (∀ x, x ∈ (build_dependency_graph (cells r)).*1 →
            ∃ root, root ∈ (build_dependency_graph (cells r)).*1 ∧
                    default ∅ (dict_get (build_dependency_graph (cells r)) root) = ∅ ∧
                    (x = root ∨ tc (depends_on (build_dependency_graph (cells r))) x root))
    as Hroot.
  { apply acyclic_has_root; [done|done|].
    intros k deps d Hget Hin. apply build_dependency_graph_keys.
    by eapply build_dependency_graph_closed. }
  set (roots := filter (fun cid =>
          default ∅ (dict_get (build_dependency_graph (cells r)) cid) = ∅)
          (id <$> cells r)).
  assert (∀ x, x ∈ roots ↔
               x ∈ id <$> cells r ∧
               default ∅ (dict_get (build_dependency_graph (cells r)) x) = ∅) as Hroots.
  { intros x. unfold roots. rewrite list_elem_of_filter. tauto. }
  assert (match roots with [] => [id first] | _ => roots end = roots) as ->.
  { destruct roots as [|? ?] eqn:Hr; [|done]. exfalso.
    destruct (Hroot (id first)) as (root & Hk & Hdeps & _).
    - apply build_dependency_graph_keys. rewrite <- Hcs. rewrite fmap_cons.
      apply list_elem_of_here.
    - eapply not_elem_of_nil. apply Hroots. split; [|done].
      by apply build_dependency_graph_keys. }
  destruct (run_all_loop sql_executor r Hacyc roots [] ([], ∅, r))
    as (acc & -> & Hnd & Hcells & Hres); cbn [fst snd]; try done.
  - intros x. by apply Hroots.
  - apply NoDup_nil_2.
  - intros x. split; [by intros ?%elem_of_nil | by intros ?%not_elem_of_empty].
  - intros x. split; [by intros ?%not_elem_of_empty|]. by intros (? & ?%elem_of_nil & _).
  - rewrite res_bind_Ok. eexists _, _. split; [done|]. split_and!; try done.
    intros k. rewrite Hres. simpl. split.
    + intros (root & [Hrid _]%Hroots & [->|Htc]); [done|].
      apply build_dependency_graph_keys.
      inversion Htc; subst; by eapply depends_on_key.
    + intros Hk. destruct (Hroot k) as (root & Hrk & Hdeps & Hreach).
      { by apply build_dependency_graph_keys. }
      exists root. split; [|done]. apply Hroots. split; [|done].
      by apply build_dependency_graph_keys.
Qed.

(** X27. Whatever the notebook, the list that [run_all_cells] returns holds
    no state twice. *)
Theorem run_all_cells_returns_no_state_twice sql_executor (r : Reactor) results r' :
  run_all_cells sql_executor r = Ok (results, r') → NoDup results.
Proof.
  unfold run_all_cells. destruct (cells r) as [|first rest].
  { intros [= <- _]. apply NoDup_nil_2. }
  cbv zeta. match goal with |- context [fold_res _ ?roots _] => generalize roots end.
  intros roots. destruct (fold_res _ roots _) as [acc|] eqn:E; simpl; [|done].
  intros [= <- _].
  apply (fold_res_preserves
           (fun acc => NoDup acc.1.1 ∧ ∀ x, x ∈ acc.1.1 ↔ x ∈ acc.1.2)
           (run_all_step sql_executor) roots) in E; [by destruct E| |].
  - intros [[res ex] r0] root a' [Hnd Hex] Hs. unfold run_all_step in Hs. simpl in *.
    destruct (decide _); [by injection Hs as <-|].
    destruct (run_cell root sql_executor r0) as [[order r1]|]; simpl in Hs; [|done].
    injection Hs as <-. simpl.
    destruct (collect_results_spec order res ex Hnd Hex) as (? & ? & _). done.
  - simpl. split; [apply NoDup_nil_2|].
    intros x. split; [by intros ?%elem_of_nil | by intros ?%not_elem_of_empty].
Qed.
End run_all_theorems.

Lemma run_all_cells_returns_every_cell_witness :
  ∃ results r',
    @run_all_cells Sample.interp Sample.parse None
      (@set_cells Sample.interp Sample.cs_sum Reactor_new) = Ok (results, r') ∧
    NoDup results ∧ (∀ k, k ∈ results ↔ k ∈ id <$> Sample.cs_sum) ∧
    cells r' = Sample.cs_sum.
Proof.
  apply (@run_all_cells_returns_every_cell Sample.interp Sample.parse None
           (@set_cells Sample.interp Sample.cs_sum Reactor_new)).
  - apply set_cells_cover.
  - apply detect_cycle_None_acyclic. vm_compute. reflexivity.
Defined.

Lemma run_all_cells_returns_no_state_twice_witness :
  ∃ results r',
    @run_all_cells Sample.interp Sample.parse None
      (@set_cells Sample.interp Sample.cs_cycle Reactor_new) = Ok (results, r') ∧
    results = ["c1"; "c2"] ∧ NoDup results.
Proof.
  assert (returned (@run_all_cells Sample.interp Sample.parse None
                      (@set_cells Sample.interp Sample.cs_cycle Reactor_new))
          = Some ["c1"; "c2"]) as Hret by (vm_compute; reflexivity).
  destruct (@run_all_cells Sample.interp Sample.parse None
              (@set_cells Sample.interp Sample.cs_cycle Reactor_new))
    as [[results r']|e] eqn:E; rewrite ?E in Hret; simpl in Hret;
    [|discriminate Hret]. injection Hret as Hret.
  exists results, r'. split; [reflexivity|]. split; [exact Hret|].
  exact (@run_all_cells_returns_no_state_twice Sample.interp Sample.parse None
           (@set_cells Sample.interp Sample.cs_cycle Reactor_new) results r' E).
Defined.
